(** * PII Guardian Pro: the field-encryption engine and its HTTP handlers

    A shallow embedding of [backend/utils/encrypt.py], of the two
    orchestration functions of [backend/utils/pdf_utils.py] and of the
    [/api/encrypt] and [/api/decrypt] handlers of [backend/main.py].

    Conventions.
    - A Python [str] is a [string], one [ascii] per character; [bytes] is a
      list of [byte].
    - A Python [dict] whose iteration order is observable is an association
      list in insertion order, written to with [dict_set].
    - A call that may raise returns a [result]; [try_except] is the
      [try: ... except Exception as e: ...] block.
    - Third-party code ([cryptography], [base64], the codecs, [fitz],
      [pathlib], [json], Starlette) is reached through the interface [Lib];
      what the development relies on is collected in [LibLaws].
    - Randomness is explicit: [encrypt_pii_fields] takes the values its
      calls of [Fernet.encrypt] draw from the clock and from [os.urandom].
    - SHA-256, HMAC and PBKDF2 are also given as the standards define
      them, to show that the one law about the key derivation that is not
      in the library's documentation holds of the algorithm itself. *)

From Stdlib Require Import String Ascii List NArith DecimalString DecimalNat Decimal.
From Stdlib.Strings Require Import Byte.
From Stdlib Require Import Floats.
From stdpp Require Import base list strings gmap.

Open Scope string_scope.
Open Scope list_scope.

(** ** Python run time: exceptions and results *)

Definition bytes := list byte.

(** The exception classes that occur in the modelled code.  All of them
    derive from [Exception]. *)
Inductive exn_class :=
  | CException
  | CValueError
  | CFileNotFoundError
  | CInvalidToken          (* cryptography.fernet.InvalidToken *)
  | CBinasciiError         (* binascii.Error, a ValueError *)
  | CUnicodeDecodeError    (* a ValueError *)
  | CJSONDecodeError       (* json.JSONDecodeError, a ValueError *)
  | CKeyError
  | CRuntimeError.         (* what fitz raises *)

Inductive exn :=
  | Exn (c : exn_class) (msg : string)
  | HTTPException (status_code : nat) (detail : string).

Definition Exception (msg : string) : exn := Exn CException msg.
Definition ValueError (msg : string) : exn := Exn CValueError msg.
Definition FileNotFoundError (msg : string) : exn := Exn CFileNotFoundError msg.

(** [isinstance(e, ValueError)], as tested by [except ValueError]. *)
Definition is_ValueError (e : exn) : bool :=
  match e with
  | Exn CValueError _ | Exn CBinasciiError _
  | Exn CUnicodeDecodeError _ | Exn CJSONDecodeError _ => true
  | _ => false
  end.

Inductive result (A : Type) :=
  | Ok (a : A)
  | Raised (e : exn).
Arguments Ok {A} a.
Arguments Raised {A} e.

Definition bind {A B} (r : result A) (k : A -> result B) : result B :=
  match r with
  | Ok a => k a
  | Raised e => Raised e
  end.

Notation "'let*' x := c1 'in' c2" := (bind c1 (fun x => c2))
  (at level 10, x pattern, c1 at level 100, c2 at level 200).

(** [try: body  except Exception as e: handler(e)] *)
Definition try_except {A} (body : result A) (handler : exn -> result A) : result A :=
  match body with
  | Ok a => Ok a
  | Raised e => handler e
  end.

Definition is_ok {A} (r : result A) : bool :=
  match r with Ok _ => true | Raised _ => false end.

(** [needle in haystack] on strings. *)
Fixpoint str_contains (needle haystack : string) : bool :=
  String.prefix needle haystack ||
  match haystack with
  | EmptyString => false
  | String _ rest => str_contains needle rest
  end.

(** ** Ordered dictionaries *)

Section dict.
Context {V : Type}.

Definition dict := list (string * V).

(** [d[k] = v]: an existing key keeps its position, a new one goes last. *)
Fixpoint dict_set (d : dict) (k : string) (v : V) : dict :=
  match d with
  | [] => [(k, v)]
  | (k', v') :: d' =>
      if decide (k' = k) then (k, v) :: d' else (k', v') :: dict_set d' k v
  end.

Definition dict_keys (d : dict) : list string := d.*1.

Fixpoint dict_get (d : dict) (k : string) : option V :=
  match d with
  | [] => None
  | (k', v') :: d' => if decide (k' = k) then Some v' else dict_get d' k
  end.
End dict.
Arguments dict V : clear implicits.

(** ** String formatting *)

(** [str(n)] for a non-negative integer. *)
Definition str_of_nat (n : nat) : string :=
  NilEmpty.string_of_uint (Nat.to_uint n).

Fixpoint zeros (n : nat) : string :=
  match n with
  | O => ""
  | S n' => String "0" (zeros n')
  end.

(** [f"{n:03d}"]: decimal, padded with zeros on the left to three
    characters; longer numerals are left as they are. *)
Definition format_03d (n : nat) : string :=
  let s := str_of_nat n in
  zeros (3 - String.length s) +:+ s.

(** Reading a numeral back; leading zeros do not matter. *)
Definition nat_of_str (s : string) : option nat :=
  option_map Nat.of_uint (NilEmpty.uint_of_string s).

(** ** The libraries *)

(** What one call of [Fernet.encrypt] reads from its environment: the
    clock ([time.time()]) and [os.urandom(16)]. *)
Definition nonce : Type := N * bytes.

Record Lib := {
  (* codecs *)
  str_encode : string -> bytes;               (* s.encode() *)
  bytes_decode : bytes -> result string;      (* b.decode() *)
  (* base64 *)
  b64encode : bytes -> bytes;
  b64decode : string -> result bytes;
  urlsafe_b64encode : bytes -> bytes;
  (* cryptography: PBKDF2HMAC(SHA256, length, salt, iterations).derive *)
  PBKDF2HMAC_derive : forall (length : nat) (salt : bytes) (iterations : N),
                      bytes -> bytes;
  (* cryptography: Fernet *)
  Fernet_key_ok : bytes -> bool;              (* Fernet(key) does not raise *)
  Fernet_encrypt : bytes -> nonce -> bytes -> bytes;
  Fernet_decrypt : bytes -> bytes -> result bytes;
  (* starlette *)
  HTTPException_str : nat -> string -> string;  (* str(HTTPException(..)) *)
  (* str.replace *)
  str_replace : string -> string -> string -> string;
  (* pathlib *)
  path_stem : string -> string;                 (* Path(p).stem *)
  path_sibling : string -> string -> string;    (* str(Path(p).parent / name) *)
  path_with_suffix : string -> string -> result string;
                                                (* Path(p).with_suffix(s) *)
  (* fitz (PyMuPDF) *)
  page : Type;
  rect : Type;
  search_for : page -> string -> list rect;
  apply_redactions : page -> list (rect * string) -> page;
  fitz_open_error : string -> exn;              (* fitz.open(p) on no PDF *)
  (* json *)
  json_load_error : string -> exn               (* json.load on no JSON *)
}.

(** [str(e)] *)
Definition str (L : Lib) (e : exn) : string :=
  match e with
  | Exn _ msg => msg
  | HTTPException status_code detail => HTTPException_str L status_code detail
  end.

(** The contracts of the libraries the development relies on. *)
Record LibLaws (L : Lib) : Prop := {
  (** UTF-8 decoding inverts encoding. *)
  decode_encode : forall s, bytes_decode L (str_encode L s) = Ok s;
  (** Base64 text is ASCII, and decoding it gives the bytes back. *)
  b64_roundtrip : forall x, exists t,
      bytes_decode L (b64encode L x) = Ok t /\ b64decode L t = Ok x;
  (** The derived key has the requested length. *)
  derive_length : forall n salt it pw,
      length (PBKDF2HMAC_derive L n salt it pw) = n;
  (** PBKDF2 uses the password as the key of HMAC (RFC 8018, section 5.2),
      and HMAC fills a key shorter than the 64-byte block of SHA-256 with
      zero bytes (RFC 2104, section 2): a zero byte at the end of a short
      password does not change the derived key.  The algorithm of the
      standards has this property ([pbkdf2_key_padding] below). *)
  hmac_key_padding : forall n salt it pw,
      length pw < 64 ->
      PBKDF2HMAC_derive L n salt it (pw ++ [x00])%list = PBKDF2HMAC_derive L n salt it pw;
  (** [Fernet] accepts the url-safe base64 encoding of any 32 bytes. *)
  fernet_key : forall raw,
      length raw = 32 -> Fernet_key_ok L (urlsafe_b64encode L raw) = true;
  (** A token decrypts under the key that made it (no [ttl] is given). *)
  fernet_correct : forall key n m,
      Fernet_key_ok L key = true ->
      Fernet_decrypt L key (Fernet_encrypt L key n m) = Ok m
}.

(** The authentication property of Fernet read as an absolute statement: a
    token made under one key is refused under every other key.  It is an
    idealisation of HMAC-SHA256 unforgeability and is assumed only where
    stated. *)
Definition KeyBinding (L : Lib) : Prop :=
  forall key key' n m,
    Fernet_key_ok L key = true -> Fernet_key_ok L key' = true ->
    key <> key' ->
    is_ok (Fernet_decrypt L key' (Fernet_encrypt L key n m)) = false.

(** ** PBKDF2 with HMAC, as the standards define them

    The key derivation of RFC 8018 (section 5.2) over the HMAC of RFC 2104,
    for any hash function [H] with a block of 64 bytes and a digest of 32,
    as SHA-256 has.  It is here to show where the law [hmac_key_padding]
    comes from; the model of the program uses the library through [Lib]. *)

Section pbkdf2.
Variable H : bytes -> bytes.

Definition byte_xor (a b : byte) : byte :=
  default x00 (Byte.of_N (N.lxor (Byte.to_N a) (Byte.to_N b))).

(** Step 1 to 3 of RFC 2104: a key longer than the block is hashed, and
    the key is filled with zero bytes up to the block. *)
Definition hmac_key_block (key : bytes) : bytes :=
  let key := if (64 <? length key)%nat then H key else key in
  key ++ replicate (64 - length key) x00.

Definition hmac_with (block : bytes) (m : bytes) : bytes :=
  H (map (byte_xor x5c) block ++ H (map (byte_xor x36) block ++ m)).

Definition hmac (key m : bytes) : bytes := hmac_with (hmac_key_block key) m.

(** [INT(i)]: four bytes, most significant first. *)
Definition be32 (i : N) : bytes :=
  map (fun s => default x00 (Byte.of_N (N.shiftr i s mod 256)%N)) [24; 16; 8; 0]%N.

(** [F(P, S, c, i) = U_1 xor ... xor U_c] *)
Definition pbkdf2_block (password salt : bytes) (c : N) (i : N) : bytes :=
  let prf := hmac_with (hmac_key_block password) in
  let u1 := prf (salt ++ be32 i) in
  (N.iter (c - 1)
     (fun ut : bytes * bytes =>
        let u := prf ut.1 in (u, zip_with byte_xor ut.2 u))
     (u1, u1)).2.

Definition pbkdf2 (length : nat) (salt : bytes) (c : N) (password : bytes) : bytes :=
  take length
    (concat (map (fun i => pbkdf2_block password salt c (N.of_nat i))
               (seq 1 ((length + 31) / 32)))).

End pbkdf2.

(** ** SHA-256 (FIPS 180-4), on 32-bit words kept in [N] *)

Module SHA256.
Local Open Scope N_scope.

Definition mask : N := 4294967295.
Definition add (a b : N) : N := N.land (a + b) mask.
Definition rotr (n x : N) : N :=
  N.lor (N.shiftr x n) (N.land (N.shiftl x (32 - n)) mask).
Definition ch (x y z : N) : N := N.lxor (N.land x y) (N.land (N.lxor x mask) z).
Definition maj (x y z : N) : N :=
  N.lxor (N.lxor (N.land x y) (N.land x z)) (N.land y z).
Definition bsig0 (x : N) : N := N.lxor (N.lxor (rotr 2 x) (rotr 13 x)) (rotr 22 x).
Definition bsig1 (x : N) : N := N.lxor (N.lxor (rotr 6 x) (rotr 11 x)) (rotr 25 x).
Definition ssig0 (x : N) : N := N.lxor (N.lxor (rotr 7 x) (rotr 18 x)) (N.shiftr x 3).
Definition ssig1 (x : N) : N := N.lxor (N.lxor (rotr 17 x) (rotr 19 x)) (N.shiftr x 10).

(** The round constants: the first 32 bits of the fractional parts of the
    cube roots of the first 64 primes, in decimal. *)
Definition K : list N := [
  1116352408; 1899447441; 3049323471; 3921009573; 961987163; 1508970993;
  2453635748; 2870763221; 3624381080; 310598401; 607225278; 1426881987;
  1925078388; 2162078206; 2614888103; 3248222580; 3835390401; 4022224774;
  264347078; 604807628; 770255983; 1249150122; 1555081692; 1996064986;
  2554220882; 2821834349; 2952996808; 3210313671; 3336571891; 3584528711;
  113926993; 338241895; 666307205; 773529912; 1294757372; 1396182291;
  1695183700; 1986661051; 2177026350; 2456956037; 2730485921; 2820302411;
  3259730800; 3345764771; 3516065817; 3600352804; 4094571909; 275423344;
  430227734; 506948616; 659060556; 883997877; 958139571; 1322822218;
  1537002063; 1747873779; 1955562222; 2024104815; 2227730452; 2361852424;
  2428436474; 2756734187; 3204031479; 3329325298 ].

Definition state : Type := N * N * N * N * N * N * N * N.

Definition initial : state :=
  (1779033703, 3144134277, 1013904242, 2773480762,
   1359893119, 2600822924, 528734635, 1541459225).

(** The message schedule, latest word first. *)
Definition next_word (ws : list N) : list N :=
  add (add (ssig1 (nth 1 ws 0)) (nth 6 ws 0)) (add (ssig0 (nth 14 ws 0)) (nth 15 ws 0)) :: ws.

Definition schedule (block : list N) : list N :=
  rev (Nat.iter 48 next_word (rev block)).

Definition round (st : state) (kw : N * N) : state :=
  let '(a, b, c, d, e, f, g, h) := st in
  let t1 := add (add (add h (bsig1 e)) (add (ch e f g) kw.1)) kw.2 in
  let t2 := add (bsig0 a) (maj a b c) in
  (add t1 t2, a, b, c, add d t1, e, f, g).

Definition compress (st : state) (block : list N) : state :=
  let '(a, b, c, d, e, f, g, h) := st in
  let '(a', b', c', d', e', f', g', h') :=
    fold_left round (combine K (schedule block)) st in
  (add a a', add b b', add c c', add d d', add e e', add f f', add g g', add h h').

Fixpoint words (bs : list N) : list N :=
  match bs with
  | b0 :: b1 :: b2 :: b3 :: rest =>
      N.lor (N.lor (N.shiftl b0 24) (N.shiftl b1 16)) (N.lor (N.shiftl b2 8) b3)
      :: words rest
  | _ => []
  end.

Definition be_bytes (n : nat) (x : N) : list N :=
  map (fun i => N.shiftr x (8 * N.of_nat i) mod 256) (rev (seq 0 n)).

Definition pad (m : bytes) : list N :=
  let l := length m in
  map Byte.to_N m ++ [128] ++ repeat 0 ((119 - l mod 64) mod 64)%nat
    ++ be_bytes 8 (8 * N.of_nat l).

Fixpoint process (fuel : nat) (ws : list N) (st : state) : state :=
  match fuel, ws with
  | S fuel', _ :: _ => process fuel' (drop 16 ws) (compress st (take 16 ws))
  | _, _ => st
  end.

Definition to_byte (x : N) : byte := default x00 (Byte.of_N x).

Definition sha256 (m : bytes) : bytes :=
  let ws := words (pad m) in
  let '(a, b, c, d, e, f, g, h) := process (length ws) ws initial in
  map to_byte (flat_map (be_bytes 4) [a; b; c; d; e; f; g; h]).

Definition hex_digit (x : N) : ascii :=
  nth (N.to_nat x) (list_ascii_of_string "0123456789abcdef") "?"%char.

Definition hex (b : bytes) : string :=
  string_of_list_ascii
    (flat_map (fun x => [hex_digit (Byte.to_N x / 16); hex_digit (Byte.to_N x mod 16)]) b).

End SHA256.

(** ** Data model *)

Record location := {
  page_no : nat;                  (* "page" *)
  bbox : list nat;
  start : nat;
  end_ : nat
}.

(** A detected field, as built by [detect_pii]. *)
Record pii_field := {
  type : string;
  value : string;                 (* masked preview *)
  original_value : string;
  confidence : float;
  loc : location;                 (* "location" *)
  encrypted : bool;
  detection_method : string
}.

(** [{**field, "placeholder_id": .., "encrypted_value": .., "encrypted": True}] *)
Record encrypted_field := {
  ef_field : pii_field;           (* the keys of [field], "encrypted" overwritten *)
  placeholder_id : string;
  encrypted_value : string
}.

Definition set_encrypted (f : pii_field) (b : bool) : pii_field :=
  {| type := type f; value := value f; original_value := original_value f;
     confidence := confidence f; loc := loc f; encrypted := b;
     detection_method := detection_method f |}.

(** A value of [field_mapping]. *)
Record mapping_entry := {
  me_original_value : string;     (* "original_value" *)
  me_encrypted_value : string;    (* "encrypted_value" *)
  me_type : string;               (* "type" *)
  me_location : location          (* "location" *)
}.

Record encryption_metadata := {
  encrypted_fields : list encrypted_field;
  field_mapping : dict mapping_entry;
  salt : string;
  encryption_method : string
}.

(** ** encrypt.py *)

Section encrypt.
Variable L : Lib.

Definition fixed_salt_seed : bytes := list_byte_of_string "piiguardian_salt_2024".

Definition generate_key_from_passkey (passkey : string) (salt : option bytes)
  : bytes * bytes :=
  let salt :=
    match salt with
    | None => urlsafe_b64encode L fixed_salt_seed
    | Some s => s
    end in
  let key :=
    urlsafe_b64encode L (PBKDF2HMAC_derive L 32 salt 100000 (str_encode L passkey)) in
  (key, salt).

(** [Fernet(key)] *)
Definition Fernet (key : bytes) : result bytes :=
  if Fernet_key_ok L key then Ok key
  else Raised (ValueError "Fernet key must be 32 url-safe base64-encoded bytes.").

Definition make_placeholder_id (i : nat) : string :=
  "ENCRYPTED_FIELD_" +:+ format_03d (i + 1).

(** The body of the loop of [encrypt_pii_fields] from index [i] on;
    [ent j] is what the [j]-th call of [fernet.encrypt] draws. *)
Fixpoint encrypt_loop (fernet : bytes) (ent : nat -> nonce) (i : nat)
    (pii_fields : list pii_field)
    (encrypted_fields : list encrypted_field)
    (field_mapping : dict mapping_entry)
  : result (list encrypted_field * dict mapping_entry) :=
  match pii_fields with
  | [] => Ok (encrypted_fields, field_mapping)
  | field :: rest =>
      let placeholder_id := make_placeholder_id i in
      let token :=
        Fernet_encrypt L fernet (ent i) (str_encode L (original_value field)) in
      let* token_text := bytes_decode L (b64encode L token) in
      let encrypted_field :=
        {| ef_field := set_encrypted field true;
           placeholder_id := placeholder_id;
           encrypted_value := token_text |} in
      let entry :=
        {| me_original_value := original_value field;
           me_encrypted_value := encrypted_value encrypted_field;
           me_type := type field;
           me_location := loc field |} in
      encrypt_loop fernet ent (S i) rest
        (encrypted_fields ++ [encrypted_field])
        (dict_set field_mapping placeholder_id entry)
  end.

Definition encrypt_pii_fields (pii_fields : list pii_field) (passkey : string)
    (ent : nat -> nonce) : result encryption_metadata :=
  try_except
    (let '(key, salt) := generate_key_from_passkey passkey None in
     let* fernet := Fernet key in
     let* (encrypted_fields, field_mapping) :=
        encrypt_loop fernet ent 0 pii_fields [] [] in
     let* salt_text := bytes_decode L (b64encode L salt) in
     Ok {| encrypted_fields := encrypted_fields;
           field_mapping := field_mapping;
           salt := salt_text;
           encryption_method := "AES-256-Fernet" |})
    (fun e => Raised (Exception ("Failed to encrypt PII fields: " +:+ str L e))).

(** The body of the inner [try] of [decrypt_pii_fields]: one field. *)
Definition decrypt_entry (fernet : bytes) (field_data : mapping_entry)
  : result string :=
  let* encrypted_bytes := b64decode L (me_encrypted_value field_data) in
  let* plain := Fernet_decrypt L fernet encrypted_bytes in
  bytes_decode L plain.

Fixpoint decrypt_loop (fernet : bytes) (items : dict mapping_entry)
    (decrypted_mapping : dict string) : result (dict string) :=
  match items with
  | [] => Ok decrypted_mapping
  | (placeholder_id, field_data) :: rest =>
      let* decrypted_value :=
        try_except (decrypt_entry fernet field_data)
          (fun _ => Raised (ValueError "Invalid passkey or corrupted data")) in
      decrypt_loop fernet rest
        (dict_set decrypted_mapping placeholder_id decrypted_value)
  end.

Definition decrypt_pii_fields (encrypted_metadata : encryption_metadata)
    (passkey : string) : result (dict string) :=
  try_except
    (let* salt := b64decode L (salt encrypted_metadata) in
     let '(key, _) := generate_key_from_passkey passkey (Some salt) in
     let* fernet := Fernet key in
     decrypt_loop fernet (field_mapping encrypted_metadata) [])
    (fun e =>
       if str_contains "Invalid passkey" (str L e)
       then Raised (ValueError "Invalid passkey provided")
       else Raised (Exception ("Failed to decrypt PII fields: " +:+ str L e))).

Definition generate_placeholder_text (placeholder_id pii_type : string) : string :=
  "[" +:+ placeholder_id +:+ ":" +:+ pii_type +:+ "]".

Definition validate_passkey_strength (passkey : string) : bool :=
  if (String.length passkey <? 8)%nat then false else true.

End encrypt.

(** ** The file system and the document registry *)

Section world.
Variable L : Lib.

(** What a path holds: a PDF written by [fitz], or a metadata sidecar
    written by [json.dump]. *)
Inductive file :=
  | PdfFile (pdf_document : list (page L))
  | JsonFile (encryption_metadata : encryption_metadata).

(** A value of [documents_store]. *)
Record doc_record := {
  id : string;
  filename : string;
  original_path : string;
  status : string;
  detected_pii : option (list pii_field);
  encrypted_path : option string
}.

Record world := {
  fs : gmap string file;
  documents_store : gmap string doc_record
}.

(** Code that reads and writes the world and may raise.  The world an
    exception leaves behind is kept. *)
Definition M (A : Type) : Type := world -> result A * world.

Definition ret {A} (a : A) : M A := fun w => (Ok a, w).
Definition raise {A} (e : exn) : M A := fun w => (Raised e, w).
Definition lift {A} (r : result A) : M A := fun w => (r, w).

Definition mbind {A B} (c : M A) (k : A -> M B) : M B :=
  fun w =>
    match c w with
    | (Ok a, w') => k a w'
    | (Raised e, w') => (Raised e, w')
    end.

(** [try: body  except Exception as e: handler(e)] *)
Definition try_except_M {A} (body : M A) (handler : exn -> M A) : M A :=
  fun w =>
    match body w with
    | (Ok a, w') => (Ok a, w')
    | (Raised e, w') => handler e w'
    end.

(** [try: body  except ValueError as e: h1(e)  except Exception as e: h2(e)] *)
Definition try_except2_M {A} (body : M A) (h1 h2 : exn -> M A) : M A :=
  try_except_M body (fun e => if is_ValueError e then h1 e else h2 e).

Definition write_file (path : string) (f : file) : M unit :=
  fun w => (Ok tt, {| fs := <[path := f]> (fs w);
                      documents_store := documents_store w |}).

Definition path_exists (path : string) : M bool :=
  fun w => (Ok (bool_decide (is_Some (fs w !! path))), w).

(** [fitz.open(path)] *)
Definition fitz_open (path : string) : M (list (page L)) :=
  fun w =>
    match fs w !! path with
    | Some (PdfFile pdf_document) => (Ok pdf_document, w)
    | _ => (Raised (fitz_open_error L path), w)
    end.

(** [with open(path, 'r') as f: json.load(f)] *)
Definition json_load (path : string) : M encryption_metadata :=
  fun w =>
    match fs w !! path with
    | Some (JsonFile md) => (Ok md, w)
    | Some (PdfFile _) => (Raised (json_load_error L path), w)
    | None =>
        (Raised (FileNotFoundError
                   ("[Errno 2] No such file or directory: '" +:+ path +:+ "'")), w)
    end.

(** [documents_store[document_id] = doc] *)
Definition store_doc (document_id : string) (doc : doc_record) : M unit :=
  fun w => (Ok tt, {| fs := fs w;
                      documents_store := <[document_id := doc]> (documents_store w) |}).

Definition lookup_doc (document_id : string) : M (option doc_record) :=
  fun w => (Ok (documents_store w !! document_id), w).
End world.

Arguments PdfFile {L} pdf_document.
Arguments JsonFile {L} encryption_metadata.
Arguments ret {L A} a.
Arguments raise {L A} e.
Arguments lift {L A} r.
Arguments mbind {L A B} c k.
Arguments try_except_M {L A} body handler.
Arguments try_except2_M {L A} body h1 h2.
Arguments write_file {L} path f.
Arguments path_exists {L} path.
Arguments json_load {L} path.
Arguments fitz_open {L} path.
Arguments store_doc {L} document_id doc.
Arguments lookup_doc {L} document_id.
Arguments fs {L} w.
Arguments documents_store {L} w.

Notation "'let!' x := c1 'in' c2" := (mbind c1 (fun x => c2))
  (at level 10, x pattern, c1 at level 100, c2 at level 200).

(** ** pdf_utils.py *)

Section pdf_utils.
Variable L : Lib.

(** The redaction annotations one page collects on the encrypt path: for
    every field, one per occurrence of its original value. *)
Definition placeholder_annots (pg : page L) (fields : list encrypted_field)
  : list (rect L * string) :=
  flat_map
    (fun field =>
       let original_value := original_value (ef_field field) in
       let placeholder_id := placeholder_id field in
       let placeholder_text :=
         generate_placeholder_text placeholder_id (type (ef_field field)) in
       map (fun inst => (inst, placeholder_text)) (search_for L pg original_value))
    fields.

Definition generate_encrypted_pdf (ent : nat -> nonce) (original_path : string)
    (pii_fields : list pii_field) (passkey : string) : M L string :=
  try_except_M
    (let! encryption_metadata := lift (encrypt_pii_fields L pii_fields passkey ent) in
     let! pdf_document := fitz_open original_path in
     let pdf_document :=
       map (fun pg =>
              apply_redactions L pg
                (placeholder_annots pg (encrypted_fields encryption_metadata)))
           pdf_document in
     let encrypted_filename := "encrypted_" +:+ path_stem L original_path +:+ ".pdf" in
     let encrypted_path := path_sibling L original_path encrypted_filename in
     let! _ := write_file encrypted_path (PdfFile pdf_document) in
     let! metadata_path := lift (path_with_suffix L encrypted_path ".json") in
     let! _ := write_file metadata_path (JsonFile encryption_metadata) in
     ret encrypted_path)
    (fun e => raise (Exception ("Failed to generate encrypted PDF: " +:+ str L e))).

(** The annotations of one page on the decrypt path;
    [encryption_metadata["field_mapping"][placeholder_id]] raises
    [KeyError] on a key that is not there. *)
Fixpoint restore_annots (pg : page L) (field_mapping : dict mapping_entry)
    (items : dict string) : result (list (rect L * string)) :=
  match items with
  | [] => Ok []
  | (placeholder_id, original_value) :: rest =>
      let* field_data :=
        match dict_get field_mapping placeholder_id with
        | Some fd => Ok fd
        | None => Raised (Exn CKeyError ("'" +:+ placeholder_id +:+ "'"))
        end in
      let placeholder_text :=
        generate_placeholder_text placeholder_id (me_type field_data) in
      let here :=
        map (fun inst => (inst, original_value)) (search_for L pg placeholder_text) in
      let* more := restore_annots pg field_mapping rest in
      Ok (here ++ more)%list
  end.

Fixpoint restore_pages (pages : list (page L)) (field_mapping : dict mapping_entry)
    (decrypted_mapping : dict string) : result (list (page L)) :=
  match pages with
  | [] => Ok []
  | pg :: rest =>
      let* annots := restore_annots pg field_mapping decrypted_mapping in
      let* rest' := restore_pages rest field_mapping decrypted_mapping in
      Ok (apply_redactions L pg annots :: rest')
  end.

Definition generate_decrypted_pdf (encrypted_path : string)
    (pii_fields : option (list pii_field)) (passkey : string) : M L string :=
  try_except2_M
    (let! metadata_path := lift (path_with_suffix L encrypted_path ".json") in
     let! present := path_exists metadata_path in
     let! _ :=
       if present : bool then ret tt
       else raise (FileNotFoundError "Encryption metadata not found") in
     let! encryption_metadata := json_load metadata_path in
     let! decrypted_mapping :=
       lift (decrypt_pii_fields L encryption_metadata passkey) in
     let! pdf_document := fitz_open encrypted_path in
     let! pdf_document :=
       lift (restore_pages pdf_document (field_mapping encryption_metadata)
               decrypted_mapping) in
     let decrypted_filename :=
       "decrypted_" +:+ str_replace L (path_stem L encrypted_path) "encrypted_" ""
       +:+ ".pdf" in
     let decrypted_path := path_sibling L encrypted_path decrypted_filename in
     let! _ := write_file decrypted_path (PdfFile pdf_document) in
     ret decrypted_path)
    (fun e =>
       if str_contains "Invalid passkey" (str L e)
       then raise (ValueError "Invalid passkey provided")
       else raise e)
    (fun e => raise (Exception ("Failed to generate decrypted PDF: " +:+ str L e))).

End pdf_utils.

(** ** main.py *)

Section main.
Variable L : Lib.

(** [FileResponse(path, filename=.., media_type=..)] *)
Record FileResponse := {
  fr_path : string;
  fr_filename : string;
  fr_media_type : string
}.

(** [not doc["detected_pii"]]: [None] and the empty list are falsy. *)
Definition no_detected_pii (d : option (list pii_field)) : bool :=
  match d with
  | None | Some [] => true
  | Some (_ :: _) => false
  end.

(** [not doc["encrypted_path"]]: [None] and the empty string are falsy. *)
Definition no_encrypted_path (p : option string) : bool :=
  match p with
  | None | Some "" => true
  | Some _ => false
  end.

Definition set_encrypted_path (doc : doc_record) (p : string) : doc_record :=
  {| id := id doc; filename := filename doc; original_path := original_path doc;
     status := status doc; detected_pii := detected_pii doc;
     encrypted_path := Some p |}.

Definition set_status (doc : doc_record) (s : string) : doc_record :=
  {| id := id doc; filename := filename doc; original_path := original_path doc;
     status := s; detected_pii := detected_pii doc;
     encrypted_path := encrypted_path doc |}.

(** [POST /api/encrypt] *)
Definition encrypt_document (ent : nat -> nonce) (document_id passkey : string)
  : M L FileResponse :=
  try_except_M
    (let! found := lookup_doc document_id in
     match found with
     | None => raise (HTTPException 404 "Document not found")
     | Some doc =>
         if no_detected_pii (detected_pii doc)
         then raise (HTTPException 400 "Document must be analyzed first")
         else if (String.length passkey <? 8)%nat
         then raise (HTTPException 400 "Passkey must be at least 8 characters")
         else
           let! encrypted_path :=
             generate_encrypted_pdf L ent (original_path doc)
               (default [] (detected_pii doc)) passkey in
           let doc := set_encrypted_path doc encrypted_path in
           let doc := set_status doc "encrypted" in
           let! _ := store_doc document_id doc in
           ret {| fr_path := encrypted_path;
                  fr_filename := "encrypted_" +:+ filename doc;
                  fr_media_type := "application/pdf" |}
     end)
    (fun e => raise (HTTPException 500 ("Encryption failed: " +:+ str L e))).

(** [POST /api/decrypt] *)
Definition decrypt_document (document_id passkey : string) : M L FileResponse :=
  try_except2_M
    (let! found := lookup_doc document_id in
     match found with
     | None => raise (HTTPException 404 "Document not found")
     | Some doc =>
         if no_encrypted_path (encrypted_path doc)
         then raise (HTTPException 404 "Encrypted document not found")
         else
           let! decrypted_path :=
             generate_decrypted_pdf L (default "" (encrypted_path doc))
               (detected_pii doc) passkey in
           let doc := set_status doc "decrypted" in
           let! _ := store_doc document_id doc in
           ret {| fr_path := decrypted_path;
                  fr_filename := "decrypted_" +:+ filename doc;
                  fr_media_type := "application/pdf" |}
     end)
    (fun e =>
       if str_contains "Invalid passkey" (str L e)
       then raise (HTTPException 401 "Invalid passkey")
       else raise (HTTPException 400 (str L e)))
    (fun e => raise (HTTPException 500 ("Decryption failed: " +:+ str L e))).

End main.

(** ** What a session is expected to produce

    Closed forms of the results of the loops above, used to state the
    properties below. *)

Section expected.
Variable L : Lib.

(** [base64.b64encode(x).decode()] *)
Definition b64text (x : bytes) : string :=
  match bytes_decode L (b64encode L x) with
  | Ok t => t
  | Raised _ => ""
  end.

(** The key of a session opened with [passkey]. *)
Definition session_key (passkey : string) : bytes :=
  (generate_key_from_passkey L passkey None).1.

(** The salt every session uses. *)
Definition session_salt : bytes := urlsafe_b64encode L fixed_salt_seed.

Definition ciphertext_of (key : bytes) (ent : nat -> nonce) (i : nat)
    (field : pii_field) : string :=
  b64text (Fernet_encrypt L key (ent i) (str_encode L (original_value field))).

Definition record_of (key : bytes) (ent : nat -> nonce) (i : nat)
    (field : pii_field) : encrypted_field :=
  {| ef_field := set_encrypted field true;
     placeholder_id := make_placeholder_id i;
     encrypted_value := ciphertext_of key ent i field |}.

Definition entry_of (key : bytes) (ent : nat -> nonce) (i : nat)
    (field : pii_field) : string * mapping_entry :=
  (make_placeholder_id i,
   {| me_original_value := original_value field;
      me_encrypted_value := ciphertext_of key ent i field;
      me_type := type field;
      me_location := loc field |}).

Definition metadata_of (pii_fields : list pii_field) (passkey : string)
    (ent : nat -> nonce) : encryption_metadata :=
  {| encrypted_fields := imap (record_of (session_key passkey) ent) pii_fields;
     field_mapping := imap (entry_of (session_key passkey) ent) pii_fields;
     salt := b64text session_salt;
     encryption_method := "AES-256-Fernet" |}.

(** Whether every entry of a mapping decrypts under [key], and what the
    loop of [decrypt_pii_fields] then builds. *)
Definition all_decrypt (key : bytes) (items : dict mapping_entry) : bool :=
  forallb (fun kv => is_ok (decrypt_entry L key kv.2)) items.

Definition entry_value (key : bytes) (e : mapping_entry) : string :=
  match decrypt_entry L key e with
  | Ok v => v
  | Raised _ => ""
  end.

Definition decrypted_of (key : bytes) (items : dict mapping_entry)
    (acc : dict string) : dict string :=
  foldl (fun acc kv => dict_set acc kv.1 (entry_value key kv.2)) acc items.

(** The strings a metadata value holds in the clear, that is, everywhere
    but under ["encrypted_value"]. *)
Definition entry_clear_strings (e : mapping_entry) : list string :=
  [me_original_value e; me_type e].

Definition record_clear_strings (r : encrypted_field) : list string :=
  [type (ef_field r); value (ef_field r); original_value (ef_field r);
   detection_method (ef_field r); placeholder_id r].

Definition metadata_clear_strings (md : encryption_metadata) : list string :=
  (flat_map record_clear_strings (encrypted_fields md) ++
   flat_map (fun kv => kv.1 :: entry_clear_strings kv.2) (field_mapping md) ++
   [salt md; encryption_method md])%list.

(** "The metadata contains no plaintext copy of any field's original
    value outside the ciphertext", for one call. *)
Definition no_plaintext_copy (pii_fields : list pii_field) (passkey : string)
    (ent : nat -> nonce) : Prop :=
  forall md, encrypt_pii_fields L pii_fields passkey ent = Ok md ->
  forall f, f ∈ pii_fields -> original_value f ∉ metadata_clear_strings md.

(** "Decrypting with any other passkey raises the authentication
    error", for one call. *)
Definition wrong_key_rejection (pii_fields : list pii_field)
    (passkey passkey' : string) (ent : nat -> nonce) : Prop :=
  pii_fields <> [] -> passkey <> passkey' ->
  forall md, encrypt_pii_fields L pii_fields passkey ent = Ok md ->
  decrypt_pii_fields L md passkey' = Raised (ValueError "Invalid passkey provided").

End expected.

(** ** An executable instance of the library interface

    Small stand-ins for the libraries, enough to run the code above on
    concrete inputs and to show that [LibLaws] and [KeyBinding] can be met
    together.  The codecs and base64 are the identity on byte strings; the
    key derivation keeps the HMAC key block (the password without its
    trailing zero bytes) followed by the salt; a token is the key, sixteen
    bytes of initialisation vector and the message. *)

Module Demo.

#[global] Instance byte_eq_dec : EqDecision byte := Byte.byte_eq_dec.

Fixpoint drop_zeros (l : bytes) : bytes :=
  match l with
  | x00 :: l' => drop_zeros l'
  | _ => l
  end.

(** The password as HMAC sees it. *)
Definition key_block (pw : bytes) : bytes := rev (drop_zeros (rev pw)).

Definition derive (n : nat) (salt : bytes) (iterations : N) (pw : bytes) : bytes :=
  take n (key_block pw ++ salt ++ replicate n x00)%list.

Definition iv16 (n : nonce) : bytes := take 16 (n.2 ++ replicate 16 x00)%list.

Definition encrypt (key : bytes) (n : nonce) (m : bytes) : bytes :=
  (key ++ iv16 n ++ m)%list.

Definition decrypt (key : bytes) (token : bytes) : result bytes :=
  if bool_decide (length key = 32 /\ take 32 token = key)
  then Ok (drop 48 token)
  else Raised (Exn CInvalidToken "").

(** [s] cut at the last occurrence of [c]: what precedes it and what
    follows it. *)
Fixpoint rsplit (c : ascii) (s : string) : option (string * string) :=
  match s with
  | "" => None
  | String a s' =>
      match rsplit c s' with
      | Some (l, r) => Some (String a l, r)
      | None => if decide (a = c) then Some ("", s') else None
      end
  end.

Definition parent_and_name (p : string) : string * string :=
  match rsplit "/" p with
  | Some (dir, name) => (dir +:+ "/", name)
  | None => ("", p)
  end.

Definition stem (p : string) : string :=
  let name := (parent_and_name p).2 in
  match rsplit "." name with
  | Some ("", _) | None => name
  | Some (st, _) => st
  end.

Definition sibling (p name : string) : string := (parent_and_name p).1 +:+ name.

Definition with_suffix (p suffix : string) : result string :=
  if decide ((parent_and_name p).2 = "")
  then Raised (ValueError (p +:+ " has an empty name"))
  else Ok (sibling p (stem p +:+ suffix)).

Fixpoint drop_str (n : nat) (s : string) : string :=
  match n, s with
  | S n', String _ s' => drop_str n' s'
  | _, _ => s
  end.

Fixpoint replace_fuel (fuel : nat) (s old new : string) : string :=
  match fuel, s with
  | S fuel', String a s' =>
      if String.prefix old s
      then new +:+ replace_fuel fuel' (drop_str (String.length old) s) old new
      else String a (replace_fuel fuel' s' old new)
  | _, _ => s
  end.

Definition replace (s old new : string) : string :=
  if decide (old = "") then s else replace_fuel (String.length s) s old new.

Definition lib : Lib := {|
  str_encode := list_byte_of_string;
  bytes_decode := fun b => Ok (string_of_list_byte b);
  b64encode := fun b => b;
  b64decode := fun t => Ok (list_byte_of_string t);
  urlsafe_b64encode := fun b => b;
  PBKDF2HMAC_derive := derive;
  Fernet_key_ok := fun key => bool_decide (length key = 32);
  Fernet_encrypt := encrypt;
  Fernet_decrypt := decrypt;
  HTTPException_str := fun status_code detail =>
    str_of_nat status_code +:+ ": " +:+ detail;
  str_replace := replace;
  path_stem := stem;
  path_sibling := sibling;
  path_with_suffix := with_suffix;
  page := string;
  rect := nat;
  search_for := fun _ _ => [];
  apply_redactions := fun pg _ => pg;
  fitz_open_error := fun p => Exn CRuntimeError ("cannot open " +:+ p);
  json_load_error := fun p => Exn CJSONDecodeError ("Expecting value: " +:+ p)
|}.

(** The same with the key derivation of the standards in place of the
    stand-in: PBKDF2 with HMAC-SHA256. *)
Definition lib_rfc : Lib := {|
  str_encode := str_encode lib;
  bytes_decode := bytes_decode lib;
  b64encode := b64encode lib;
  b64decode := b64decode lib;
  urlsafe_b64encode := urlsafe_b64encode lib;
  PBKDF2HMAC_derive := pbkdf2 SHA256.sha256;
  Fernet_key_ok := Fernet_key_ok lib;
  Fernet_encrypt := Fernet_encrypt lib;
  Fernet_decrypt := Fernet_decrypt lib;
  HTTPException_str := HTTPException_str lib;
  str_replace := str_replace lib;
  path_stem := path_stem lib;
  path_sibling := path_sibling lib;
  path_with_suffix := path_with_suffix lib;
  page := page lib;
  rect := rect lib;
  search_for := search_for lib;
  apply_redactions := apply_redactions lib;
  fitz_open_error := fitz_open_error lib;
  json_load_error := json_load_error lib
|}.

(** Sample data. *)
Definition ssn_field : pii_field := {|
  type := "Social Security Number";
  value := "***-**-6789";
  original_value := "123-45-6789";
  confidence := 0.75%float;
  loc := {| page_no := 1; bbox := [0; 0; 0; 0]; start := 10; end_ := 21 |};
  encrypted := false;
  detection_method := "regex_pattern"
|}.

Definition email_field : pii_field := {|
  type := "Email Address";
  value := "jo***@example.org";
  original_value := "john@example.org";
  confidence := 0.75%float;
  loc := {| page_no := 1; bbox := [0; 0; 0; 0]; start := 40; end_ := 56 |};
  encrypted := false;
  detection_method := "regex_pattern"
|}.

(** An entropy source: the [i]-th call reads the clock at [1700000000 + i]
    and draws sixteen bytes that start with [i]. *)
Definition ent (i : nat) : nonce :=
  ((1700000000 + N.of_nat i)%N,
   match Byte.of_nat i with Some b => [b] | None => [] end).

(** Another one, for a second session. *)
Definition ent' (i : nat) : nonce := ((1800000000 + N.of_nat i)%N, [xff]).

(** A passkey, and the same passkey followed by a NUL character. *)
Definition horse : string := "correct-horse".
Definition horse_nul : string := "correct-horse" +:+ String "000"%char "".

(** The metadata of a two-field session, and the same with the text of
    its second ciphertext overwritten. *)
Definition session2 : encryption_metadata :=
  metadata_of lib [ssn_field; email_field] horse ent.

Definition garbled : mapping_entry := {|
  me_original_value := "john@example.org";
  me_encrypted_value := "not a token";
  me_type := "Email Address";
  me_location := loc email_field
|}.

Definition tampered : encryption_metadata := {|
  encrypted_fields := encrypted_fields session2;
  field_mapping := dict_set (field_mapping session2) "ENCRYPTED_FIELD_002" garbled;
  salt := salt session2;
  encryption_method := encryption_method session2
|}.

(** A registry with one analysed and redacted document whose sidecar is
    missing from the file system. *)
Definition doc1 : doc_record := {|
  id := "1";
  filename := "report.pdf";
  original_path := "uploads/report.pdf";
  status := "encrypted";
  detected_pii := Some [ssn_field];
  encrypted_path := Some "uploads/encrypted_report.pdf"
|}.

Definition world1 : world lib := {|
  fs := {[ "uploads/report.pdf" := @PdfFile lib ["SSN 123-45-6789"];
           "uploads/encrypted_report.pdf" :=
             @PdfFile lib ["SSN [ENCRYPTED_FIELD_001:Social Security Number]"] ]};
  documents_store := {[ "1" := doc1 ]}
|}.

End Demo.

(** * More of the code *)

(** ** Notions the further properties speak of *)

(** The key and the ciphertext of every entry. *)
Definition ciphertexts (items : dict mapping_entry) : list (string * string) :=
  (fun kv => (kv.1, me_encrypted_value kv.2)) <$> items.

(** A string without a colon in it. *)
Definition no_colon (s : string) : Prop := ":"%char ∉ list_ascii_of_string s.

Section closed_forms.
Variable L : Lib.

(** Where [generate_encrypted_pdf] puts the redacted document. *)
Definition encrypted_path_of (original_path : string) : string :=
  path_sibling L original_path ("encrypted_" +:+ path_stem L original_path +:+ ".pdf").

(** Where [generate_decrypted_pdf] puts the restored document. *)
Definition decrypted_path_of (encrypted_path : string) : string :=
  path_sibling L encrypted_path
    ("decrypted_" +:+ str_replace L (path_stem L encrypted_path) "encrypted_" "" +:+ ".pdf").

(** The pages after the redactions of the encrypt path. *)
Definition redact_pages (md : encryption_metadata) (pages : list (page L))
  : list (page L) :=
  map (fun pg => apply_redactions L pg (placeholder_annots L pg (encrypted_fields md)))
    pages.

(** The registry entry of a document after [/api/encrypt]. *)
Definition redacted_record (doc : doc_record) (encrypted_path : string) : doc_record :=
  set_status (set_encrypted_path doc encrypted_path) "encrypted".

End closed_forms.

(** ** Further sample data *)

Module Samples.
Import Demo.

(** The metadata of [session2] with everything but the salt, the keys and
    the ciphertexts wiped. *)
Definition scrub_entry (kv : string * mapping_entry) : string * mapping_entry :=
  (kv.1, {| me_original_value := "";
            me_encrypted_value := me_encrypted_value kv.2;
            me_type := "";
            me_location := {| page_no := 0; bbox := []; start := 0; end_ := 0 |} |}).

Definition scrubbed : encryption_metadata := {|
  encrypted_fields := [];
  field_mapping := scrub_entry <$> field_mapping session2;
  salt := salt session2;
  encryption_method := ""
|}.

(** A base64 decoder that refuses text with a blank in it. *)
Definition strict_b64decode (t : string) : result bytes :=
  if existsb (fun a => bool_decide (a = " "%char)) (list_ascii_of_string t)
  then Raised (Exn CBinasciiError "Incorrect padding")
  else Ok (list_byte_of_string t).

Definition lib_strict : Lib := {|
  str_encode := str_encode lib;
  bytes_decode := bytes_decode lib;
  b64encode := b64encode lib;
  b64decode := strict_b64decode;
  urlsafe_b64encode := urlsafe_b64encode lib;
  PBKDF2HMAC_derive := PBKDF2HMAC_derive lib;
  Fernet_key_ok := Fernet_key_ok lib;
  Fernet_encrypt := Fernet_encrypt lib;
  Fernet_decrypt := Fernet_decrypt lib;
  HTTPException_str := HTTPException_str lib;
  str_replace := str_replace lib;
  path_stem := path_stem lib;
  path_sibling := path_sibling lib;
  path_with_suffix := path_with_suffix lib;
  page := page lib;
  rect := rect lib;
  search_for := search_for lib;
  apply_redactions := apply_redactions lib;
  fitz_open_error := fitz_open_error lib;
  json_load_error := json_load_error lib
|}.

Definition bad_salt : encryption_metadata := {|
  encrypted_fields := [];
  field_mapping := [];
  salt := "not base64";
  encryption_method := "AES-256-Fernet"
|}.

(** A registry with one analysed document that has not been redacted, one
    whose analysis found nothing, and the upload of the first. *)
Definition doc_analysed : doc_record := {|
  id := "1";
  filename := "report.pdf";
  original_path := "uploads/report.pdf";
  status := "analyzed";
  detected_pii := Some [ssn_field; email_field];
  encrypted_path := None
|}.

Definition doc_nothing_found : doc_record := {|
  id := "2";
  filename := "empty.pdf";
  original_path := "uploads/empty.pdf";
  status := "analyzed";
  detected_pii := Some [];
  encrypted_path := None
|}.

Definition world0 : world lib := {|
  fs := {[ "uploads/report.pdf" := @PdfFile lib ["SSN 123-45-6789"; "john@example.org"] ]};
  documents_store := {[ "1" := doc_analysed; "2" := doc_nothing_found ]}
|}.

(** A registry whose only document has lost its file. *)
Definition doc_lost : doc_record := {|
  id := "3";
  filename := "lost.pdf";
  original_path := "uploads/lost.pdf";
  status := "analyzed";
  detected_pii := Some [ssn_field];
  encrypted_path := None
|}.

Definition world_lost : world lib := {|
  fs := ∅;
  documents_store := {[ "3" := doc_lost ]}
|}.

(** A registry whose only document has a sidecar that is no JSON. *)
Definition doc_garbled : doc_record := {|
  id := "4";
  filename := "scan.pdf";
  original_path := "uploads/scan.pdf";
  status := "encrypted";
  detected_pii := Some [ssn_field];
  encrypted_path := Some "uploads/encrypted_scan.pdf"
|}.

Definition world_garbled : world lib := {|
  fs := {[ "uploads/encrypted_scan.pdf" := @PdfFile lib ["SSN [ENCRYPTED_FIELD_001:x]"];
           "uploads/encrypted_scan.json" := @PdfFile lib ["not json"] ]};
  documents_store := {[ "4" := doc_garbled ]}
|}.

(** The world after [/api/encrypt] on document 1. *)
Definition world_redacted : world lib :=
  (encrypt_document lib ent "1" horse world0).2.

End Samples.

(** ** pii_detection.py: the helpers of [detect_pii] *)

Set Warnings "-inexact-float".

Definition MIN_CONFIDENCE : float := 0.60%float.

Definition confidence_scores : dict float :=
  [("ssn", 0.95%float); ("phone", 0.85%float); ("email", 0.95%float);
   ("credit_card", 0.90%float); ("date_of_birth", 0.75%float);
   ("zip_code", 0.70%float); ("ip_address", 0.80%float);
   ("passport", 0.85%float); ("driver_license", 0.80%float)].

(** [confidence_scores.get(pii_type, 0.70)] *)
Definition _get_pattern_confidence (pii_type : string) : float :=
  default 0.70%float (dict_get confidence_scores pii_type).

Set Warnings "+inexact-float".

(** [pii["confidence"] >= MIN_CONFIDENCE], the comparison of IEEE 754. *)
Definition confident (pii : pii_field) : bool :=
  PrimFloat.leb MIN_CONFIDENCE (confidence pii).

(** [(pii["type"], pii["original_value"])] *)
Definition dedup_key (pii : pii_field) : string * string :=
  (type pii, original_value pii).

(** The loop of [_filter_and_deduplicate_pii]. *)
Fixpoint dedup_loop (filtered : list pii_field) (seen : gset (string * string))
    (deduplicated : list pii_field) : list pii_field :=
  match filtered with
  | [] => deduplicated
  | pii :: rest =>
      let key := dedup_key pii in
      if decide (key ∈ seen)
      then dedup_loop rest seen deduplicated
      else dedup_loop rest ({[key]} ∪ seen) (deduplicated ++ [pii])
  end.

Definition _filter_and_deduplicate_pii (pii_list : list pii_field) : list pii_field :=
  let filtered := List.filter confident pii_list in
  dedup_loop filtered ∅ [].

(** [s[-k:]] and [s[:k]] *)
Definition str_last (k : nat) (s : string) : string :=
  substring (String.length s - k) k s.

Definition str_first (k : nat) (s : string) : string := substring 0 k s.

(** [s.split(sep, 1)] for a one-character separator: what precedes its
    first occurrence and what follows it, and [None] when [sep in s] is
    false. *)
Fixpoint split_once (sep : ascii) (s : string) : option (string * string) :=
  match s with
  | "" => None
  | String a s' =>
      if decide (a = sep) then Some ("", s')
      else match split_once sep s' with
           | Some (l, r) => Some (String a l, r)
           | None => None
           end
  end.

(** [x in [a, b]] *)
Definition one_of (x a b : string) : bool :=
  bool_decide (x = a) || bool_decide (x = b).

(** [_mask_value]; [None] is Python's [None], returned where an outer
    branch is taken and its inner test fails.  The e-mail branch makes the
    test ["@" in value] and the split in one step. *)
Definition _mask_value (value pii_type : string) : option string :=
  if one_of pii_type "ssn" "Social Security Number" then
    if (4 <=? String.length value)%nat
    then Some ("***-**-" +:+ str_last 4 value) else None
  else if one_of pii_type "phone" "Phone Number" then
    if (4 <=? String.length value)%nat
    then Some ("***-***-" +:+ str_last 4 value) else None
  else if one_of pii_type "email" "Email Address" then
    match split_once "@" value with
    | Some (username, domain) =>
        let masked_username :=
          if (2 <? String.length username)%nat
          then str_first 2 username +:+ "***" else "***" in
        Some (masked_username +:+ "@" +:+ domain)
    | None => None
    end
  else if one_of pii_type "credit_card" "Credit Card Number" then
    if (4 <=? String.length value)%nat
    then Some ("****-****-****-" +:+ str_last 4 value) else None
  else if (4 <? String.length value)%nat then
    Some (str_first 2 value +:+ "***" +:+ str_last 2 value)
  else Some "***".

Module Samples2.

Definition low_field : pii_field := {|
  type := "Date";
  value := "***";
  original_value := "May";
  confidence := 0.5%float;
  loc := {| page_no := 1; bbox := [0; 0; 0; 0]; start := 0; end_ := 3 |};
  encrypted := false;
  detection_method := "spacy_ner"
|}.

(** The same value and type as [Demo.ssn_field], found a second time. *)
Definition ssn_again : pii_field := {|
  type := "Social Security Number";
  value := "***-**-6789";
  original_value := "123-45-6789";
  confidence := 0.75%float;
  loc := {| page_no := 1; bbox := [0; 0; 0; 0]; start := 90; end_ := 101 |};
  encrypted := false;
  detection_method := "regex_pattern"
|}.

(** A ZIP code found by its pattern, with the lowest score of the table. *)
Definition zip_field : pii_field := {|
  type := "ZIP Code";
  value := "94***05";
  original_value := "94305";
  confidence := _get_pattern_confidence "zip_code";
  loc := {| page_no := 1; bbox := [0; 0; 0; 0]; start := 120; end_ := 125 |};
  encrypted := false;
  detection_method := "regex_pattern"
|}.

End Samples2.

(** ** Python strings, continued

    A character is a code point below 256.  On those [str.lower] changes
    the letters A to Z and the capital letters of Latin-1, and
    [str.isspace] holds of the twelve characters listed. *)

Definition lower_char (c : ascii) : ascii :=
  let n := nat_of_ascii c in
  if ((65 <=? n) && (n <=? 90) || (192 <=? n) && (n <=? 214) ||
      (216 <=? n) && (n <=? 222))%nat
  then ascii_of_nat (n + 32) else c.

Fixpoint str_lower (s : string) : string :=
  match s with
  | "" => ""
  | String c s' => String (lower_char c) (str_lower s')
  end.

(** [s.endswith(suffix)] *)
Definition str_endswith (s suffix : string) : bool :=
  bool_decide (str_last (String.length suffix) s = suffix).

Definition isspace (c : ascii) : bool :=
  let n := nat_of_ascii c in
  ((9 <=? n) && (n <=? 13) || (28 <=? n) && (n <=? 32) ||
   (n =? 133) || (n =? 160))%nat.

Fixpoint lstrip (s : string) : string :=
  match s with
  | "" => ""
  | String c s' => if isspace c then lstrip s' else s
  end.

Fixpoint rstrip (s : string) : string :=
  match s with
  | "" => ""
  | String c s' =>
      match rstrip s' with
      | "" => if isspace c then "" else String c ""
      | r => String c r
      end
  end.

(** [s.strip()] *)
Definition str_strip (s : string) : string := rstrip (lstrip s).

(** The truth value of a string. *)
Definition truthy (s : string) : bool := negb (bool_decide (s = "")).

Definition newline : string := String "010"%char "".

(** ** The rest of the environment

    What the remaining code reads from PyMuPDF, PyPDF2, pathlib and from
    the detectors behind [detect_pii]. *)
Record TextLib (L : Lib) := {
  (** [page.get_text()] *)
  get_text : page L -> result string;
  (** [page.get_pixmap(matrix=mat).tobytes("ppm")] *)
  get_pixmap_ppm : page L -> result bytes;
  (** PyPDF2's [page.extract_text()] *)
  extract_text : page L -> result string;
  (** What [open(path, 'rb')] or [PdfReader] raises where [path] holds no
      PDF. *)
  pdf_reader_error : string -> exn;
  (** The list [detected_pii] as the two loops of [detect_pii] over the
      entities of spaCy and the matches of [PII_PATTERNS] have built it,
      or what they raise. *)
  found_pii : string -> result (list pii_field);
  (** [str(UPLOAD_DIR / filename)] *)
  upload_path : string -> string;
  (** [Path(p).name] *)
  path_name : string -> string
}.
Arguments get_text {L} _ _.
Arguments get_pixmap_ppm {L} _ _.
Arguments extract_text {L} _ _.
Arguments pdf_reader_error {L} _ _.
Arguments found_pii {L} _ _.
Arguments upload_path {L} _ _.
Arguments path_name {L} _ _.

(** [NameError] is an [Exception] and no [ValueError]; the code below only
    catches it as [Exception] and reads its [str]. *)
Definition NameError (msg : string) : exn := Exn CException msg.

Definition set_detected_pii (doc : doc_record) (d : list pii_field) : doc_record :=
  {| id := id doc; filename := filename doc; original_path := original_path doc;
     status := status doc; detected_pii := Some d;
     encrypted_path := encrypted_path doc |}.

Section more_code.
Variable L : Lib.
Variable T : TextLib L.

(** *** pii_detection.py, [detect_pii] *)

Definition detect_pii (text file_path : string) : result (list pii_field) :=
  try_except
    (let* detected_pii := found_pii T text in
     let filtered_pii := _filter_and_deduplicate_pii detected_pii in
     Ok filtered_pii)
    (fun e => Raised (Exception ("Failed to detect PII: " +:+ str L e))).

(** *** ocr.py *)

(** What [process_ocr] appends for a page with text. *)
Definition page_block (page_num : nat) (text : string) : string :=
  newline +:+ "--- Page " +:+ str_of_nat (page_num + 1) +:+ " ---" +:+ newline
  +:+ text +:+ newline.

(** The loop of [process_ocr] from page [page_num] on.  On a page without
    text the image is rendered, and the next statement names the module
    [io], which ocr.py does not import: what follows it is never run. *)
Fixpoint ocr_pages (pdf_document : list (page L)) (page_num : nat)
    (extracted_text : string) : result string :=
  match pdf_document with
  | [] => Ok extracted_text
  | pg :: rest =>
      let* text := get_text T pg in
      if truthy (str_strip text)
      then ocr_pages rest (S page_num) (extracted_text +:+ page_block page_num text)
      else
        let* img_data := get_pixmap_ppm T pg in
        Raised (NameError "name 'io' is not defined")
  end.

Definition process_ocr (file_path : string) : M L string :=
  try_except_M
    (let! pdf_document := fitz_open file_path in
     let! extracted_text := lift (ocr_pages pdf_document 0 "") in
     ret extracted_text)
    (fun e => raise (Exception ("Failed to extract text from PDF: " +:+ str L e))).

(** *** pdf_utils.py, [create_redacted_pdf_simple] *)

(** [with open(path, 'rb') as file: PdfReader(file).pages] *)
Definition pdf_reader (path : string) : M L (list (page L)) :=
  fun w =>
    match fs w !! path with
    | Some (PdfFile pages) => (Ok pages, w)
    | _ => (Raised (pdf_reader_error T path), w)
    end.

(** The loop over the pages; [writer] is the list of the pages added. *)
Fixpoint simple_pages (pages : list (page L)) (replacements : dict string)
    (writer : list (page L)) : result (list (page L)) :=
  match pages with
  | [] => Ok writer
  | pg :: rest =>
      let* content := extract_text T pg in
      let content :=
        fold_left (fun content kv => str_replace L content kv.1 kv.2)
                  replacements content in
      simple_pages rest replacements (writer ++ [pg])
  end.

Definition create_redacted_pdf_simple (original_path : string)
    (replacements : dict string) : M L string :=
  try_except_M
    (let! pages := pdf_reader original_path in
     let! writer := lift (simple_pages pages replacements []) in
     let redacted_filename := "redacted_" +:+ path_name T original_path in
     let redacted_path := path_sibling L original_path redacted_filename in
     let! _ := write_file redacted_path (PdfFile writer) in
     ret redacted_path)
    (fun e => raise (Exception ("Failed to create redacted PDF: " +:+ str L e))).

(** *** main.py, [upload_document] and [analyze_document] *)

(** [len(documents_store)] *)
Definition store_len : M L nat :=
  fun w => (Ok (size (documents_store w)), w).

(** [POST /api/upload] for a part with the file name [filename] and the
    content [content]. *)
Definition upload_document (filename : string) (content : file L) : M L doc_record :=
  try_except_M
    (if negb (str_endswith (str_lower filename) ".pdf")
     then raise (HTTPException 400 "Only PDF files are supported")
     else
       let file_path := upload_path T filename in
       let! _ := write_file file_path content in
       let! n := store_len in
       let doc_id := str_of_nat (n + 1) in
       let doc_record := {|
         id := doc_id;
         filename := filename;
         original_path := file_path;
         status := "uploaded";
         detected_pii := None;
         encrypted_path := None
       |} in
       let! _ := store_doc doc_id doc_record in
       ret doc_record)
    (fun e => raise (HTTPException 500 ("Upload failed: " +:+ str L e))).

(** [POST /api/analyze/{document_id}]; the answer is the record and the
    list of the fields found. *)
Definition analyze_document (document_id : string)
  : M L (doc_record * list pii_field) :=
  try_except_M
    (let! found := lookup_doc document_id in
     match found with
     | None => raise (HTTPException 404 "Document not found")
     | Some doc =>
         let doc := set_status doc "processing" in
         let! _ := store_doc document_id doc in
         let! extracted_text := process_ocr (original_path doc) in
         let! detected_pii :=
           lift (detect_pii extracted_text (original_path doc)) in
         let doc := set_status (set_detected_pii doc detected_pii) "analyzed" in
         let! _ := store_doc document_id doc in
         ret (doc, detected_pii)
     end)
    (fun e =>
       let! found := lookup_doc document_id in
       let! _ :=
         match found with
         | Some doc => store_doc document_id (set_status doc "error")
         | None => ret tt
         end in
       raise (HTTPException 500 ("Analysis failed: " +:+ str L e))).

(** *** Notions the properties of this code speak of *)

(** The text [process_ocr] gives for pages with the texts [texts], the
    first of which is page [page_num]. *)
Fixpoint text_of_pages (page_num : nat) (texts : list string) : string :=
  match texts with
  | [] => ""
  | text :: rest => page_block page_num text +:+ text_of_pages (S page_num) rest
  end.

(** A page that has text of its own. *)
Definition text_page (pg : page L) (text : string) : Prop :=
  get_text T pg = Ok text /\ exists c, c ∈ list_ascii_of_string text /\ isspace c = false.

(** The identifiers of the registry are the numerals from 1 to its size. *)
Definition registry_ok (w : world L) : Prop :=
  forall k, is_Some (documents_store w !! k) <->
            exists i, (1 <= i <= size (documents_store w))%nat /\ k = str_of_nat i.

(** A computation that leaves the registry as it is. *)
Definition keeps_store {A} (c : M L A) : Prop :=
  forall w, documents_store (c w).2 = documents_store w.

(** A handler stores at most a new version of a record that is there. *)
Definition updates_record (document_id : string) (w w' : world L) : Prop :=
  documents_store w' = documents_store w \/
  exists d, is_Some (documents_store w !! document_id) /\
            documents_store w' = <[document_id := d]> (documents_store w).

End more_code.

Arguments detect_pii {L} T text file_path.
Arguments page_block page_num text : simpl never.
Arguments ocr_pages {L} T pdf_document page_num extracted_text.
Arguments process_ocr {L} T file_path.
Arguments pdf_reader {L} T path.
Arguments simple_pages {L} T pages replacements writer.
Arguments create_redacted_pdf_simple {L} T original_path replacements.
Arguments store_len {L}.
Arguments upload_document {L} T filename content.
Arguments analyze_document {L} T document_id.
Arguments text_page {L} T pg text.
Arguments registry_ok {L} w.
Arguments keeps_store {L A} c.
Arguments updates_record {L} document_id w w'.

Module Samples3.
Import Demo Samples Samples2.

(** Stand-ins for the readers: a page is its text, a text of the sample
    report is searched for its two values. *)
Definition text_lib : TextLib lib := {|
  get_text := fun pg : page lib => Ok (pg : string);
  get_pixmap_ppm := fun _ => Ok [];
  extract_text := fun pg : page lib => Ok (pg : string);
  pdf_reader_error := fun p => Exn CException ("cannot read " +:+ p);
  found_pii := fun text =>
    Ok ((if str_contains "123-45-6789" text then [ssn_field; ssn_again] else []) ++
        (if str_contains "john@example.org" text then [email_field] else []) ++
        (if str_contains "May" text then [low_field] else []));
  upload_path := fun filename => "uploads/" +:+ filename;
  path_name := fun p => (parent_and_name p).2
|}.

(** An upload of a scan: its second page has no text. *)
Definition doc_scan : doc_record := {|
  id := "1";
  filename := "scan.pdf";
  original_path := "uploads/scan.pdf";
  status := "uploaded";
  detected_pii := None;
  encrypted_path := None
|}.

Definition world_scan : world lib := {|
  fs := {[ "uploads/scan.pdf" := @PdfFile lib ["Page one"; "  "; "Page three"] ]};
  documents_store := {[ "1" := doc_scan ]}
|}.

(** An upload of the sample report. *)
Definition doc_uploaded : doc_record := {|
  id := "1";
  filename := "report.pdf";
  original_path := "uploads/report.pdf";
  status := "uploaded";
  detected_pii := None;
  encrypted_path := None
|}.

Definition world_uploaded : world lib := {|
  fs := {[ "uploads/report.pdf" := @PdfFile lib ["SSN 123-45-6789"; "john@example.org"] ]};
  documents_store := {[ "1" := doc_uploaded ]}
|}.

(** The world before any upload. *)
Definition world_empty : world lib := {| fs := ∅; documents_store := ∅ |}.

End Samples3.

(** * Properties *)

(** ** Results *)

Lemma bind_Ok {A B} (r : result A) (k : A -> result B) (b : B) :
  bind r k = Ok b -> exists a, r = Ok a /\ k a = Ok b.
Proof. destruct r as [a|e]; simpl; [eauto | discriminate]. Qed.

(** ** Placeholder identifiers *)

Example format_03d_7 : format_03d 7 = "007".
Proof. reflexivity. Qed.

Example format_03d_1000 : format_03d 1000 = "1000".
Proof. reflexivity. Qed.

Example first_placeholder_id : make_placeholder_id 0 = "ENCRYPTED_FIELD_001".
Proof. reflexivity. Qed.

Example placeholder_text_ssn :
  generate_placeholder_text "ENCRYPTED_FIELD_001" "Social Security Number"
  = "[ENCRYPTED_FIELD_001:Social Security Number]".
Proof. reflexivity. Qed.

Example inner_error_is_recognised :
  str_contains "Invalid passkey" "Invalid passkey or corrupted data" = true.
Proof. reflexivity. Qed.

Example padding_error_is_not :
  str_contains "Invalid passkey" "Incorrect padding" = false.
Proof. reflexivity. Qed.

Lemma nat_of_str_of_nat n : nat_of_str (str_of_nat n) = Some n.
Proof.
  unfold nat_of_str, str_of_nat.
  rewrite NilEmpty.usu. simpl. f_equal. apply Unsigned.of_to.
Qed.

Lemma nat_of_str_zeros k s : nat_of_str (zeros k +:+ s) = nat_of_str s.
Proof.
  induction k as [|k IH]; [reflexivity|].
  rewrite <- IH. unfold nat_of_str.
  change (zeros (S k) +:+ s) with (String "0" (zeros k +:+ s)).
  cbn [NilEmpty.uint_of_string].
  destruct (NilEmpty.uint_of_string (zeros k +:+ s)) as [d|]; reflexivity.
Qed.

Lemma nat_of_format_03d n : nat_of_str (format_03d n) = Some n.
Proof. unfold format_03d. rewrite nat_of_str_zeros. apply nat_of_str_of_nat. Qed.

#[global] Instance format_03d_inj : Inj eq eq format_03d.
Proof.
  intros n m H. apply (f_equal nat_of_str) in H.
  rewrite !nat_of_format_03d in H. congruence.
Qed.

#[global] Instance make_placeholder_id_inj : Inj eq eq make_placeholder_id.
Proof.
  intros i j H. unfold make_placeholder_id in H.
  apply String.app_inj in H. apply format_03d_inj in H. lia.
Qed.

Lemma placeholder_ids_NoDup i n :
  NoDup (make_placeholder_id <$> seq i n).
Proof. apply NoDup_fmap_2; [apply _ | apply NoDup_seq]. Qed.

(** ** The key padding of HMAC *)

Lemma hmac_key_block_nul H (password : bytes) :
  length password < 64 ->
  hmac_key_block H (password ++ [x00]) = hmac_key_block H password.
Proof.
  intros Hlen. unfold hmac_key_block. rewrite length_app. simpl.
  destruct (Nat.ltb_spec 64 (length password + 1)); [lia|].
  destruct (Nat.ltb_spec 64 (length password)); [lia|].
  rewrite <- app_assoc, !length_app. simpl. f_equal.
  replace (64 - length password) with (S (64 - (length password + 1))) by lia.
  reflexivity.
Qed.

(** The reference algorithm has the property [LibLaws] asks of the
    library, whatever the hash function. *)
Lemma pbkdf2_key_padding H n salt c (password : bytes) :
  length password < 64 ->
  pbkdf2 H n salt c (password ++ [x00]) = pbkdf2 H n salt c password.
Proof.
  intros Hlen. unfold pbkdf2, pbkdf2_block.
  by rewrite hmac_key_block_nul.
Qed.

(** The digest and the derived key have the lengths they should. *)
Lemma sha256_length m : length (SHA256.sha256 m) = 32.
Proof.
  unfold SHA256.sha256.
  destruct (SHA256.process _ _ _) as [[[[[[[a b] c] d] e] f] g] h].
  reflexivity.
Qed.

Lemma concat_length_const {A} (ls : list (list A)) k :
  Forall (fun l => length l = k) ls -> length (concat ls) = k * length ls.
Proof.
  induction 1 as [|l ls Hl _ IH]; simpl; [lia|].
  rewrite length_app, IH, Hl. lia.
Qed.

Lemma pbkdf2_block_length H (HH : forall m, length (H m) = 32) password salt c i :
  length (pbkdf2_block H password salt c i) = 32.
Proof.
  unfold pbkdf2_block.
  apply (N.iter_invariant (c - 1) _ _
           (fun ut : bytes * bytes => length ut.1 = 32 /\ length ut.2 = 32)).
  - intros [u t] [Hu Ht]. simpl in *. split; [apply HH|].
    rewrite length_zip_with, Ht. unfold hmac_with. rewrite HH. lia.
  - simpl. split; apply HH.
Qed.

Lemma pbkdf2_length H (HH : forall m, length (H m) = 32) n salt c password :
  length (pbkdf2 H n salt c password) = n.
Proof.
  unfold pbkdf2. rewrite length_take.
  rewrite (concat_length_const _ 32).
  - rewrite length_map, length_seq.
    pose proof (Nat.mul_succ_div_gt (n + 31) 32). lia.
  - apply Forall_forall. intros l Hl. apply list_elem_of_fmap in Hl as (i & -> & _).
    by apply pbkdf2_block_length.
Qed.

(** Two passwords, one key: PBKDF2 with HMAC-SHA256, the salt of the
    program and its 100000 iterations. *)
Example pbkdf2_trailing_nul :
  pbkdf2 SHA256.sha256 32 (list_byte_of_string "cGlpZ3VhcmRpYW5fc2FsdF8yMDI0") 100000
    (list_byte_of_string "correct-horse" ++ [x00])
  = pbkdf2 SHA256.sha256 32 (list_byte_of_string "cGlpZ3VhcmRpYW5fc2FsdF8yMDI0") 100000
      (list_byte_of_string "correct-horse").
Proof. apply pbkdf2_key_padding. vm_compute. lia. Qed.

(** Test vectors: the digest of ["abc"] (FIPS 180-4), and PBKDF2 with one
    and with two iterations, salt ["cGlpZ3VhcmRpYW5fc2FsdF8yMDI0"] and
    password ["correct-horse"]. *)
Example sha256_abc :
  SHA256.hex (SHA256.sha256 (list_byte_of_string "abc"))
  = "ba7816bf8f01cfea414140de5dae2223b00361a396177a9cb410ff61f20015ad".
Proof. vm_compute. reflexivity. Qed.

Example pbkdf2_one_iteration :
  SHA256.hex (pbkdf2 SHA256.sha256 32
                (list_byte_of_string "cGlpZ3VhcmRpYW5fc2FsdF8yMDI0") 1
                (list_byte_of_string "correct-horse"))
  = "34a817f9e1f88bef0b7a68d7ddca4d54f3c741ec0e86419ee11001b20145ca6c".
Proof. vm_compute. reflexivity. Qed.

Example pbkdf2_two_iterations :
  SHA256.hex (pbkdf2 SHA256.sha256 32
                (list_byte_of_string "cGlpZ3VhcmRpYW5fc2FsdF8yMDI0") 2
                (list_byte_of_string "correct-horse"))
  = "6da4d15adf6bb724528b0a361d3edbec93394e48c29f15aa53b504426e0da105".
Proof. vm_compute. reflexivity. Qed.

Example pbkdf2_40_bytes :
  SHA256.hex (pbkdf2 SHA256.sha256 40
                (list_byte_of_string "salt") 3
                (list_byte_of_string "password"))
  = "ad35240ac683febfaf3cd49d845473fbbbaa2437f5f82d5a415ae00ac76c6bfccf9a9b8d6d2fe4a1".
Proof. vm_compute. reflexivity. Qed.

(** ** Dictionaries *)

Section dict_facts.
Context {V : Type}.
Implicit Types (d : dict V) (k : string) (v : V).

Lemma dict_set_fresh d k v :
  k ∉ dict_keys d -> dict_set d k v = (d ++ [(k, v)])%list.
Proof.
  unfold dict_keys. induction d as [|[k' v'] d IH]; intros Hk; [reflexivity|].
  simpl in *. apply not_elem_of_cons in Hk as [Hne Hk].
  destruct (decide (k' = k)); [congruence|]. by rewrite IH.
Qed.

Lemma dict_keys_set d k v :
  forall k', k' ∈ dict_keys (dict_set d k v) <-> k' = k \/ k' ∈ dict_keys d.
Proof.
  unfold dict_keys. induction d as [|[k0 v0] d IH]; intros k'; simpl.
  - rewrite list_elem_of_singleton, elem_of_nil. tauto.
  - destruct (decide (k0 = k)) as [->|Hne]; simpl.
    + rewrite !elem_of_cons. tauto.
    + rewrite !elem_of_cons, IH. tauto.
Qed.

Lemma dict_get_set d k v k' :
  dict_get (dict_set d k v) k' = if decide (k = k') then Some v else dict_get d k'.
Proof.
  induction d as [|[k0 v0] d IH]; simpl.
  - reflexivity.
  - destruct (decide (k0 = k)) as [->|Hne]; simpl.
    + destruct (decide (k = k')); reflexivity.
    + destruct (decide (k0 = k')) as [->|]; [|apply IH].
      destruct (decide (k = k')); congruence.
Qed.

Lemma dict_get_Some_elem d k v : dict_get d k = Some v -> (k, v) ∈ d.
Proof.
  induction d as [|[k0 v0] d IH]; simpl; [discriminate|].
  destruct (decide (k0 = k)) as [->|]; [intros [= ->]; left | right; auto].
Qed.
End dict_facts.

(** ** The loop of [encrypt_pii_fields] *)

Section encrypt_facts.
Variable L : Lib.

Lemma b64text_eq x t : bytes_decode L (b64encode L x) = Ok t -> b64text L x = t.
Proof. unfold b64text. by intros ->. Qed.

Lemma b64text_decode (HL : LibLaws L) x :
  bytes_decode L (b64encode L x) = Ok (b64text L x) /\
  b64decode L (b64text L x) = Ok x.
Proof.
  destruct (b64_roundtrip L HL x) as (t & Ht & Hd).
  rewrite (b64text_eq _ _ Ht). auto.
Qed.

Lemma Fernet_Ok key fernet : Fernet L key = Ok fernet ->
  fernet = key /\ Fernet_key_ok L key = true.
Proof. unfold Fernet. destruct (Fernet_key_ok L key); [intros [= ->]; auto | discriminate]. Qed.

Lemma session_key_ok (HL : LibLaws L) passkey salt :
  Fernet_key_ok L (generate_key_from_passkey L passkey salt).1 = true.
Proof. simpl. apply (fernet_key L HL), (derive_length L HL). Qed.

(** Keys written before index [i] never clash with the one of index [i]. *)
Definition keys_below (i : nat) (fm : dict mapping_entry) : Prop :=
  forall k, k ∈ dict_keys fm -> exists j, j < i /\ k = make_placeholder_id j.

Lemma keys_below_fresh i fm : keys_below i fm -> make_placeholder_id i ∉ dict_keys fm.
Proof.
  intros Hb Hin. destruct (Hb _ Hin) as (j & Hj & Heq).
  apply make_placeholder_id_inj in Heq. lia.
Qed.

Lemma keys_below_snoc i fm e :
  keys_below i fm -> keys_below (S i) (fm ++ [(make_placeholder_id i, e)]).
Proof.
  intros Hb k. unfold dict_keys. rewrite fmap_app, elem_of_app. simpl.
  rewrite list_elem_of_singleton. intros [Hin | ->].
  - destruct (Hb _ Hin) as (j & Hj & ->). exists j. split; [lia | done].
  - exists i. split; [lia | done].
Qed.

Lemma encrypt_loop_Ok key ent pii_fields : forall i efs fm r,
  keys_below i fm ->
  encrypt_loop L key ent i pii_fields efs fm = Ok r ->
  r = ((efs ++ imap (fun j => record_of L key ent (i + j)) pii_fields)%list,
       (fm ++ imap (fun j => entry_of L key ent (i + j)) pii_fields)%list).
Proof.
  induction pii_fields as [|field rest IH]; intros i efs fm r Hb H.
  - simpl in H. injection H as <-. by rewrite !app_nil_r.
  - cbn [encrypt_loop] in H.
    apply bind_Ok in H as (t & Ht & H).
    apply b64text_eq in Ht.
    rewrite dict_set_fresh in H by (by apply keys_below_fresh).
    apply IH in H; [|by apply keys_below_snoc].
    subst r t. rewrite !imap_cons, <- !app_assoc, Nat.add_0_r.
    assert (Hshift : forall B (g : nat -> pii_field -> B),
               imap (fun j => g (S i + j)) rest = imap ((fun j => g (i + j)) ∘ S) rest).
    { intros B g. apply imap_ext. intros j f _. simpl. by rewrite Nat.add_succ_r. }
    by rewrite !Hshift.
Qed.

Lemma encrypt_loop_total (HL : LibLaws L) key ent pii_fields : forall i efs fm,
  exists r, encrypt_loop L key ent i pii_fields efs fm = Ok r.
Proof.
  induction pii_fields as [|field rest IH]; intros i efs fm; [by eexists|].
  cbn [encrypt_loop].
  destruct (b64text_decode HL
    (Fernet_encrypt L key (ent i) (str_encode L (original_value field)))) as [-> _].
  simpl. apply IH.
Qed.

Lemma imap_shift0 {A B} (f : nat -> A -> B) l : imap (fun j => f (0 + j)) l = imap f l.
Proof. by apply imap_ext. Qed.

(** What [encrypt_pii_fields] returns when it returns. *)
Lemma encrypt_pii_fields_Ok pii_fields passkey ent md :
  encrypt_pii_fields L pii_fields passkey ent = Ok md ->
  md = metadata_of L pii_fields passkey ent.
Proof.
  unfold encrypt_pii_fields, try_except.
  destruct (let '(key, salt) := generate_key_from_passkey L passkey None in _)
    as [md'|e] eqn:Hbody; [|discriminate].
  intros [= ->]. simpl in Hbody.
  apply bind_Ok in Hbody as (fernet & Hf & Hbody).
  apply Fernet_Ok in Hf as [-> Hok].
  apply bind_Ok in Hbody as ([efs fm] & Hloop & Hbody).
  apply encrypt_loop_Ok in Hloop; [|by intros k Hk; apply elem_of_nil in Hk].
  apply bind_Ok in Hbody as (t & Ht & [= <-]).
  apply b64text_eq in Ht. injection Hloop as -> ->. subst t.
  unfold metadata_of. simpl. by rewrite !imap_shift0.
Qed.

(** With libraries that keep their contracts it always returns. *)
Lemma encrypt_pii_fields_total (HL : LibLaws L) pii_fields passkey ent :
  encrypt_pii_fields L pii_fields passkey ent = Ok (metadata_of L pii_fields passkey ent).
Proof.
  assert (exists md, encrypt_pii_fields L pii_fields passkey ent = Ok md) as [md Hmd].
  { pose proof (session_key_ok HL passkey None) as Hk.
    destruct (encrypt_loop_total HL
      (generate_key_from_passkey L passkey None).1 ent pii_fields 0 [] [])
      as [[efs fm] Hloop].
    unfold encrypt_pii_fields, try_except, Fernet. simpl in *.
    rewrite Hk. simpl. rewrite Hloop. simpl.
    destruct (b64text_decode HL (urlsafe_b64encode L fixed_salt_seed)) as [-> _].
    simpl. by eexists. }
  rewrite Hmd. f_equal. by apply encrypt_pii_fields_Ok.
Qed.

Lemma metadata_keys pii_fields passkey ent :
  dict_keys (field_mapping (metadata_of L pii_fields passkey ent))
  = make_placeholder_id <$> seq 0 (length pii_fields).
Proof.
  unfold dict_keys, metadata_of. simpl.
  rewrite fmap_imap. unfold entry_of, compose. simpl.
  apply imap_seq_0.
Qed.

Lemma metadata_ids pii_fields passkey ent :
  placeholder_id <$> encrypted_fields (metadata_of L pii_fields passkey ent)
  = make_placeholder_id <$> seq 0 (length pii_fields).
Proof.
  unfold metadata_of. simpl.
  rewrite fmap_imap. unfold record_of, compose. simpl.
  apply imap_seq_0.
Qed.

End encrypt_facts.

(** ** The loop of [decrypt_pii_fields] *)

Section decrypt_facts.
Variable L : Lib.

Lemma decrypted_of_cons key k e rest acc :
  decrypted_of L key ((k, e) :: rest) acc
  = decrypted_of L key rest (dict_set acc k (entry_value L key e)).
Proof. reflexivity. Qed.

Lemma decrypt_loop_spec key items : forall acc,
  decrypt_loop L key items acc =
    if all_decrypt L key items then Ok (decrypted_of L key items acc)
    else Raised (ValueError "Invalid passkey or corrupted data").
Proof.
  induction items as [|[k e] rest IH]; intros acc; [reflexivity|].
  rewrite decrypted_of_cons. cbn [decrypt_loop all_decrypt forallb].
  unfold entry_value. simpl.
  destruct (decrypt_entry L key e) as [v|err]; simpl; [apply IH | reflexivity].
Qed.

(** Once the salt is read and the key accepted, the outcome is decided
    by the entries alone. *)
Lemma decrypt_pii_fields_spec md passkey s :
  b64decode L (salt md) = Ok s ->
  Fernet_key_ok L (generate_key_from_passkey L passkey (Some s)).1 = true ->
  decrypt_pii_fields L md passkey =
    if all_decrypt L (generate_key_from_passkey L passkey (Some s)).1 (field_mapping md)
    then Ok (decrypted_of L (generate_key_from_passkey L passkey (Some s)).1
               (field_mapping md) [])
    else Raised (ValueError "Invalid passkey provided").
Proof.
  intros Hs Hk. unfold decrypt_pii_fields. rewrite Hs. simpl in *.
  unfold Fernet. rewrite Hk. simpl. rewrite decrypt_loop_spec.
  match goal with |- context [all_decrypt ?l ?k ?m] => destruct (all_decrypt l k m) end;
    reflexivity.
Qed.

(** It returns only if the salt could be read. *)
Lemma decrypt_pii_fields_Ok_salt md passkey m :
  decrypt_pii_fields L md passkey = Ok m -> exists s, b64decode L (salt md) = Ok s.
Proof.
  unfold decrypt_pii_fields. destruct (b64decode L (salt md)) as [s|e]; [by eexists|].
  simpl. by destruct (str_contains _ _).
Qed.

Lemma all_decrypt_true key items :
  all_decrypt L key items = true <->
  forall k e, (k, e) ∈ items -> is_ok (decrypt_entry L key e) = true.
Proof.
  unfold all_decrypt. rewrite forallb_forall. split.
  - intros H k e Hin. apply list_elem_of_In in Hin. apply (H _ Hin).
  - intros H [k e] Hin. apply list_elem_of_In in Hin. apply (H _ _ Hin).
Qed.

Lemma all_decrypt_false key items k e :
  (k, e) ∈ items -> is_ok (decrypt_entry L key e) = false ->
  all_decrypt L key items = false.
Proof.
  intros Hin Hbad. destruct (all_decrypt L key items) eqn:Hall; [|reflexivity].
  rewrite all_decrypt_true in Hall. rewrite (Hall _ _ Hin) in Hbad. discriminate.
Qed.

Lemma decrypted_of_keys key items : forall acc k,
  k ∈ dict_keys (decrypted_of L key items acc) <->
  k ∈ dict_keys acc \/ k ∈ dict_keys items.
Proof.
  induction items as [|[k0 e0] rest IH]; intros acc k.
  - change (dict_keys (@nil (string * mapping_entry))) with (@nil string).
    simpl. rewrite elem_of_nil. tauto.
  - rewrite decrypted_of_cons, IH, dict_keys_set.
    change (dict_keys ((k0, e0) :: rest)) with (k0 :: dict_keys rest).
    rewrite elem_of_cons. simpl. tauto.
Qed.

Lemma decrypted_of_get key items : forall acc k v,
  dict_get (decrypted_of L key items acc) k = Some v ->
  dict_get acc k = Some v \/ exists e, (k, e) ∈ items /\ entry_value L key e = v.
Proof.
  induction items as [|[k0 e0] rest IH]; intros acc k v H; [by left|].
  rewrite decrypted_of_cons in H.
  apply IH in H as [H | (e & Hin & He)].
  - rewrite dict_get_set in H. simpl in H.
    destruct (decide (k0 = k)) as [->|]; [|by left].
    right. exists e0. split; [left | congruence].
  - right. exists e. split; [by right | done].
Qed.

Lemma decrypted_of_fresh key items : forall acc,
  NoDup (dict_keys acc ++ dict_keys items) ->
  decrypted_of L key items acc
  = acc ++ ((fun kv => (kv.1, entry_value L key kv.2)) <$> items).
Proof.
  induction items as [|[k0 e0] rest IH]; intros acc Hnd.
  - simpl. by rewrite app_nil_r.
  - rewrite decrypted_of_cons.
    unfold dict_keys in Hnd. simpl in Hnd.
    apply NoDup_app in Hnd as (Hacc & Hdisj & Hrest).
    apply NoDup_cons in Hrest as [Hk0 Hrest].
    rewrite dict_set_fresh.
    2:{ intros Hin. apply (Hdisj _ Hin). left. }
    rewrite IH.
    + by rewrite <- app_assoc.
    + unfold dict_keys. rewrite fmap_app. simpl.
      apply NoDup_app. split_and!.
      * apply NoDup_app. split_and!; [done | | apply NoDup_singleton].
        intros x Hx Hx'. apply list_elem_of_singleton in Hx' as ->.
        apply (Hdisj _ Hx). left.
      * intros x Hx Hx'. apply elem_of_app in Hx as [Hx | Hx].
        -- apply (Hdisj _ Hx). by right.
        -- apply list_elem_of_singleton in Hx as ->. done.
      * done.
Qed.

(** An entry made by a session decrypts, under the session key, to the
    original value. *)
Lemma decrypt_entry_of (HL : LibLaws L) key ent i f :
  Fernet_key_ok L key = true ->
  decrypt_entry L key (entry_of L key ent i f).2 = Ok (original_value f).
Proof.
  intros Hk. unfold decrypt_entry, entry_of, ciphertext_of. simpl.
  destruct (b64text_decode L HL
    (Fernet_encrypt L key (ent i) (str_encode L (original_value f)))) as [_ ->].
  simpl. rewrite (fernet_correct L HL) by done. simpl.
  apply (decode_encode L HL).
Qed.

Lemma all_decrypt_session (HL : LibLaws L) key ent pii_fields :
  Fernet_key_ok L key = true ->
  all_decrypt L key (imap (entry_of L key ent) pii_fields) = true.
Proof.
  intros Hk. apply all_decrypt_true. intros k e Hin.
  apply elem_of_lookup_imap in Hin as (i & f & Heq & _).
  pose proof (decrypt_entry_of HL key ent i f Hk) as Hd.
  rewrite <- Heq in Hd. simpl in Hd. by rewrite Hd.
Qed.

Lemma decrypted_of_session (HL : LibLaws L) key ent pii_fields :
  Fernet_key_ok L key = true ->
  decrypted_of L key (imap (entry_of L key ent) pii_fields) []
  = imap (fun i f => (make_placeholder_id i, original_value f)) pii_fields.
Proof.
  intros Hk. rewrite decrypted_of_fresh.
  - simpl. rewrite fmap_imap. apply imap_ext. intros i f _. simpl.
    unfold entry_value.
    pose proof (decrypt_entry_of HL key ent i f Hk) as Hd. simpl in Hd.
    by rewrite Hd.
  - simpl. unfold dict_keys. rewrite fmap_imap.
    unfold entry_of, compose. simpl. rewrite imap_seq_0.
    apply placeholder_ids_NoDup.
Qed.

End decrypt_facts.

(** ** The executable instance keeps the contracts *)

Section demo_facts.
Import Demo.

Lemma iv16_length n : length (iv16 n) = 16.
Proof.
  unfold iv16. rewrite length_take, length_app, length_replicate. lia.
Qed.

Lemma demo_take_key (key : bytes) n m :
  length key = 32 -> take 32 (encrypt key n m) = key.
Proof. intros Hk. unfold encrypt. by apply take_app_length'. Qed.

Lemma demo_drop_key (key : bytes) n m :
  length key = 32 -> drop 48 (encrypt key n m) = m.
Proof.
  intros Hk. unfold encrypt.
  change 48 with (32 + 16). rewrite drop_app_add' by done.
  apply drop_app_length'. by rewrite iv16_length.
Qed.

Lemma demo_lib_laws : LibLaws lib.
Proof.
  split; simpl.
  - intros s. by rewrite string_of_list_byte_of_string.
  - intros x. exists (string_of_list_byte x).
    by rewrite list_byte_of_string_of_list_byte.
  - intros n salt it pw. unfold derive.
    rewrite length_take, !length_app, length_replicate. lia.
  - intros n salt it pw _. unfold derive, key_block.
    by rewrite rev_unit.
  - intros raw Hraw. by apply bool_decide_eq_true.
  - intros key n m Hk. apply bool_decide_eq_true in Hk.
    unfold decrypt. rewrite bool_decide_true.
    + by rewrite demo_drop_key.
    + split; [done | by apply demo_take_key].
Qed.

Lemma demo_lib_rfc_laws : LibLaws lib_rfc.
Proof.
  destruct demo_lib_laws as [Hde Hb64 _ _ Hkey Hfernet].
  split.
  - exact Hde.
  - exact Hb64.
  - intros n salt it pw. apply pbkdf2_length, sha256_length.
  - intros n salt it pw Hlen. by apply pbkdf2_key_padding.
  - exact Hkey.
  - exact Hfernet.
Qed.

Lemma demo_lib_key_binding : KeyBinding lib.
Proof.
  intros key key' n m Hk Hk' Hne. simpl in *.
  apply bool_decide_eq_true in Hk. unfold decrypt.
  rewrite bool_decide_false; [reflexivity|].
  intros [_ Htake]. rewrite demo_take_key in Htake by done. done.
Qed.

End demo_facts.

(** ** Salt and key of a session *)

Section session_facts.
Variable L : Lib.

Lemma session_salt_decodes (HL : LibLaws L) pii_fields passkey ent :
  b64decode L (salt (metadata_of L pii_fields passkey ent)) = Ok (session_salt L).
Proof. simpl. apply (b64text_decode L HL). Qed.

Lemma session_key_eq passkey :
  (generate_key_from_passkey L passkey (Some (session_salt L))).1 = session_key L passkey.
Proof. reflexivity. Qed.

(** The passkey reaches the outcome of [decrypt_pii_fields] through the
    derived key only. *)
Lemma decrypt_pii_fields_key md passkey passkey' :
  (forall s, generate_key_from_passkey L passkey' s = generate_key_from_passkey L passkey s) ->
  decrypt_pii_fields L md passkey' = decrypt_pii_fields L md passkey.
Proof.
  intros Hkey. unfold decrypt_pii_fields.
  destruct (b64decode L (salt md)) as [s|e]; [|reflexivity].
  cbn [bind]. by rewrite Hkey.
Qed.

(** A trailing NUL character is invisible to the key derivation. *)
Lemma trailing_nul_same_key (HL : LibLaws L) passkey passkey' s :
  str_encode L passkey' = str_encode L passkey ++ [x00] ->
  length (str_encode L passkey) < 64 ->
  generate_key_from_passkey L passkey' s = generate_key_from_passkey L passkey s.
Proof.
  intros Henc Hlen. unfold generate_key_from_passkey.
  by rewrite Henc, (hmac_key_padding L HL).
Qed.

Lemma trailing_nul_accepted (HL : LibLaws L) pii_fields passkey passkey' ent :
  str_encode L passkey' = str_encode L passkey ++ [x00] ->
  length (str_encode L passkey) < 64 ->
  decrypt_pii_fields L (metadata_of L pii_fields passkey ent) passkey'
  = Ok (imap (fun i f => (make_placeholder_id i, original_value f)) pii_fields).
Proof.
  intros Henc Hlen.
  rewrite (decrypt_pii_fields_key _ passkey passkey')
    by (intros s; by apply trailing_nul_same_key).
  rewrite (decrypt_pii_fields_spec L _ _ _ (session_salt_decodes HL _ _ _))
    by apply (session_key_ok L HL).
  rewrite session_key_eq. simpl.
  rewrite all_decrypt_session by (done || apply (session_key_ok L HL passkey None)).
  f_equal. apply decrypted_of_session; [done|].
  apply (session_key_ok L HL passkey None).
Qed.

(** The original value of every field is among the clear strings of the
    metadata of its session. *)
Lemma original_value_in_clear pii_fields passkey ent f :
  f ∈ pii_fields ->
  original_value f ∈ metadata_clear_strings (metadata_of L pii_fields passkey ent).
Proof.
  intros Hin. apply list_elem_of_lookup in Hin as [i Hi].
  unfold metadata_clear_strings. rewrite !elem_of_app. right. left.
  apply list_elem_of_In, in_flat_map.
  exists (entry_of L (session_key L passkey) ent i f). split.
  - apply list_elem_of_In. simpl. by apply elem_of_lookup_imap_2.
  - simpl. auto.
Qed.

Lemma metadata_mapping_lookup pii_fields passkey ent i :
  field_mapping (metadata_of L pii_fields passkey ent) !! i
  = entry_of L (session_key L passkey) ent i <$> pii_fields !! i.
Proof. apply list_lookup_imap. Qed.

Lemma metadata_fields_lookup pii_fields passkey ent i :
  encrypted_fields (metadata_of L pii_fields passkey ent) !! i
  = record_of L (session_key L passkey) ent i <$> pii_fields !! i.
Proof. apply list_lookup_imap. Qed.

End session_facts.

(** * The claims *)

(** ** Salt of a session *)

(** C1.  The claim asks for a fresh random salt per session, so that two
    calls of [encrypt_pii_fields] never share one.  The code does
    otherwise: called with [salt = None], [generate_key_from_passkey]
    returns the constant [urlsafe_b64encode(b"piiguardian_salt_2024")],
    and any two sessions, whatever their fields, passkeys and randomness,
    store the same salt; for the same passkey they also use the same key. *)
Theorem salt_is_constant (L : Lib) pii_fields pii_fields' passkey passkey' ent ent' md md' :
  encrypt_pii_fields L pii_fields passkey ent = Ok md ->
  encrypt_pii_fields L pii_fields' passkey' ent' = Ok md' ->
  salt md = salt md' /\
  salt md = b64text L (urlsafe_b64encode L fixed_salt_seed) /\
  (generate_key_from_passkey L passkey None).2 = urlsafe_b64encode L fixed_salt_seed /\
  (passkey = passkey' ->
   generate_key_from_passkey L passkey None = generate_key_from_passkey L passkey' None).
Proof.
  intros H H'. apply encrypt_pii_fields_Ok in H, H'. subst md md'.
  split_and!; [reflexivity | reflexivity | reflexivity | by intros ->].
Qed.

Lemma salt_is_constant_witness :
  salt (metadata_of Demo.lib [Demo.ssn_field] Demo.horse Demo.ent)
  = salt (metadata_of Demo.lib [Demo.ssn_field] Demo.horse Demo.ent') /\
  metadata_of Demo.lib [Demo.ssn_field] Demo.horse Demo.ent
  <> metadata_of Demo.lib [Demo.ssn_field] Demo.horse Demo.ent'.
Proof.
  split.
  - apply (salt_is_constant Demo.lib [Demo.ssn_field] [Demo.ssn_field]
             Demo.horse Demo.horse Demo.ent Demo.ent'); vm_compute; reflexivity.
  - vm_compute. discriminate.
Defined.

(** ** Plaintext in the metadata *)

(** C2, as the code has it.  The metadata keeps every field's original
    value in the clear: the entry of [field_mapping] at the field's
    position stores it under ["original_value"] beside the ciphertext, and
    so does the record of [encrypted_fields]. *)
Theorem plaintext_kept_in_metadata (L : Lib) (HL : LibLaws L) pii_fields passkey ent :
  exists md,
    encrypt_pii_fields L pii_fields passkey ent = Ok md /\
    forall i f, pii_fields !! i = Some f ->
      (exists e, field_mapping md !! i = Some (make_placeholder_id i, e) /\
                 me_original_value e = original_value f /\
                 me_encrypted_value e = ciphertext_of L (session_key L passkey) ent i f) /\
      (exists r, encrypted_fields md !! i = Some r /\
                 original_value (ef_field r) = original_value f /\
                 encrypted_value r = ciphertext_of L (session_key L passkey) ent i f) /\
      original_value f ∈ metadata_clear_strings md.
Proof.
  exists (metadata_of L pii_fields passkey ent).
  split; [by apply encrypt_pii_fields_total|].
  intros i f Hi. split_and!.
  - exists (entry_of L (session_key L passkey) ent i f).2.
    by rewrite metadata_mapping_lookup, Hi.
  - exists (record_of L (session_key L passkey) ent i f).
    by rewrite metadata_fields_lookup, Hi.
  - apply original_value_in_clear. by eapply list_elem_of_lookup_2.
Qed.

Lemma plaintext_kept_in_metadata_witness :
  exists md,
    encrypt_pii_fields Demo.lib [Demo.ssn_field; Demo.email_field] Demo.horse Demo.ent = Ok md /\
    forall i f, [Demo.ssn_field; Demo.email_field] !! i = Some f ->
      (exists e, field_mapping md !! i = Some (make_placeholder_id i, e) /\
                 me_original_value e = original_value f /\
                 me_encrypted_value e
                 = ciphertext_of Demo.lib (session_key Demo.lib Demo.horse) Demo.ent i f) /\
      (exists r, encrypted_fields md !! i = Some r /\
                 original_value (ef_field r) = original_value f /\
                 encrypted_value r
                 = ciphertext_of Demo.lib (session_key Demo.lib Demo.horse) Demo.ent i f) /\
      original_value f ∈ metadata_clear_strings md.
Proof.
  exact (plaintext_kept_in_metadata Demo.lib demo_lib_laws
           [Demo.ssn_field; Demo.email_field] Demo.horse Demo.ent).
Defined.

(** C2, as stated, fails: the metadata of a one-field session holds the
    social security number ["123-45-6789"] in the clear. *)
Lemma plaintext_copy_counterexample :
  ~ no_plaintext_copy Demo.lib [Demo.ssn_field] Demo.horse Demo.ent.
Proof.
  intros H.
  apply (H (metadata_of Demo.lib [Demo.ssn_field] Demo.horse Demo.ent)
           (encrypt_pii_fields_total Demo.lib demo_lib_laws _ _ _)
           Demo.ssn_field).
  - left.
  - apply original_value_in_clear. left.
Qed.

(** ** Round trip *)

(** C3.  Decrypting the metadata of a session with the passkey of the
    session returns, for every field in input order, its placeholder
    identifier paired with its original value, and nothing else; the keys
    are the identifiers the session assigned.  The passkey need not even
    meet the strength policy. *)
Theorem round_trip (L : Lib) (HL : LibLaws L) pii_fields passkey ent :
  exists md,
    encrypt_pii_fields L pii_fields passkey ent = Ok md /\
    decrypt_pii_fields L md passkey
    = Ok (imap (fun i f => (make_placeholder_id i, original_value f)) pii_fields) /\
    dict_keys (imap (fun i f => (make_placeholder_id i, original_value f)) pii_fields)
    = placeholder_id <$> encrypted_fields md.
Proof.
  exists (metadata_of L pii_fields passkey ent).
  split; [by apply encrypt_pii_fields_total|]. split.
  - rewrite (decrypt_pii_fields_spec L _ _ _ (session_salt_decodes L HL _ _ _))
      by apply (session_key_ok L HL).
    rewrite session_key_eq. simpl.
    pose proof (session_key_ok L HL passkey None) as Hk.
    rewrite all_decrypt_session by done.
    f_equal. by apply decrypted_of_session.
  - rewrite metadata_ids. unfold dict_keys. rewrite fmap_imap.
    unfold compose. simpl. apply imap_seq_0.
Qed.

Lemma round_trip_witness :
  exists md,
    encrypt_pii_fields Demo.lib [Demo.ssn_field; Demo.email_field] Demo.horse Demo.ent = Ok md /\
    decrypt_pii_fields Demo.lib md Demo.horse
    = Ok [("ENCRYPTED_FIELD_001", "123-45-6789"); ("ENCRYPTED_FIELD_002", "john@example.org")] /\
    ["ENCRYPTED_FIELD_001"; "ENCRYPTED_FIELD_002"] = placeholder_id <$> encrypted_fields md.
Proof.
  exact (round_trip Demo.lib demo_lib_laws
           [Demo.ssn_field; Demo.email_field] Demo.horse Demo.ent).
Defined.

(** ** Decrypting with another passkey *)

(** C4, as the code has it.  If Fernet refuses a token under every key but
    the one that made it, then a passkey whose derived key differs from the
    key of the session is rejected with the authentication error, whenever
    the session had at least one field. *)
Theorem wrong_key_rejected (L : Lib) (HL : LibLaws L) (HB : KeyBinding L)
    pii_fields passkey passkey' ent :
  pii_fields <> [] ->
  session_key L passkey' <> session_key L passkey ->
  exists md,
    encrypt_pii_fields L pii_fields passkey ent = Ok md /\
    decrypt_pii_fields L md passkey' = Raised (ValueError "Invalid passkey provided").
Proof.
  intros Hne Hkey.
  exists (metadata_of L pii_fields passkey ent).
  split; [by apply encrypt_pii_fields_total|].
  rewrite (decrypt_pii_fields_spec L _ _ _ (session_salt_decodes L HL _ _ _))
    by apply (session_key_ok L HL).
  rewrite session_key_eq.
  destruct pii_fields as [|f rest]; [done|].
  rewrite (all_decrypt_false L _ _ (make_placeholder_id 0)
             (entry_of L (session_key L passkey) ent 0 f).2); [done | by left |].
  unfold decrypt_entry, entry_of, ciphertext_of. simpl.
  destruct (b64text_decode L HL
    (Fernet_encrypt L (session_key L passkey) (ent 0) (str_encode L (original_value f))))
    as [_ Hd].
  simpl in Hd. rewrite Hd. simpl.
  pose proof (HB (session_key L passkey) (session_key L passkey') (ent 0)
                (str_encode L (original_value f))
                (session_key_ok L HL passkey None)
                (session_key_ok L HL passkey' None)
                (fun H => Hkey (eq_sym H))) as Hbad.
  simpl in Hbad.
  by destruct (Fernet_decrypt L _ _).
Qed.

Lemma wrong_key_rejected_witness :
  exists md,
    encrypt_pii_fields Demo.lib [Demo.ssn_field] Demo.horse Demo.ent = Ok md /\
    decrypt_pii_fields Demo.lib md "wrong-horse"
    = Raised (ValueError "Invalid passkey provided").
Proof.
  apply (wrong_key_rejected Demo.lib demo_lib_laws demo_lib_key_binding
           [Demo.ssn_field] Demo.horse "wrong-horse" Demo.ent).
  - discriminate.
  - vm_compute. discriminate.
Defined.

(** C4, as stated, fails.  PBKDF2 with HMAC-SHA256 does not see a NUL
    character at the end of a passkey, so ["correct-horse\x00"] opens what
    ["correct-horse"] closed, although the two passkeys differ.  The key
    derivation is the one of the standards here, with its 100000
    iterations. *)
Lemma wrong_key_counterexample :
  ~ wrong_key_rejection Demo.lib_rfc [Demo.ssn_field] Demo.horse Demo.horse_nul Demo.ent.
Proof.
  intros H.
  assert (Hrej := H ltac:(discriminate) ltac:(discriminate)
    (metadata_of Demo.lib_rfc [Demo.ssn_field] Demo.horse Demo.ent)
    (encrypt_pii_fields_total Demo.lib_rfc demo_lib_rfc_laws _ _ _)).
  rewrite (trailing_nul_accepted Demo.lib_rfc demo_lib_rfc_laws) in Hrej.
  - discriminate Hrej.
  - reflexivity.
  - vm_compute. lia.
Qed.

(** ** Placeholder identifiers *)

(** C5.  The identifiers a session assigns to its fields are pairwise
    distinct, whatever the fields (equal original values included); they
    are, in order, the keys of [field_mapping], so no key repeats and every
    key stands for one field. *)
Theorem placeholder_uniqueness (L : Lib) (HL : LibLaws L) pii_fields passkey ent :
  exists md,
    encrypt_pii_fields L pii_fields passkey ent = Ok md /\
    NoDup (placeholder_id <$> encrypted_fields md) /\
    NoDup (dict_keys (field_mapping md)) /\
    dict_keys (field_mapping md) = placeholder_id <$> encrypted_fields md /\
    (forall i j e e', field_mapping md !! i = Some e -> field_mapping md !! j = Some e' ->
                      e.1 = e'.1 -> i = j).
Proof.
  exists (metadata_of L pii_fields passkey ent).
  split; [by apply encrypt_pii_fields_total|].
  rewrite metadata_ids, metadata_keys.
  pose proof (placeholder_ids_NoDup 0 (length pii_fields)) as Hnd.
  split_and!; [done | done | done |].
  intros i j e e' Hi Hj Heq.
  rewrite metadata_mapping_lookup in Hi, Hj.
  destruct (pii_fields !! i) as [f|]; [|discriminate].
  destruct (pii_fields !! j) as [g|]; [|discriminate].
  injection Hi as <-. injection Hj as <-. simpl in Heq.
  by apply make_placeholder_id_inj in Heq.
Qed.

Lemma placeholder_uniqueness_witness :
  exists md,
    encrypt_pii_fields Demo.lib [Demo.ssn_field; Demo.ssn_field] Demo.horse Demo.ent = Ok md /\
    NoDup (placeholder_id <$> encrypted_fields md) /\
    NoDup (dict_keys (field_mapping md)) /\
    dict_keys (field_mapping md) = placeholder_id <$> encrypted_fields md /\
    (forall i j e e', field_mapping md !! i = Some e -> field_mapping md !! j = Some e' ->
                      e.1 = e'.1 -> i = j).
Proof.
  exact (placeholder_uniqueness Demo.lib demo_lib_laws
           [Demo.ssn_field; Demo.ssn_field] Demo.horse Demo.ent).
Defined.

(** ** One entry per field *)

(** C6.  [field_mapping] has as many entries as there are input fields,
    under as many distinct keys, and its [i]-th entry is made from the
    [i]-th field: its key is the identifier of index [i] and it carries the
    field's original value, type and location with the ciphertext of the
    original value. *)
Theorem mapping_covers_fields (L : Lib) (HL : LibLaws L) pii_fields passkey ent :
  exists md,
    encrypt_pii_fields L pii_fields passkey ent = Ok md /\
    length (field_mapping md) = length pii_fields /\
    length (encrypted_fields md) = length pii_fields /\
    NoDup (dict_keys (field_mapping md)) /\
    forall i,
      field_mapping md !! i
      = (fun f => (make_placeholder_id i,
                   {| me_original_value := original_value f;
                      me_encrypted_value :=
                        b64text L (Fernet_encrypt L (session_key L passkey) (ent i)
                                     (str_encode L (original_value f)));
                      me_type := type f;
                      me_location := loc f |})) <$> pii_fields !! i.
Proof.
  exists (metadata_of L pii_fields passkey ent).
  split; [by apply encrypt_pii_fields_total|].
  rewrite metadata_keys.
  split_and!.
  - apply length_imap.
  - apply length_imap.
  - apply placeholder_ids_NoDup.
  - intros i. by rewrite metadata_mapping_lookup.
Qed.

Lemma mapping_covers_fields_witness :
  exists md,
    encrypt_pii_fields Demo.lib [Demo.ssn_field; Demo.email_field] Demo.horse Demo.ent = Ok md /\
    length (field_mapping md) = 2 /\
    length (encrypted_fields md) = 2 /\
    NoDup (dict_keys (field_mapping md)) /\
    forall i,
      field_mapping md !! i
      = (fun f => (make_placeholder_id i,
                   {| me_original_value := original_value f;
                      me_encrypted_value :=
                        b64text Demo.lib
                          (Fernet_encrypt Demo.lib (session_key Demo.lib Demo.horse)
                             (Demo.ent i) (str_encode Demo.lib (original_value f)));
                      me_type := type f;
                      me_location := loc f |}))
        <$> [Demo.ssn_field; Demo.email_field] !! i.
Proof.
  exact (mapping_covers_fields Demo.lib demo_lib_laws
           [Demo.ssn_field; Demo.email_field] Demo.horse Demo.ent).
Defined.

(** ** All or nothing *)

(** C9.  If any entry of [field_mapping] fails to decrypt under the key
    derived from the passkey and the stored salt (its text is no base64, its
    token is refused, or its plaintext is no UTF-8), [decrypt_pii_fields]
    raises the one authentication error, which names no field.  When it
    returns a mapping, every entry has decrypted, every placeholder
    identifier is a key of the mapping and every value is the decryption of
    an entry under its key.  And when every entry decrypts, it does return
    a mapping. *)
Theorem decrypt_all_or_nothing (L : Lib) (HL : LibLaws L) md passkey :
  (forall s pid e,
     b64decode L (salt md) = Ok s ->
     (pid, e) ∈ field_mapping md ->
     is_ok (decrypt_entry L (generate_key_from_passkey L passkey (Some s)).1 e) = false ->
     decrypt_pii_fields L md passkey = Raised (ValueError "Invalid passkey provided")) /\
  (forall m, decrypt_pii_fields L md passkey = Ok m ->
     exists s,
       b64decode L (salt md) = Ok s /\
       (forall pid e, (pid, e) ∈ field_mapping md ->
          is_ok (decrypt_entry L (generate_key_from_passkey L passkey (Some s)).1 e) = true) /\
       (forall pid, pid ∈ dict_keys (field_mapping md) -> pid ∈ dict_keys m) /\
       (forall pid v, dict_get m pid = Some v ->
          exists e, (pid, e) ∈ field_mapping md /\
            decrypt_entry L (generate_key_from_passkey L passkey (Some s)).1 e = Ok v)) /\
  (forall s,
     b64decode L (salt md) = Ok s ->
     (forall pid e, (pid, e) ∈ field_mapping md ->
        is_ok (decrypt_entry L (generate_key_from_passkey L passkey (Some s)).1 e) = true) ->
     exists m, decrypt_pii_fields L md passkey = Ok m).
Proof.
  assert (Hspec := fun s Hs =>
            decrypt_pii_fields_spec L md passkey s Hs (session_key_ok L HL _ _)).
  split_and!.
  - intros s pid e Hs Hin Hbad.
    by rewrite (Hspec s Hs), (all_decrypt_false L _ _ pid e).
  - intros m Hm.
    destruct (decrypt_pii_fields_Ok_salt L _ _ _ Hm) as [s Hs].
    exists s. split; [done|]. rewrite (Hspec s Hs) in Hm.
    set (key := (generate_key_from_passkey L passkey (Some s)).1) in *.
    destruct (all_decrypt L key (field_mapping md)) eqn:Hall; [|discriminate].
    injection Hm as <-. rewrite all_decrypt_true in Hall. split_and!.
    + done.
    + intros pid Hpid. apply decrypted_of_keys. by right.
    + intros pid v Hget. apply decrypted_of_get in Hget as [Hget | (e & Hin & Hv)];
        [discriminate|].
      exists e. split; [done|]. specialize (Hall _ _ Hin).
      unfold entry_value in Hv. by destruct (decrypt_entry L key e); subst.
  - intros s Hs Hall. apply all_decrypt_true in Hall. rewrite (Hspec s Hs), Hall.
    by eexists.
Qed.

(** ** No fields, no check *)

(** C10.  On metadata with an empty [field_mapping] [decrypt_pii_fields]
    returns the empty mapping for every passkey: nothing is decrypted, so
    nothing can reveal a wrong passkey.  This holds for every metadata
    whose salt is base64 text, and so for the metadata of a session without
    fields, whatever passkey opened it. *)
Theorem empty_mapping_accepts_any_passkey (L : Lib) (HL : LibLaws L) :
  (forall md s passkey,
     field_mapping md = [] ->
     b64decode L (salt md) = Ok s ->
     decrypt_pii_fields L md passkey = Ok []) /\
  (forall passkey passkey' ent,
     exists md,
       encrypt_pii_fields L [] passkey ent = Ok md /\
       field_mapping md = [] /\
       decrypt_pii_fields L md passkey' = Ok []).
Proof.
  assert (Hempty : forall md s passkey,
             field_mapping md = [] -> b64decode L (salt md) = Ok s ->
             decrypt_pii_fields L md passkey = Ok []).
  { intros md s passkey Hfm Hs.
    rewrite (decrypt_pii_fields_spec L md passkey s Hs (session_key_ok L HL _ _)).
    by rewrite Hfm. }
  split; [exact Hempty|].
  intros passkey passkey' ent. exists (metadata_of L [] passkey ent).
  split_and!; [by apply encrypt_pii_fields_total | done |].
  by apply (Hempty _ (session_salt L)), session_salt_decodes.
Qed.

Lemma decrypt_all_or_nothing_witness :
  decrypt_pii_fields Demo.lib Demo.tampered Demo.horse
  = Raised (ValueError "Invalid passkey provided").
Proof.
  apply (proj1 (decrypt_all_or_nothing Demo.lib demo_lib_laws Demo.tampered Demo.horse)
           (session_salt Demo.lib) "ENCRYPTED_FIELD_002" Demo.garbled).
  - vm_compute. reflexivity.
  - right. left.
  - vm_compute. reflexivity.
Defined.

Lemma empty_mapping_accepts_any_passkey_witness :
  exists md,
    encrypt_pii_fields Demo.lib [] Demo.horse Demo.ent = Ok md /\
    field_mapping md = [] /\
    decrypt_pii_fields Demo.lib md "wrong-horse" = Ok [].
Proof.
  exact (proj2 (empty_mapping_accepts_any_passkey Demo.lib demo_lib_laws)
           Demo.horse "wrong-horse" Demo.ent).
Defined.

(** ** The handlers *)

(** C7.  The claim asks for a not-found error when the sidecar of a
    redacted artifact is absent.  The code raises
    [FileNotFoundError("Encryption metadata not found")], but inside the
    [try] of [generate_decrypted_pdf], whose [except Exception] turns it
    into a plain [Exception]; the handler of [/api/decrypt] then answers
    with status 500, whatever the passkey, and leaves the world as it
    was. *)
Theorem missing_sidecar_is_internal_error (L : Lib) (w : world L)
    document_id passkey doc p mp :
  documents_store w !! document_id = Some doc ->
  encrypted_path doc = Some p -> p <> "" ->
  path_with_suffix L p ".json" = Ok mp ->
  fs w !! mp = None ->
  generate_decrypted_pdf L p (detected_pii doc) passkey w
  = (Raised (Exception "Failed to generate decrypted PDF: Encryption metadata not found"), w) /\
  decrypt_document L document_id passkey w
  = (Raised (HTTPException 500
       "Decryption failed: Failed to generate decrypted PDF: Encryption metadata not found"),
     w).
Proof.
  intros Hdoc Hp Hne Hmp Hfs.
  assert (Hgen : generate_decrypted_pdf L p (detected_pii doc) passkey w
    = (Raised (Exception "Failed to generate decrypted PDF: Encryption metadata not found"), w)).
  { unfold generate_decrypted_pdf, try_except2_M, try_except_M, mbind, lift, path_exists.
    rewrite Hmp, Hfs. rewrite bool_decide_false by (intros [? [=]]). reflexivity. }
  split; [exact Hgen|].
  unfold decrypt_document, try_except2_M, try_except_M, mbind, lookup_doc.
  rewrite Hdoc, Hp. simpl.
  destruct p as [|a p']; [done|]. simpl. by rewrite Hgen.
Qed.

Lemma missing_sidecar_is_internal_error_witness :
  decrypt_document Demo.lib "1" Demo.horse Demo.world1
  = (Raised (HTTPException 500
       "Decryption failed: Failed to generate decrypted PDF: Encryption metadata not found"),
     Demo.world1).
Proof.
  apply (missing_sidecar_is_internal_error Demo.lib Demo.world1 "1" Demo.horse Demo.doc1
           "uploads/encrypted_report.pdf" "uploads/encrypted_report.json").
  - reflexivity.
  - reflexivity.
  - discriminate.
  - reflexivity.
  - reflexivity.
Defined.

(** C8.  A passkey shorter than eight characters stops [/api/encrypt]
    before any key is derived or anything is encrypted or written: the
    world is returned unchanged.  The validation error does not reach the
    caller, though.  The [HTTPException] of status 400 (or of status 404
    for an unknown document) is raised inside the handler's own [try],
    whose [except Exception] answers with status 500. *)
Theorem weak_passkey_is_internal_error (L : Lib) (w : world L) ent document_id passkey :
  String.length passkey < 8 ->
  validate_passkey_strength passkey = false /\
  exists status detail,
    encrypt_document L ent document_id passkey w
    = (Raised (HTTPException 500
         ("Encryption failed: " +:+ HTTPException_str L status detail)), w) /\
    (documents_store w !! document_id = None ->
       status = 404 /\ detail = "Document not found") /\
    (forall doc, documents_store w !! document_id = Some doc ->
       status = 400 /\
       detail = if no_detected_pii (detected_pii doc)
                then "Document must be analyzed first"
                else "Passkey must be at least 8 characters").
Proof.
  intros Hlen. apply Nat.ltb_lt in Hlen.
  split; [unfold validate_passkey_strength; by rewrite Hlen|].
  unfold encrypt_document, try_except_M, mbind, lookup_doc.
  destruct (documents_store w !! document_id) as [doc|] eqn:Hdoc.
  - destruct (no_detected_pii (detected_pii doc)) eqn:Hpii.
    + exists 400, "Document must be analyzed first". simpl.
      split_and!; [done | done |]. intros doc' [= <-]. by rewrite Hpii.
    + exists 400, "Passkey must be at least 8 characters". rewrite Hlen. simpl.
      split_and!; [done | done |]. intros doc' [= <-]. by rewrite Hpii.
  - exists 404, "Document not found". simpl. by split_and!.
Qed.

Lemma weak_passkey_is_internal_error_witness :
  encrypt_document Demo.lib Demo.ent "1" "short" Demo.world1
  = (Raised (HTTPException 500
       "Encryption failed: 400: Passkey must be at least 8 characters"),
     Demo.world1).
Proof.
  destruct (weak_passkey_is_internal_error Demo.lib Demo.world1 Demo.ent "1" "short")
    as (_ & status & detail & Heq & _ & Hdoc).
  - vm_compute. lia.
  - destruct (Hdoc Demo.doc1 eq_refl) as [-> ->]. exact Heq.
Defined.

(** * Further properties *)

(** ** What decryption reads *)

Section decrypt_more.
Variable L : Lib.

Lemma decrypt_loop_ciphertexts key items : forall items' acc,
  ciphertexts items = ciphertexts items' ->
  decrypt_loop L key items acc = decrypt_loop L key items' acc.
Proof.
  induction items as [|[k e] rest IH]; intros [|[k' e'] rest'] acc Heq;
    try discriminate; [reflexivity|].
  unfold ciphertexts in Heq. simpl in Heq. injection Heq as -> He Hrest.
  cbn [decrypt_loop]. unfold decrypt_entry. rewrite He.
  destruct (try_except _ _) as [v|err]; [|reflexivity].
  simpl. by apply IH.
Qed.

(** When it returns, the result is what the loop builds under the key the
    passkey and the stored salt give. *)
Lemma decrypt_pii_fields_Ok_inv md passkey m :
  decrypt_pii_fields L md passkey = Ok m ->
  exists s,
    b64decode L (salt md) = Ok s /\
    all_decrypt L (generate_key_from_passkey L passkey (Some s)).1 (field_mapping md) = true /\
    m = decrypted_of L (generate_key_from_passkey L passkey (Some s)).1 (field_mapping md) [].
Proof.
  intros Hm. destruct (decrypt_pii_fields_Ok_salt L _ _ _ Hm) as [s Hs].
  exists s. split; [done|].
  revert Hm. unfold decrypt_pii_fields. rewrite Hs. cbn [bind]. simpl.
  unfold Fernet. destruct (Fernet_key_ok L _); simpl.
  - rewrite decrypt_loop_spec. destruct (all_decrypt L _ _); simpl; [|discriminate].
    by intros [= <-].
  - discriminate.
Qed.

Lemma dict_get_is_Some {V} (d : dict V) k : k ∈ dict_keys d -> is_Some (dict_get d k).
Proof.
  unfold dict_keys. induction d as [|[k' v'] d IH]; simpl; intros Hin.
  - by apply elem_of_nil in Hin.
  - destruct (decide (k' = k)); [by eexists|].
    apply elem_of_cons in Hin as [->|Hin]; [done | by apply IH].
Qed.

Lemma restore_annots_Ok (pg : page L) fm items :
  (forall k, k ∈ dict_keys items -> k ∈ dict_keys fm) ->
  exists annots, restore_annots L pg fm items = Ok annots.
Proof.
  induction items as [|[k v] rest IH]; intros Hsub; [by eexists|].
  cbn [restore_annots].
  destruct (dict_get_is_Some fm k) as [fd ->]; [apply Hsub; left|].
  simpl. destruct IH as [more ->]; [intros k' Hk'; apply Hsub; by right|].
  simpl. by eexists.
Qed.

Lemma restore_pages_Ok (pages : list (page L)) fm items :
  (forall k, k ∈ dict_keys items -> k ∈ dict_keys fm) ->
  exists pages', restore_pages L pages fm items = Ok pages' /\ length pages' = length pages.
Proof.
  intros Hsub. induction pages as [|pg rest (rest' & IH & Hlen)]; [by eexists|].
  cbn [restore_pages].
  destruct (restore_annots_Ok pg fm items Hsub) as [annots ->].
  simpl. rewrite IH. simpl. eexists. split; [done|]. simpl. by rewrite Hlen.
Qed.

Lemma restore_finds_every_placeholder_aux md passkey m (pages : list (page L)) :
  decrypt_pii_fields L md passkey = Ok m ->
  exists pages',
    restore_pages L pages (field_mapping md) m = Ok pages' /\
    length pages' = length pages.
Proof.
  intros Hm. apply decrypt_pii_fields_Ok_inv in Hm as (s & _ & _ & ->).
  apply restore_pages_Ok. intros k Hk.
  apply decrypted_of_keys in Hk as [Hk | Hk]; [|done].
  by apply elem_of_nil in Hk.
Qed.

End decrypt_more.

(** X1.  [decrypt_pii_fields] reads the salt and, of each entry, the key
    and the ciphertext, and nothing else: two metadata that agree on these
    give the same outcome for every passkey, whatever their stored
    plaintext copies, types, locations, field records and method name. *)
Theorem decrypt_reads_ciphertext_only (L : Lib) md md' passkey :
  salt md = salt md' ->
  ciphertexts (field_mapping md) = ciphertexts (field_mapping md') ->
  decrypt_pii_fields L md passkey = decrypt_pii_fields L md' passkey.
Proof.
  intros Hsalt Hct. unfold decrypt_pii_fields. rewrite Hsalt.
  destruct (b64decode L (salt md')) as [s|e]; [|reflexivity].
  cbn [bind]. simpl. destruct (Fernet L _) as [fernet|e]; [|reflexivity].
  cbn [bind]. by rewrite (decrypt_loop_ciphertexts L fernet _ _ [] Hct).
Qed.

Lemma decrypt_reads_ciphertext_only_witness :
  decrypt_pii_fields Demo.lib Samples.scrubbed Demo.horse
  = Ok [("ENCRYPTED_FIELD_001", "123-45-6789"); ("ENCRYPTED_FIELD_002", "john@example.org")].
Proof.
  rewrite (decrypt_reads_ciphertext_only Demo.lib Samples.scrubbed Demo.session2 Demo.horse).
  - vm_compute. reflexivity.
  - reflexivity.
  - vm_compute. reflexivity.
Defined.

(** X2.  Only two kinds of exception leave [decrypt_pii_fields]: the
    [ValueError] of a failed authentication and a plain [Exception] whose
    message starts with "Failed to decrypt PII fields: ".  A salt that is
    no base64 text gives the second, with the decoder's message, for every
    passkey and every mapping. *)
Theorem decrypt_failures (L : Lib) md passkey err :
  b64decode L (salt md) = Raised err ->
  str_contains "Invalid passkey" (str L err) = false ->
  decrypt_pii_fields L md passkey
  = Raised (Exception ("Failed to decrypt PII fields: " +:+ str L err)) /\
  forall md' passkey' e, decrypt_pii_fields L md' passkey' = Raised e ->
    e = ValueError "Invalid passkey provided" \/
    exists msg, e = Exception ("Failed to decrypt PII fields: " +:+ msg).
Proof.
  intros Hs Hmsg. split.
  - unfold decrypt_pii_fields. rewrite Hs. simpl. by rewrite Hmsg.
  - intros md' passkey' e. unfold decrypt_pii_fields, try_except.
    destruct (bind _ _) as [m|e']; [discriminate|].
    destruct (str_contains "Invalid passkey" (str L e')); intros [= <-];
      [by left | right; by eexists].
Qed.

Lemma decrypt_failures_witness :
  decrypt_pii_fields Samples.lib_strict Samples.bad_salt Demo.horse
  = Raised (Exception "Failed to decrypt PII fields: Incorrect padding").
Proof.
  apply (decrypt_failures Samples.lib_strict Samples.bad_salt Demo.horse
           (Exn CBinasciiError "Incorrect padding")); reflexivity.
Defined.

(** X3.  Restoring never looks up a placeholder that the metadata does
    not have: for every mapping [decrypt_pii_fields] returns, the pass over
    the pages that [generate_decrypted_pdf] makes raises no [KeyError] and
    keeps the number of pages. *)
Theorem restore_finds_every_placeholder (L : Lib) md passkey m (pages : list (page L)) :
  decrypt_pii_fields L md passkey = Ok m ->
  exists pages',
    restore_pages L pages (field_mapping md) m = Ok pages' /\
    length pages' = length pages.
Proof.
  apply restore_finds_every_placeholder_aux.
Qed.

Lemma restore_finds_every_placeholder_witness :
  exists pages',
    restore_pages Demo.lib ["page one"; "page two"] (field_mapping Demo.session2)
      [("ENCRYPTED_FIELD_001", "123-45-6789"); ("ENCRYPTED_FIELD_002", "john@example.org")]
    = Ok pages' /\
    length pages' = 2.
Proof.
  apply (restore_finds_every_placeholder Demo.lib Demo.session2 Demo.horse).
  vm_compute. reflexivity.
Defined.

(** ** Placeholder markers *)

Lemma no_colon_cons a s : a <> ":"%char -> no_colon s -> no_colon (String a s).
Proof.
  unfold no_colon. simpl. intros Ha Hs Hin.
  apply elem_of_cons in Hin as [Heq|Hin]; [by subst | done].
Qed.

Lemma no_colon_nil : no_colon "".
Proof. unfold no_colon. simpl. apply not_elem_of_nil. Qed.

Lemma string_of_uint_no_colon d : no_colon (NilEmpty.string_of_uint d).
Proof.
  induction d; simpl; [apply no_colon_nil | apply no_colon_cons; [discriminate | done]..].
Qed.

Lemma no_colon_zeros k s : no_colon s -> no_colon (zeros k +:+ s).
Proof.
  intros Hs. induction k as [|k IH]; [done|].
  change (zeros (S k) +:+ s) with (String "0" (zeros k +:+ s)).
  by apply no_colon_cons.
Qed.

Lemma format_03d_no_colon n : no_colon (format_03d n).
Proof. apply no_colon_zeros, string_of_uint_no_colon. Qed.

Lemma colon_split d : forall d' r r',
  no_colon d -> no_colon d' ->
  d +:+ String ":" r = d' +:+ String ":" r' -> d = d' /\ r = r'.
Proof.
  unfold no_colon.
  induction d as [|a d IH]; intros [|a' d'] r r' Hd Hd' Heq; simpl in *.
  - by injection Heq as ->.
  - injection Heq as <- _. exfalso. apply Hd'. left.
  - injection Heq as -> _. exfalso. apply Hd. left.
  - injection Heq as -> Heq.
    apply not_elem_of_cons in Hd as [_ Hd], Hd' as [_ Hd'].
    destruct (IH d' r r' Hd Hd' Heq) as [-> ->]. done.
Qed.

Lemma append_inv_last t : forall t' a, t +:+ String a "" = t' +:+ String a "" -> t = t'.
Proof.
  induction t as [|c t IH]; intros [|c' t'] a Heq; simpl in *.
  - done.
  - injection Heq as _ Heq. by destruct t'.
  - injection Heq as _ Heq. by destruct t.
  - injection Heq as -> Heq. f_equal. by eapply IH.
Qed.

(** X4.  The marker that replaces a value in the document names its field
    and its type without ambiguity: two markers of a session are equal only
    if they carry the same index and the same type, whatever characters the
    types contain. *)
Theorem marker_determines_field i j t t' :
  generate_placeholder_text (make_placeholder_id i) t
  = generate_placeholder_text (make_placeholder_id j) t' ->
  i = j /\ t = t'.
Proof.
  unfold generate_placeholder_text, make_placeholder_id. intros Heq.
  change ("[" +:+ ("ENCRYPTED_FIELD_" +:+ format_03d (i + 1)) +:+ ":" +:+ t +:+ "]")
    with ("[ENCRYPTED_FIELD_" +:+ (format_03d (i + 1) +:+ String ":" (t +:+ "]"))) in Heq.
  change ("[" +:+ ("ENCRYPTED_FIELD_" +:+ format_03d (j + 1)) +:+ ":" +:+ t' +:+ "]")
    with ("[ENCRYPTED_FIELD_" +:+ (format_03d (j + 1) +:+ String ":" (t' +:+ "]"))) in Heq.
  apply String.app_inj in Heq.
  apply colon_split in Heq as [Hd Ht]; [|apply format_03d_no_colon..].
  apply format_03d_inj in Hd. apply append_inv_last in Ht. split; [lia | done].
Qed.

Lemma marker_determines_field_witness : 6 = 6 /\ "Email Address" = "Email Address".
Proof.
  apply (marker_determines_field 6 6 "Email Address" "Email Address"). reflexivity.
Defined.

(** ** The redact and restore paths, run *)

Section runs.
Variable L : Lib.
Hypothesis HL : LibLaws L.

Lemma generate_encrypted_pdf_run ent original_path pii_fields passkey (w : world L) pages mp :
  fs w !! original_path = Some (PdfFile pages) ->
  path_with_suffix L (encrypted_path_of L original_path) ".json" = Ok mp ->
  generate_encrypted_pdf L ent original_path pii_fields passkey w
  = (Ok (encrypted_path_of L original_path),
     {| fs := <[mp := JsonFile (metadata_of L pii_fields passkey ent)]>
                (<[encrypted_path_of L original_path :=
                     PdfFile (redact_pages L (metadata_of L pii_fields passkey ent) pages)]>
                   (fs w));
        documents_store := documents_store w |}).
Proof.
  intros Hfs Hmp.
  unfold generate_encrypted_pdf, try_except_M, mbind, lift, fitz_open, write_file, ret.
  rewrite (encrypt_pii_fields_total L HL), Hfs.
  fold (encrypted_path_of L original_path). cbn [fs]. by rewrite Hmp.
Qed.

Lemma generate_encrypted_pdf_no_pdf ent original_path pii_fields passkey (w : world L) :
  (forall pages, fs w !! original_path <> Some (PdfFile pages)) ->
  generate_encrypted_pdf L ent original_path pii_fields passkey w
  = (Raised (Exception ("Failed to generate encrypted PDF: "
                          +:+ str L (fitz_open_error L original_path))), w).
Proof.
  intros Hfs.
  unfold generate_encrypted_pdf, try_except_M, mbind, lift, fitz_open, raise.
  rewrite (encrypt_pii_fields_total L HL).
  destruct (fs w !! original_path) as [[pages|md]|] eqn:Hf; [by destruct (Hfs pages) | done..].
Qed.

Lemma generate_decrypted_pdf_run encrypted_path pii_fields passkey (w : world L)
    mp md m pages :
  path_with_suffix L encrypted_path ".json" = Ok mp ->
  fs w !! mp = Some (JsonFile md) ->
  decrypt_pii_fields L md passkey = Ok m ->
  fs w !! encrypted_path = Some (PdfFile pages) ->
  exists pages',
    restore_pages L pages (field_mapping md) m = Ok pages' /\
    generate_decrypted_pdf L encrypted_path pii_fields passkey w
    = (Ok (decrypted_path_of L encrypted_path),
       {| fs := <[decrypted_path_of L encrypted_path := PdfFile pages']> (fs w);
          documents_store := documents_store w |}).
Proof.
  intros Hmp Hmd Hm Hpdf.
  destruct (restore_finds_every_placeholder_aux L md passkey m pages Hm)
    as (pages' & Hrestore & _).
  exists pages'. split; [done|].
  unfold generate_decrypted_pdf, try_except2_M, try_except_M, mbind, lift,
    path_exists, json_load, fitz_open, write_file, ret.
  rewrite Hmp. cbv beta iota zeta. cbn [fs]. rewrite Hmd.
  rewrite bool_decide_true by by eexists.
  cbv beta iota zeta. rewrite Hmd. cbv beta iota zeta.
  rewrite Hm. cbv beta iota zeta. rewrite Hpdf.
  cbv beta iota zeta. rewrite Hrestore. reflexivity.
Qed.

Lemma generate_decrypted_pdf_rejects encrypted_path pii_fields passkey (w : world L) mp md :
  path_with_suffix L encrypted_path ".json" = Ok mp ->
  fs w !! mp = Some (JsonFile md) ->
  decrypt_pii_fields L md passkey = Raised (ValueError "Invalid passkey provided") ->
  generate_decrypted_pdf L encrypted_path pii_fields passkey w
  = (Raised (ValueError "Invalid passkey provided"), w).
Proof.
  intros Hmp Hmd Hm.
  unfold generate_decrypted_pdf, try_except2_M, try_except_M, mbind, lift,
    path_exists, json_load, fitz_open, write_file, ret, raise.
  rewrite Hmp. cbv beta iota zeta. cbn [fs]. rewrite Hmd.
  rewrite bool_decide_true by by eexists.
  cbv beta iota zeta. rewrite Hmd. cbv beta iota zeta. by rewrite Hm.
Qed.

End runs.

(** ** The handlers, run *)

Section handler_runs.
Variable L : Lib.
Hypothesis HL : LibLaws L.

(** Past its three checks [/api/encrypt] does what [generate_encrypted_pdf]
    does, and records the outcome only if that returns. *)
Lemma encrypt_document_past_checks ent document_id passkey (w : world L) doc f fields :
  documents_store w !! document_id = Some doc ->
  detected_pii doc = Some (f :: fields) ->
  8 <= String.length passkey ->
  encrypt_document L ent document_id passkey w
  = match generate_encrypted_pdf L ent (original_path doc) (f :: fields) passkey w with
    | (Ok encrypted_path, w') =>
        (Ok {| fr_path := encrypted_path;
               fr_filename := "encrypted_" +:+ filename doc;
               fr_media_type := "application/pdf" |},
         {| fs := fs w';
            documents_store :=
              <[document_id := redacted_record doc encrypted_path]> (documents_store w') |})
    | (Raised e, w') =>
        (Raised (HTTPException 500 ("Encryption failed: " +:+ str L e)), w')
    end.
Proof.
  intros Hdoc Hpii Hlen.
  unfold encrypt_document, try_except_M, mbind, lookup_doc, store_doc, ret, raise.
  rewrite Hdoc, Hpii. cbn [no_detected_pii].
  change (default [] (Some (f :: fields))) with (f :: fields).
  destruct (Nat.ltb_spec (String.length passkey) 8) as [?|_]; [lia|].
  cbv beta iota zeta.
  by destruct (generate_encrypted_pdf L ent (original_path doc) (f :: fields) passkey w)
    as [[p|e] w'].
Qed.

Lemma decrypt_document_past_checks document_id passkey (w : world L) doc a p :
  documents_store w !! document_id = Some doc ->
  encrypted_path doc = Some (String a p) ->
  decrypt_document L document_id passkey w
  = match generate_decrypted_pdf L (String a p) (detected_pii doc) passkey w with
    | (Ok decrypted_path, w') =>
        (Ok {| fr_path := decrypted_path;
               fr_filename := "decrypted_" +:+ filename doc;
               fr_media_type := "application/pdf" |},
         {| fs := fs w';
            documents_store :=
              <[document_id := set_status doc "decrypted"]> (documents_store w') |})
    | (Raised e, w') =>
        (if is_ValueError e
         then if str_contains "Invalid passkey" (str L e)
              then Raised (HTTPException 401 "Invalid passkey")
              else Raised (HTTPException 400 (str L e))
         else Raised (HTTPException 500 ("Decryption failed: " +:+ str L e)), w')
    end.
Proof.
  intros Hdoc Hp.
  unfold decrypt_document, try_except2_M, try_except_M, mbind, lookup_doc, store_doc,
    ret, raise.
  rewrite Hdoc, Hp. cbn [no_encrypted_path].
  change (default "" (Some (String a p))) with (String a p). cbv beta iota zeta.
  destruct (generate_decrypted_pdf L (String a p) (detected_pii doc) passkey w)
    as [[q|e] w']; [done|].
  destruct (is_ValueError e); [|done].
  by destruct (str_contains "Invalid passkey" (str L e)).
Qed.

End handler_runs.

(** X5.  When the original opens, [generate_encrypted_pdf] returns the path
    of the redacted document and leaves two new files behind: the sidecar,
    holding exactly the metadata of the session, and the redacted document,
    with as many pages as the original.  Every other path and the registry
    are as before. *)
Theorem redaction_writes_artifact_and_sidecar (L : Lib) (HL : LibLaws L)
    ent original_path pii_fields passkey (w : world L) pages mp :
  fs w !! original_path = Some (PdfFile pages) ->
  path_with_suffix L (encrypted_path_of L original_path) ".json" = Ok mp ->
  exists w',
    generate_encrypted_pdf L ent original_path pii_fields passkey w
    = (Ok (encrypted_path_of L original_path), w') /\
    fs w' !! mp = Some (JsonFile (metadata_of L pii_fields passkey ent)) /\
    (mp <> encrypted_path_of L original_path ->
     exists pages', fs w' !! encrypted_path_of L original_path = Some (PdfFile pages') /\
                    length pages' = length pages) /\
    (forall p, p <> mp -> p <> encrypted_path_of L original_path ->
               fs w' !! p = fs w !! p) /\
    documents_store w' = documents_store w.
Proof.
  intros Hfs Hmp. eexists. split; [by apply generate_encrypted_pdf_run|].
  cbn [fs documents_store]. split_and!.
  - apply lookup_insert_eq.
  - intros Hne. eexists. rewrite lookup_insert_ne, lookup_insert_eq by done.
    split; [done|]. apply length_map.
  - intros p Hp1 Hp2. by rewrite !lookup_insert_ne.
  - done.
Qed.

Lemma redaction_writes_artifact_and_sidecar_witness :
  exists w',
    generate_encrypted_pdf Demo.lib Demo.ent "uploads/report.pdf"
      [Demo.ssn_field; Demo.email_field] Demo.horse Samples.world0
    = (Ok "uploads/encrypted_report.pdf", w') /\
    fs w' !! "uploads/encrypted_report.json" = Some (JsonFile Demo.session2) /\
    ("uploads/encrypted_report.json" <> "uploads/encrypted_report.pdf" ->
     exists pages', fs w' !! "uploads/encrypted_report.pdf" = Some (PdfFile pages') /\
                    length pages' = 2) /\
    (forall p, p <> "uploads/encrypted_report.json" -> p <> "uploads/encrypted_report.pdf" ->
               fs w' !! p = fs Samples.world0 !! p) /\
    documents_store w' = documents_store Samples.world0.
Proof.
  apply (redaction_writes_artifact_and_sidecar Demo.lib demo_lib_laws Demo.ent
           "uploads/report.pdf" [Demo.ssn_field; Demo.email_field] Demo.horse
           Samples.world0 ["SSN 123-45-6789"; "john@example.org"]
           "uploads/encrypted_report.json"); reflexivity.
Defined.

(** X6.  When the original cannot be opened as a PDF, redaction fails after
    the fields have been encrypted but before anything is written: the file
    system and the registry are untouched, the document keeps its status
    and has no encrypted path, and the caller gets status 500. *)
Theorem unreadable_original_changes_nothing (L : Lib) (HL : LibLaws L)
    ent document_id passkey (w : world L) doc f fields :
  documents_store w !! document_id = Some doc ->
  detected_pii doc = Some (f :: fields) ->
  8 <= String.length passkey ->
  (forall pages, fs w !! original_path doc <> Some (PdfFile pages)) ->
  encrypt_document L ent document_id passkey w
  = (Raised (HTTPException 500
       ("Encryption failed: " +:+ ("Failed to generate encrypted PDF: "
          +:+ str L (fitz_open_error L (original_path doc))))), w).
Proof.
  intros Hdoc Hpii Hlen Hfs.
  rewrite (encrypt_document_past_checks L ent document_id passkey w doc f fields) by done.
  by rewrite generate_encrypted_pdf_no_pdf.
Qed.

Lemma unreadable_original_changes_nothing_witness :
  encrypt_document Demo.lib Demo.ent "3" Demo.horse Samples.world_lost
  = (Raised (HTTPException 500
       "Encryption failed: Failed to generate encrypted PDF: cannot open uploads/lost.pdf"),
     Samples.world_lost).
Proof.
  apply (unreadable_original_changes_nothing Demo.lib demo_lib_laws Demo.ent "3"
           Demo.horse Samples.world_lost Samples.doc_lost Demo.ssn_field []).
  - reflexivity.
  - reflexivity.
  - vm_compute. lia.
  - intros pages. vm_compute. discriminate.
Defined.

Section handler_runs_2.
Variable L : Lib.
Hypothesis HL : LibLaws L.

Lemma encrypt_document_run ent document_id passkey (w : world L) doc f fields pages mp :
  documents_store w !! document_id = Some doc ->
  detected_pii doc = Some (f :: fields) ->
  8 <= String.length passkey ->
  fs w !! original_path doc = Some (PdfFile pages) ->
  path_with_suffix L (encrypted_path_of L (original_path doc)) ".json" = Ok mp ->
  encrypt_document L ent document_id passkey w
  = (Ok {| fr_path := encrypted_path_of L (original_path doc);
           fr_filename := "encrypted_" +:+ filename doc;
           fr_media_type := "application/pdf" |},
     {| fs := <[mp := JsonFile (metadata_of L (f :: fields) passkey ent)]>
                (<[encrypted_path_of L (original_path doc) :=
                     PdfFile (redact_pages L (metadata_of L (f :: fields) passkey ent) pages)]>
                   (fs w));
        documents_store :=
          <[document_id := redacted_record doc (encrypted_path_of L (original_path doc))]>
            (documents_store w) |}).
Proof.
  intros Hdoc Hpii Hlen Hfs Hmp.
  rewrite (encrypt_document_past_checks L ent document_id passkey w doc f fields) by done.
  by rewrite (generate_encrypted_pdf_run L HL ent _ _ _ w pages mp).
Qed.

Lemma decrypt_document_run document_id passkey (w : world L) doc a p mp md m pages :
  documents_store w !! document_id = Some doc ->
  encrypted_path doc = Some (String a p) ->
  path_with_suffix L (String a p) ".json" = Ok mp ->
  fs w !! mp = Some (JsonFile md) ->
  decrypt_pii_fields L md passkey = Ok m ->
  fs w !! String a p = Some (PdfFile pages) ->
  exists pages',
    restore_pages L pages (field_mapping md) m = Ok pages' /\
    decrypt_document L document_id passkey w
    = (Ok {| fr_path := decrypted_path_of L (String a p);
             fr_filename := "decrypted_" +:+ filename doc;
             fr_media_type := "application/pdf" |},
       {| fs := <[decrypted_path_of L (String a p) := PdfFile pages']> (fs w);
          documents_store :=
            <[document_id := set_status doc "decrypted"]> (documents_store w) |}).
Proof.
  intros Hdoc Hp Hmp Hmd Hm Hpdf.
  destruct (generate_decrypted_pdf_run L (String a p) (detected_pii doc) passkey w
              mp md m pages Hmp Hmd Hm Hpdf) as (pages' & Hrestore & Hgen).
  exists pages'. split; [done|].
  rewrite (decrypt_document_past_checks L document_id passkey w doc a p) by done.
  by rewrite Hgen.
Qed.

(** Decrypting the metadata of a session with its passkey. *)
Lemma decrypt_session pii_fields passkey ent :
  decrypt_pii_fields L (metadata_of L pii_fields passkey ent) passkey
  = Ok (imap (fun i f => (make_placeholder_id i, original_value f)) pii_fields).
Proof.
  rewrite (decrypt_pii_fields_spec L _ _ _ (session_salt_decodes L HL _ _ _))
    by apply (session_key_ok L HL).
  rewrite session_key_eq. simpl.
  pose proof (session_key_ok L HL passkey None) as Hk.
  rewrite all_decrypt_session by done.
  f_equal. by apply decrypted_of_session.
Qed.

End handler_runs_2.

(** X7.  A successful [/api/encrypt] answers with the redacted document
    under the name "encrypted_" followed by the upload's name, and records
    it: the document gets status "encrypted" and the path of the redacted
    document, its other fields stay, no other document changes, and the
    sidecar holds the metadata of the session. *)
Theorem redaction_is_recorded (L : Lib) (HL : LibLaws L)
    ent document_id passkey (w : world L) doc f fields pages mp :
  documents_store w !! document_id = Some doc ->
  detected_pii doc = Some (f :: fields) ->
  8 <= String.length passkey ->
  fs w !! original_path doc = Some (PdfFile pages) ->
  path_with_suffix L (encrypted_path_of L (original_path doc)) ".json" = Ok mp ->
  exists w',
    encrypt_document L ent document_id passkey w
    = (Ok {| fr_path := encrypted_path_of L (original_path doc);
             fr_filename := "encrypted_" +:+ filename doc;
             fr_media_type := "application/pdf" |}, w') /\
    documents_store w' !! document_id
    = Some {| id := id doc; filename := filename doc; original_path := original_path doc;
              status := "encrypted"; detected_pii := detected_pii doc;
              encrypted_path := Some (encrypted_path_of L (original_path doc)) |} /\
    (forall other, other <> document_id ->
       documents_store w' !! other = documents_store w !! other) /\
    fs w' !! mp = Some (JsonFile (metadata_of L (f :: fields) passkey ent)).
Proof.
  intros Hdoc Hpii Hlen Hfs Hmp. eexists.
  split; [by eapply encrypt_document_run|].
  cbn [fs documents_store]. split_and!.
  - by rewrite lookup_insert_eq.
  - intros other Hne. by rewrite lookup_insert_ne.
  - apply lookup_insert_eq.
Qed.

Lemma redaction_is_recorded_witness :
  exists w',
    encrypt_document Demo.lib Demo.ent "1" Demo.horse Samples.world0
    = (Ok {| fr_path := "uploads/encrypted_report.pdf";
             fr_filename := "encrypted_report.pdf";
             fr_media_type := "application/pdf" |}, w') /\
    documents_store w' !! "1"
    = Some {| id := "1"; filename := "report.pdf"; original_path := "uploads/report.pdf";
              status := "encrypted";
              detected_pii := Some [Demo.ssn_field; Demo.email_field];
              encrypted_path := Some "uploads/encrypted_report.pdf" |} /\
    (forall other, other <> "1" ->
       documents_store w' !! other = documents_store Samples.world0 !! other) /\
    fs w' !! "uploads/encrypted_report.json" = Some (JsonFile Demo.session2).
Proof.
  apply (redaction_is_recorded Demo.lib demo_lib_laws Demo.ent "1" Demo.horse
           Samples.world0 Samples.doc_analysed Demo.ssn_field [Demo.email_field]
           ["SSN 123-45-6789"; "john@example.org"] "uploads/encrypted_report.json").
  - reflexivity.
  - reflexivity.
  - vm_compute. lia.
  - reflexivity.
  - reflexivity.
Defined.

(** X8.  Redact, then restore with the same passkey: when the sidecar has
    a path of its own, [/api/decrypt] on the world [/api/encrypt] left
    succeeds, writes the restored document with as many pages as the
    original, and sets the status to "decrypted" while the document keeps
    the path of its redacted version. *)
Theorem redact_then_restore (L : Lib) (HL : LibLaws L)
    ent document_id passkey (w : world L) doc f fields pages mp :
  documents_store w !! document_id = Some doc ->
  detected_pii doc = Some (f :: fields) ->
  8 <= String.length passkey ->
  fs w !! original_path doc = Some (PdfFile pages) ->
  path_with_suffix L (encrypted_path_of L (original_path doc)) ".json" = Ok mp ->
  mp <> encrypted_path_of L (original_path doc) ->
  encrypted_path_of L (original_path doc) <> "" ->
  exists w' w'' pages',
    (encrypt_document L ent document_id passkey w).2 = w' /\
    decrypt_document L document_id passkey w'
    = (Ok {| fr_path := decrypted_path_of L (encrypted_path_of L (original_path doc));
             fr_filename := "decrypted_" +:+ filename doc;
             fr_media_type := "application/pdf" |}, w'') /\
    fs w'' !! decrypted_path_of L (encrypted_path_of L (original_path doc))
    = Some (PdfFile pages') /\
    length pages' = length pages /\
    (status <$> documents_store w'' !! document_id) = Some "decrypted" /\
    (encrypted_path <$> documents_store w'' !! document_id)
    = Some (Some (encrypted_path_of L (original_path doc))).
Proof.
  intros Hdoc Hpii Hlen Hfs Hmp Hne Hnonempty.
  rewrite (encrypt_document_run L HL ent document_id passkey w doc f fields pages mp)
    by done.
  destruct (encrypted_path_of L (original_path doc)) as [|a p] eqn:Henc; [done|].
  set (md := metadata_of L (f :: fields) passkey ent).
  set (w' := {| fs := <[mp := JsonFile md]>
                        (<[String a p := PdfFile (redact_pages L md pages)]> (fs w));
                documents_store :=
                  <[document_id := redacted_record doc (String a p)]>
                    (documents_store w) |}).
  destruct (decrypt_document_run L document_id passkey w'
              (redacted_record doc (String a p)) a p mp md
              (imap (fun i f => (make_placeholder_id i, original_value f)) (f :: fields))
              (redact_pages L md pages))
    as (pages' & Hrestore & Hrun).
  - apply lookup_insert_eq.
  - reflexivity.
  - exact Hmp.
  - apply lookup_insert_eq.
  - by apply decrypt_session.
  - cbn [fs w']. rewrite lookup_insert_ne by done. apply lookup_insert_eq.
  - exists w'. eexists _, pages'. split; [reflexivity|]. split; [exact Hrun|].
    cbn [fs documents_store]. rewrite !lookup_insert_eq. split_and!; try done.
    destruct (restore_finds_every_placeholder_aux L md passkey _
                (redact_pages L md pages)
                (decrypt_session L HL (f :: fields) passkey ent)) as (pages'' & Hr & Hl).
    rewrite Hrestore in Hr. injection Hr as <-. rewrite Hl. apply length_map.
Qed.

Lemma redact_then_restore_witness :
  exists w'' pages',
    decrypt_document Demo.lib "1" Demo.horse Samples.world_redacted
    = (Ok {| fr_path := "uploads/decrypted_report.pdf";
             fr_filename := "decrypted_report.pdf";
             fr_media_type := "application/pdf" |}, w'') /\
    fs w'' !! "uploads/decrypted_report.pdf" = Some (PdfFile pages') /\
    length pages' = 2 /\
    (status <$> documents_store w'' !! "1") = Some "decrypted".
Proof.
  destruct (redact_then_restore Demo.lib demo_lib_laws Demo.ent "1" Demo.horse
              Samples.world0 Samples.doc_analysed Demo.ssn_field [Demo.email_field]
              ["SSN 123-45-6789"; "john@example.org"] "uploads/encrypted_report.json")
    as (w' & w'' & pages' & Hw' & Hrun & Hfs & Hlen & Hst & _).
  - reflexivity.
  - reflexivity.
  - vm_compute. lia.
  - reflexivity.
  - reflexivity.
  - discriminate.
  - discriminate.
  - exists w'', pages'. subst w'. by split_and!.
Defined.

(** X9.  Restoring can be repeated.  If the restored document has a path
    of its own, a second [/api/decrypt] with the same passkey finds the
    sidecar and the redacted document as the first one did and gives the
    same answer. *)
Theorem restore_is_repeatable (L : Lib) document_id passkey (w : world L)
    doc a p mp md m pages :
  documents_store w !! document_id = Some doc ->
  encrypted_path doc = Some (String a p) ->
  path_with_suffix L (String a p) ".json" = Ok mp ->
  fs w !! mp = Some (JsonFile md) ->
  decrypt_pii_fields L md passkey = Ok m ->
  fs w !! String a p = Some (PdfFile pages) ->
  decrypted_path_of L (String a p) <> mp ->
  decrypted_path_of L (String a p) <> String a p ->
  exists resp w' w'',
    decrypt_document L document_id passkey w = (Ok resp, w') /\
    decrypt_document L document_id passkey w' = (Ok resp, w'') /\
    fs w'' = fs w' /\
    fs w' !! String a p = fs w !! String a p /\
    fs w' !! mp = fs w !! mp.
Proof.
  intros Hdoc Hp Hmp Hmd Hm Hpdf Hne1 Hne2.
  destruct (decrypt_document_run L document_id passkey w doc a p mp md m pages)
    as (pages' & Hrestore & Hrun); try done.
  set (w' := {| fs := <[decrypted_path_of L (String a p) := PdfFile pages']> (fs w);
                documents_store :=
                  <[document_id := set_status doc "decrypted"]> (documents_store w) |}).
  destruct (decrypt_document_run L document_id passkey w' (set_status doc "decrypted")
              a p mp md m pages) as (pages'' & Hrestore' & Hrun'); try done.
  - apply lookup_insert_eq.
  - cbn [fs w']. by rewrite lookup_insert_ne.
  - cbn [fs w']. by rewrite lookup_insert_ne.
  - rewrite Hrestore in Hrestore'. injection Hrestore' as <-.
    eexists _, w', _. split; [exact Hrun|]. split; [exact Hrun'|].
    cbn [fs w']. split_and!.
    + apply insert_insert_eq.
    + by rewrite lookup_insert_ne.
    + by rewrite lookup_insert_ne.
Qed.

Lemma restore_is_repeatable_witness :
  exists resp w' w'',
    decrypt_document Demo.lib "1" Demo.horse Samples.world_redacted = (Ok resp, w') /\
    decrypt_document Demo.lib "1" Demo.horse w' = (Ok resp, w'') /\
    fs w'' = fs w' /\
    fs w' !! "uploads/encrypted_report.pdf"
    = fs Samples.world_redacted !! "uploads/encrypted_report.pdf" /\
    fs w' !! "uploads/encrypted_report.json"
    = fs Samples.world_redacted !! "uploads/encrypted_report.json".
Proof.
  apply (restore_is_repeatable Demo.lib "1" Demo.horse Samples.world_redacted
           (redacted_record Samples.doc_analysed "uploads/encrypted_report.pdf")
           "u" "ploads/encrypted_report.pdf" "uploads/encrypted_report.json"
           Demo.session2
           [("ENCRYPTED_FIELD_001", "123-45-6789");
            ("ENCRYPTED_FIELD_002", "john@example.org")]
           ["SSN 123-45-6789"; "john@example.org"]);
    try (vm_compute; reflexivity); vm_compute; discriminate.
Defined.

(** X10.  A passkey the metadata refuses gives status 401 with the detail
    "Invalid passkey": the [ValueError] of [decrypt_pii_fields] passes
    through [generate_decrypted_pdf] and reaches the handler's
    [except ValueError].  Nothing is written and the document keeps its
    status. *)
Theorem refused_passkey_is_unauthorized (L : Lib) document_id passkey (w : world L)
    doc a p mp md :
  documents_store w !! document_id = Some doc ->
  encrypted_path doc = Some (String a p) ->
  path_with_suffix L (String a p) ".json" = Ok mp ->
  fs w !! mp = Some (JsonFile md) ->
  decrypt_pii_fields L md passkey = Raised (ValueError "Invalid passkey provided") ->
  decrypt_document L document_id passkey w
  = (Raised (HTTPException 401 "Invalid passkey"), w).
Proof.
  intros Hdoc Hp Hmp Hmd Hm.
  rewrite (decrypt_document_past_checks L document_id passkey w doc a p) by done.
  by rewrite (generate_decrypted_pdf_rejects L (String a p) _ passkey w mp md).
Qed.

Lemma refused_passkey_is_unauthorized_witness :
  decrypt_document Demo.lib "1" "wrong-horse" Samples.world_redacted
  = (Raised (HTTPException 401 "Invalid passkey"), Samples.world_redacted).
Proof.
  apply (refused_passkey_is_unauthorized Demo.lib "1" "wrong-horse" Samples.world_redacted
           (redacted_record Samples.doc_analysed "uploads/encrypted_report.pdf")
           "u" "ploads/encrypted_report.pdf" "uploads/encrypted_report.json"
           Demo.session2); vm_compute; reflexivity.
Defined.

(** X11.  The status codes of the two handlers.  Whatever goes wrong,
    [/api/encrypt] answers 500, and [/api/decrypt] answers 400, 401 or 500:
    neither ever answers the 404 that both raise for an unknown document,
    which their own [except Exception] turns into 500 with the world as it
    was. *)
Theorem handlers_never_answer_404 (L : Lib) ent document_id passkey (w : world L) :
  (forall e w', encrypt_document L ent document_id passkey w = (Raised e, w') ->
     exists detail, e = HTTPException 500 detail) /\
  (forall e w', decrypt_document L document_id passkey w = (Raised e, w') ->
     exists status detail,
       e = HTTPException status detail /\ (status = 400 \/ status = 401 \/ status = 500)) /\
  (documents_store w !! document_id = None ->
     encrypt_document L ent document_id passkey w
     = (Raised (HTTPException 500
          ("Encryption failed: " +:+ HTTPException_str L 404 "Document not found")), w) /\
     decrypt_document L document_id passkey w
     = (Raised (HTTPException 500
          ("Decryption failed: " +:+ HTTPException_str L 404 "Document not found")), w)).
Proof.
  split_and!.
  - intros e w'. unfold encrypt_document, try_except_M.
    destruct (mbind _ _ w) as [[r|e'] w0]; [discriminate|].
    intros [= <- _]. by eexists.
  - intros e w'. unfold decrypt_document, try_except2_M, try_except_M.
    destruct (mbind _ _ w) as [[r|e'] w0]; [discriminate|].
    destruct (is_ValueError e'); [destruct (str_contains "Invalid passkey" (str L e'))|];
      intros [= <- _]; eexists _, _; (split; [reflexivity|]); auto.
  - intros Hnone. split.
    + unfold encrypt_document, try_except_M, mbind, lookup_doc. by rewrite Hnone.
    + unfold decrypt_document, try_except2_M, try_except_M, mbind, lookup_doc.
      by rewrite Hnone.
Qed.

Lemma handlers_never_answer_404_witness :
  encrypt_document Demo.lib Demo.ent "9" Demo.horse Samples.world0
  = (Raised (HTTPException 500 "Encryption failed: 404: Document not found"), Samples.world0) /\
  decrypt_document Demo.lib "9" Demo.horse Samples.world0
  = (Raised (HTTPException 500 "Decryption failed: 404: Document not found"), Samples.world0).
Proof.
  apply (handlers_never_answer_404 Demo.lib Demo.ent "9" Demo.horse Samples.world0).
  reflexivity.
Defined.

(** X12.  A document whose analysis found nothing cannot be redacted: an
    empty list of fields is taken for a missing analysis, so [/api/encrypt]
    stops at "Document must be analyzed first" whatever the passkey, and
    (the check being inside the handler's [try]) answers 500. *)
Theorem nothing_found_blocks_redaction (L : Lib) ent document_id passkey (w : world L) doc :
  documents_store w !! document_id = Some doc ->
  detected_pii doc = Some [] \/ detected_pii doc = None ->
  encrypt_document L ent document_id passkey w
  = (Raised (HTTPException 500
       ("Encryption failed: "
          +:+ HTTPException_str L 400 "Document must be analyzed first")), w).
Proof.
  intros Hdoc Hpii.
  unfold encrypt_document, try_except_M, mbind, lookup_doc. rewrite Hdoc.
  by destruct Hpii as [-> | ->].
Qed.

Lemma nothing_found_blocks_redaction_witness :
  encrypt_document Demo.lib Demo.ent "2" Demo.horse Samples.world0
  = (Raised (HTTPException 500
       "Encryption failed: 400: Document must be analyzed first"), Samples.world0).
Proof.
  apply (nothing_found_blocks_redaction Demo.lib Demo.ent "2" Demo.horse Samples.world0
           Samples.doc_nothing_found).
  - reflexivity.
  - by left.
Defined.

(** X13.  A sidecar that is there but is no JSON: the parser's error is a
    [ValueError], [generate_decrypted_pdf] re-raises it as it is, and the
    handler answers 400 with the parser's message as detail. *)
Theorem unreadable_sidecar_is_bad_request (L : Lib) document_id passkey (w : world L)
    doc a p mp pages :
  documents_store w !! document_id = Some doc ->
  encrypted_path doc = Some (String a p) ->
  path_with_suffix L (String a p) ".json" = Ok mp ->
  fs w !! mp = Some (PdfFile pages) ->
  is_ValueError (json_load_error L mp) = true ->
  str_contains "Invalid passkey" (str L (json_load_error L mp)) = false ->
  decrypt_document L document_id passkey w
  = (Raised (HTTPException 400 (str L (json_load_error L mp))), w).
Proof.
  intros Hdoc Hp Hmp Hfs Hcls Hmsg.
  rewrite (decrypt_document_past_checks L document_id passkey w doc a p) by done.
  unfold generate_decrypted_pdf, try_except2_M, try_except_M, mbind, lift,
    path_exists, json_load, fitz_open, write_file, ret, raise.
  rewrite Hmp. cbv beta iota zeta. rewrite Hfs.
  rewrite bool_decide_true by by eexists.
  cbv beta iota zeta. rewrite Hfs. cbv beta iota zeta.
  by rewrite Hcls, Hmsg, Hcls, Hmsg.
Qed.

Lemma unreadable_sidecar_is_bad_request_witness :
  decrypt_document Demo.lib "4" Demo.horse Samples.world_garbled
  = (Raised (HTTPException 400 "Expecting value: uploads/encrypted_scan.json"),
     Samples.world_garbled).
Proof.
  apply (unreadable_sidecar_is_bad_request Demo.lib "4" Demo.horse Samples.world_garbled
           Samples.doc_garbled "u" "ploads/encrypted_scan.pdf"
           "uploads/encrypted_scan.json" ["not json"]); reflexivity.
Defined.

(** * The helpers of [detect_pii] *)

Lemma dedup_loop_acc (l : list pii_field) seen acc :
  dedup_loop l seen acc = acc ++ dedup_loop l seen [].
Proof.
  revert seen acc. induction l as [|p l IH]; intros seen acc; simpl.
  - by rewrite app_nil_r.
  - destruct (decide (dedup_key p ∈ seen)); [apply IH|].
    rewrite (IH _ (acc ++ [p])), (IH _ ([] ++ [p])).
    by rewrite <- app_assoc.
Qed.

Lemma dedup_loop_cons p (l : list pii_field) seen :
  dedup_loop (p :: l) seen [] =
  if decide (dedup_key p ∈ seen) then dedup_loop l seen []
  else p :: dedup_loop l ({[dedup_key p]} ∪ seen) [].
Proof.
  simpl. destruct (decide (dedup_key p ∈ seen)); [done|].
  by rewrite dedup_loop_acc.
Qed.

Lemma dedup_loop_sublist (l : list pii_field) seen :
  dedup_loop l seen [] `sublist_of` l.
Proof.
  revert seen. induction l as [|p l IH]; intros seen.
  - constructor.
  - rewrite dedup_loop_cons. destruct (decide (dedup_key p ∈ seen)).
    + apply sublist_cons, IH.
    + apply sublist_skip, IH.
Qed.

Lemma dedup_loop_unseen (l : list pii_field) seen x :
  x ∈ dedup_loop l seen [] → dedup_key x ∉ seen.
Proof.
  revert seen. induction l as [|p l IH]; intros seen.
  - simpl. by intros ?%elem_of_nil.
  - rewrite dedup_loop_cons. destruct (decide (dedup_key p ∈ seen)) as [|Hp].
    + apply IH.
    + intros [->|Hx]%elem_of_cons; [done|].
      apply IH in Hx. intros Hs. apply Hx, elem_of_union. by right.
Qed.

Lemma dedup_loop_NoDup (l : list pii_field) seen :
  NoDup (dedup_key <$> dedup_loop l seen []).
Proof.
  revert seen. induction l as [|p l IH]; intros seen.
  - constructor.
  - rewrite dedup_loop_cons. destruct (decide (dedup_key p ∈ seen)) as [|Hp].
    + apply IH.
    + rewrite fmap_cons. constructor; [|apply IH].
      intros (x & Hk & Hx)%list_elem_of_fmap.
      apply dedup_loop_unseen in Hx. apply Hx, elem_of_union. left.
      apply elem_of_singleton. by symmetry.
Qed.

Lemma dedup_loop_elem (l : list pii_field) seen p :
  p ∈ dedup_loop l seen [] ↔
  ∃ l1 l2, l = l1 ++ (p :: l2) ∧ (dedup_key p ∉ seen) ∧
           ∀ q, q ∈ l1 → dedup_key q ≠ dedup_key p.
Proof.
  revert seen. induction l as [|a l IH]; intros seen.
  - simpl. split.
    + by intros ?%elem_of_nil.
    + intros (l1 & l2 & Hl & _). by destruct l1.
  - rewrite dedup_loop_cons. destruct (decide (dedup_key a ∈ seen)) as [Ha|Ha].
    + rewrite IH. split.
      * intros (l1 & l2 & -> & Hp & Hq). exists (a :: l1), l2.
        split; [done|]. split; [done|].
        intros q [->|Hin]%elem_of_cons; [|by apply Hq].
        intros Heq. apply Hp. by rewrite <- Heq.
      * intros (l1 & l2 & Hl & Hp & Hq). destruct l1 as [|b l1]; simpl in Hl.
        -- injection Hl as -> ->. done.
        -- injection Hl as -> ->. exists l1, l2. split; [done|].
           split; [done|]. intros q Hin. apply Hq, elem_of_cons. by right.
    + rewrite elem_of_cons, IH. split.
      * intros [->|(l1 & l2 & -> & Hp & Hq)].
        -- exists [], l. split; [done|]. split; [done|].
           by intros q ?%elem_of_nil.
        -- exists (a :: l1), l2. split; [done|].
           apply not_elem_of_union in Hp as [Hpa Hp]. split; [done|].
           intros q [->|Hin]%elem_of_cons; [|by apply Hq].
           intros Heq. apply Hpa, elem_of_singleton. by symmetry.
      * intros (l1 & l2 & Hl & Hp & Hq). destruct l1 as [|b l1]; simpl in Hl.
        -- injection Hl as -> ->. by left.
        -- injection Hl as -> ->. right. exists l1, l2. split; [done|]. split.
           ++ apply not_elem_of_union. split; [|done].
              intros Heq%elem_of_singleton.
              apply (Hq b); [apply elem_of_cons; by left|by symmetry].
           ++ intros q Hin. apply Hq, elem_of_cons. by right.
Qed.

Lemma dedup_loop_fixed (l : list pii_field) seen :
  NoDup (dedup_key <$> l) → (∀ x, x ∈ l → dedup_key x ∉ seen) →
  dedup_loop l seen [] = l.
Proof.
  revert seen. induction l as [|p l IH]; intros seen Hnd Hs; [done|].
  rewrite dedup_loop_cons. rewrite fmap_cons in Hnd.
  apply NoDup_cons in Hnd as [Hp Hnd].
  destruct (decide (dedup_key p ∈ seen)) as [Hin|_].
  - exfalso. apply (Hs p); [apply elem_of_cons; by left|done].
  - f_equal. apply IH; [done|]. intros x Hx.
    apply not_elem_of_union. split.
    + intros Heq%elem_of_singleton. apply Hp, list_elem_of_fmap.
      by exists x.
    + apply Hs, elem_of_cons. by right.
Qed.

Lemma filter_split {A} (P : A → bool) (l m1 m2 : list A) p :
  List.filter P l = m1 ++ (p :: m2) →
  ∃ l1 l2, l = l1 ++ (p :: l2) ∧ List.filter P l1 = m1 ∧ List.filter P l2 = m2.
Proof.
  revert m1. induction l as [|a l IH]; intros m1; simpl.
  - by destruct m1.
  - destruct (P a) eqn:Ha.
    + destruct m1 as [|b m1]; simpl; intros Hl; injection Hl as <- Hl.
      * exists [], l. by rewrite Hl.
      * destruct (IH _ Hl) as (l1 & l2 & -> & <- & <-).
        exists (a :: l1), l2. simpl. by rewrite Ha.
    + intros Hl. destruct (IH _ Hl) as (l1 & l2 & -> & <- & <-).
      exists (a :: l1), l2. simpl. by rewrite Ha.
Qed.

Lemma filter_sublist {A} (P : A → bool) (l : list A) :
  List.filter P l `sublist_of` l.
Proof.
  induction l as [|a l IH]; simpl; [constructor|].
  destruct (P a); by constructor.
Qed.

Lemma filter_all {A} (P : A → bool) (l : list A) :
  Forall (λ x, P x = true) l → List.filter P l = l.
Proof.
  induction 1 as [|a l Ha _ IH]; simpl; [done|]. by rewrite Ha, IH.
Qed.

Lemma filter_dedup_confident (pii_list : list pii_field) :
  Forall (λ pii, confident pii = true) (_filter_and_deduplicate_pii pii_list).
Proof.
  apply Forall_forall. intros x Hx. unfold _filter_and_deduplicate_pii in Hx.
  eapply elem_of_sublist in Hx; [|apply dedup_loop_sublist].
  apply list_elem_of_In, filter_In in Hx. tauto.
Qed.

(** X14. What [_filter_and_deduplicate_pii] returns is a selection of its
    argument in the argument's order, every selected field has a confidence
    of at least [MIN_CONFIDENCE], and no two selected fields have the same
    type and original value. *)
Theorem filter_dedup_sound (pii_list : list pii_field) :
  _filter_and_deduplicate_pii pii_list `sublist_of` pii_list ∧
  Forall (λ pii, PrimFloat.leb MIN_CONFIDENCE (confidence pii) = true)
         (_filter_and_deduplicate_pii pii_list) ∧
  NoDup ((λ pii, (type pii, original_value pii)) <$>
         _filter_and_deduplicate_pii pii_list).
Proof.
  split; [|split].
  - unfold _filter_and_deduplicate_pii.
    etrans; [apply dedup_loop_sublist|apply filter_sublist].
  - apply filter_dedup_confident.
  - apply dedup_loop_NoDup.
Qed.

(** X15. A field is returned by [_filter_and_deduplicate_pii] exactly when
    it occurs in the argument with a confidence of at least
    [MIN_CONFIDENCE] and no field before that occurrence has both such a
    confidence and the same type and original value: of several detections
    of one value the first confident one is kept, whatever the confidences
    of the later ones. *)
Theorem filter_dedup_keeps_first (pii_list : list pii_field) (pii : pii_field) :
  pii ∈ _filter_and_deduplicate_pii pii_list ↔
  ∃ before after,
    pii_list = before ++ (pii :: after) ∧
    PrimFloat.leb MIN_CONFIDENCE (confidence pii) = true ∧
    ∀ q, q ∈ before →
         PrimFloat.leb MIN_CONFIDENCE (confidence q) = true →
         (type q, original_value q) ≠ (type pii, original_value pii).
Proof.
  unfold _filter_and_deduplicate_pii. rewrite dedup_loop_elem. split.
  - intros (m1 & m2 & Hf & _ & Hq).
    assert (Hc : confident pii = true).
    { assert (Hin : In pii (List.filter confident pii_list)).
      { rewrite Hf. apply in_or_app. right. by left. }
      apply filter_In in Hin. tauto. }
    apply filter_split in Hf as (l1 & l2 & -> & <- & <-).
    exists l1, l2. split; [done|]. split; [done|].
    intros q Hin Hcq. apply Hq, list_elem_of_In, filter_In.
    split; [by apply list_elem_of_In|done].
  - intros (l1 & l2 & -> & Hc & Hq).
    exists (List.filter confident l1), (List.filter confident l2).
    split; [|split].
    + rewrite List.filter_app. simpl. unfold confident at 2. by rewrite Hc.
    + apply not_elem_of_empty.
    + intros q [Hin Hcq]%list_elem_of_In%filter_In.
      apply Hq; [by apply list_elem_of_In|done].
Qed.

(** X16. [_filter_and_deduplicate_pii] changes nothing in a list it has
    already produced. *)
Theorem filter_dedup_idempotent (pii_list : list pii_field) :
  _filter_and_deduplicate_pii (_filter_and_deduplicate_pii pii_list) =
  _filter_and_deduplicate_pii pii_list.
Proof.
  unfold _filter_and_deduplicate_pii at 1.
  rewrite filter_all by apply filter_dedup_confident.
  apply dedup_loop_fixed.
  - apply dedup_loop_NoDup.
  - intros x _. apply not_elem_of_empty.
Qed.

(** X17. Every score [_get_pattern_confidence] gives, for a listed type
    or by default, is at least the [MIN_CONFIDENCE] of
    [_filter_and_deduplicate_pii]: a field that carries such a score is
    returned when it is the only one. *)
Theorem pattern_confidence_passes (pii_type : string) (pii : pii_field) :
  confidence pii = _get_pattern_confidence pii_type →
  _filter_and_deduplicate_pii [pii] = [pii].
Proof.
  intros Hc.
  assert (Hle : PrimFloat.leb MIN_CONFIDENCE (_get_pattern_confidence pii_type) = true).
  { unfold _get_pattern_confidence, confidence_scores, dict_get.
    repeat (simpl; destruct (decide _); [reflexivity|]). reflexivity. }
  unfold _filter_and_deduplicate_pii. simpl. unfold confident at 1.
  rewrite Hc, Hle. simpl.
  destruct (decide _) as [Hin|_]; [|done].
  by apply elem_of_empty in Hin.
Qed.

Lemma pattern_confidence_passes_witness :
  _filter_and_deduplicate_pii [Samples2.zip_field] = [Samples2.zip_field].
Proof. apply (pattern_confidence_passes "zip_code"). reflexivity. Defined.


(** ** [_mask_value] *)

Lemma substring_list (n m : nat) (s : string) :
  list_ascii_of_string (substring n m s) =
  take m (drop n (list_ascii_of_string s)).
Proof.
  revert n m. induction s as [|c s IH]; intros [|n] [|m]; simpl; try done.
  by rewrite IH.
Qed.

Lemma length_list_ascii (s : string) :
  length (list_ascii_of_string s) = String.length s.
Proof. induction s; simpl; congruence. Qed.

Lemma list_ascii_inj (s t : string) :
  list_ascii_of_string s = list_ascii_of_string t → s = t.
Proof.
  intros H. rewrite <- (string_of_list_ascii_of_string s),
    <- (string_of_list_ascii_of_string t). by rewrite H.
Qed.

Lemma str_last_list (k : nat) (s : string) :
  (k ≤ String.length s)%nat →
  list_ascii_of_string (str_last k s) =
  drop (String.length s - k) (list_ascii_of_string s).
Proof.
  intros Hk. unfold str_last. rewrite substring_list.
  apply take_ge. rewrite length_drop, length_list_ascii. lia.
Qed.

Lemma str_last_length (k : nat) (s : string) :
  (k ≤ String.length s)%nat → String.length (str_last k s) = k.
Proof.
  intros Hk. rewrite <- length_list_ascii, str_last_list by done.
  rewrite length_drop, length_list_ascii. lia.
Qed.

Lemma str_last_last (j k : nat) (s : string) :
  (j ≤ k)%nat → (k ≤ String.length s)%nat → str_last j (str_last k s) = str_last j s.
Proof.
  intros Hj Hk. apply list_ascii_inj.
  rewrite str_last_list by (rewrite str_last_length; lia).
  rewrite str_last_length by done.
  rewrite !str_last_list by lia.
  rewrite drop_drop. f_equal. lia.
Qed.

Lemma split_once_None (sep : ascii) (s : string) :
  split_once sep s = None ↔ sep ∉ list_ascii_of_string s.
Proof.
  induction s as [|a s IH]; simpl.
  - split; [intros _; apply not_elem_of_nil|done].
  - rewrite not_elem_of_cons. destruct (decide (a = sep)) as [->|Hne].
    + split; [done|]. by intros [? _].
    + destruct (split_once sep s) as [[l r]|].
      * split; [done|]. intros [_ H]. by apply IH in H.
      * split; [|done]. intros _. split; [done|]. by apply IH.
Qed.

(** X18. [_mask_value] ends without a [return], so that the caller gets
    [None] for a mask, in exactly two cases: the type is one of the SSN,
    phone and credit-card names and the value has fewer than four
    characters, or the type is one of the e-mail names and the value has
    no at-sign.  For every other type it always gives a mask. *)
Theorem mask_value_none (value pii_type : string) :
  _mask_value value pii_type = None ↔
  (pii_type ∈ ["ssn"; "Social Security Number"; "phone"; "Phone Number";
               "credit_card"; "Credit Card Number"] ∧
   (String.length value < 4)%nat) ∨
  (pii_type ∈ ["email"; "Email Address"] ∧
   "@"%char ∉ list_ascii_of_string value).
Proof.
  rewrite <- split_once_None. unfold _mask_value, one_of.
  rewrite !elem_of_cons, !elem_of_nil.
  destruct (Nat.leb_spec 4 (String.length value));
    destruct (4 <? String.length value)%nat;
    destruct (split_once "@" value) as [[u d]|];
    repeat case_bool_decide; subst; simpl;
    (split; [try done; intros _|try done; intros H']);
    try (left; split; [tauto|lia]);
    try (right; split; [tauto|done]);
    try (destruct H' as [[_ H']|[_ H']]; [lia|done]);
    try (destruct H' as [[H' _]|[H' _]];
         repeat (destruct H' as [H'|H']; [done|]); done);
    try (destruct H' as [[H' _]|[_ H']];
         [repeat (destruct H' as [H'|H']; [done|]); done|done]);
    try (destruct H' as [[_ H']|[H' _]];
         [lia|repeat (destruct H' as [H'|H']; [done|]); done]).
Qed.

(** X19. Outside the e-mail types, the mask of a value of more than four
    characters shows nothing of it but its first two and its last four
    characters: two such values that agree there get the same mask,
    whatever lies between and however long they are. *)
Theorem mask_shows_only_ends (value value' pii_type : string) :
  pii_type ≠ "email" → pii_type ≠ "Email Address" →
  (4 < String.length value)%nat → (4 < String.length value')%nat →
  str_first 2 value = str_first 2 value' →
  str_last 4 value = str_last 4 value' →
  _mask_value value pii_type = _mask_value value' pii_type.
Proof.
  intros He1 He2 Hl Hl' Hf Hb.
  assert (Hb2 : str_last 2 value = str_last 2 value').
  { rewrite <- (str_last_last 2 4 value), <- (str_last_last 2 4 value') by lia.
    by rewrite Hb. }
  unfold _mask_value, one_of.
  destruct (Nat.leb_spec 4 (String.length value)); [|lia].
  destruct (Nat.leb_spec 4 (String.length value')); [|lia].
  destruct (Nat.ltb_spec 4 (String.length value)); [|lia].
  destruct (Nat.ltb_spec 4 (String.length value')); [|lia].
  rewrite Hf, Hb, Hb2.
  repeat case_bool_decide; simpl; done.
Qed.

Lemma mask_shows_only_ends_witness :
  _mask_value "4111-1111-1111-1234" "credit_card" =
  _mask_value "4199 0000 0000 1234" "credit_card" ∧
  _mask_value "John Smith" "PERSON" = _mask_value "Josephine Goldsmith" "PERSON".
Proof.
  split.
  - apply mask_shows_only_ends; [done|done|simpl; lia|simpl; lia|done|done].
  - apply mask_shows_only_ends; [done|done|simpl; lia|simpl; lia|done|].
    vm_compute. reflexivity.
Defined.


(** * Text extraction, [process_ocr] *)

Lemma str_app_assoc (a b c : string) : (a +:+ b) +:+ c = a +:+ (b +:+ c).
Proof.
  induction a as [|x a IH]; [done|].
  change (String x ((a +:+ b) +:+ c) = String x (a +:+ (b +:+ c))).
  by rewrite IH.
Qed.

Lemma str_app_nil_r (a : string) : a +:+ "" = a.
Proof.
  induction a as [|x a IH]; [done|].
  change (String x (a +:+ "") = String x a). by rewrite IH.
Qed.

Lemma rstrip_empty (s : string) :
  rstrip s = "" ↔ forallb isspace (list_ascii_of_string s) = true.
Proof.
  induction s as [|c s IH]; simpl; [done|].
  destruct (rstrip s) as [|r rs].
  - destruct (isspace c); simpl.
    + split; [intros _; by apply IH|done].
    + split; done.
  - split; [done|]. intros [_ H]%andb_true_iff. by apply IH in H.
Qed.

Lemma lstrip_spaces (s : string) :
  forallb isspace (list_ascii_of_string (lstrip s)) =
  forallb isspace (list_ascii_of_string s).
Proof.
  induction s as [|c s IH]; simpl; [done|].
  destruct (isspace c) eqn:Hc; simpl; [done|]. by rewrite Hc.
Qed.

Lemma truthy_strip (s : string) :
  truthy (str_strip s) = negb (forallb isspace (list_ascii_of_string s)).
Proof.
  unfold truthy, str_strip. f_equal. rewrite <- lstrip_spaces.
  destruct (forallb isspace (list_ascii_of_string (lstrip s))) eqn:Hb.
  - apply bool_decide_eq_true, rstrip_empty, Hb.
  - apply bool_decide_eq_false. intros H%rstrip_empty. congruence.
Qed.

Lemma has_text_truthy (s : string) :
  (∃ c, c ∈ list_ascii_of_string s ∧ isspace c = false) ↔
  truthy (str_strip s) = true.
Proof.
  rewrite truthy_strip, negb_true_iff. split.
  - intros (c & Hin & Hc). apply not_true_iff_false.
    intros H. rewrite forallb_forall in H.
    apply list_elem_of_In, H in Hin. congruence.
  - induction (list_ascii_of_string s) as [|a l IH]; simpl; [done|].
    destruct (isspace a) eqn:Ha; simpl.
    + intros (c & Hin & Hc)%IH. exists c. split; [|done].
      apply elem_of_cons. by right.
    + intros _. exists a. split; [|done]. apply elem_of_cons. by left.
Qed.

Section ocr.
Variable L : Lib.
Variable T : TextLib L.

Lemma ocr_pages_text (pages : list (page L)) (texts : list string) n acc :
  Forall2 (text_page T) pages texts →
  ocr_pages T pages n acc = Ok (acc +:+ text_of_pages n texts).
Proof.
  intros H. revert n acc.
  induction H as [|pg text pages texts [Hg Hs] _ IH]; intros n acc; simpl.
  - by rewrite str_app_nil_r.
  - rewrite Hg. simpl. apply has_text_truthy in Hs. rewrite Hs.
    rewrite IH. by rewrite str_app_assoc.
Qed.

Lemma ocr_pages_Ok_inv (pages : list (page L)) n acc t :
  ocr_pages T pages n acc = Ok t →
  ∃ texts, Forall2 (text_page T) pages texts ∧ t = acc +:+ text_of_pages n texts.
Proof.
  revert n acc. induction pages as [|pg pages IH]; intros n acc; simpl.
  - intros [= <-]. exists []. split; [constructor|]. by rewrite str_app_nil_r.
  - destruct (get_text T pg) as [text|e] eqn:Hg; simpl; [|done].
    destruct (truthy (str_strip text)) eqn:Hs.
    + intros (texts & Hall & ->)%IH. exists (text :: texts). split.
      * constructor; [|done]. split; [done|]. by apply has_text_truthy.
      * simpl. by rewrite str_app_assoc.
    + by destruct (get_pixmap_ppm T pg).
Qed.

Lemma ocr_pages_no_text (before after : list (page L)) texts pg text n acc :
  Forall2 (text_page T) before texts →
  get_text T pg = Ok text →
  (∀ c, c ∈ list_ascii_of_string text → isspace c = true) →
  ocr_pages T (before ++ pg :: after) n acc =
  Raised (match get_pixmap_ppm T pg with
          | Ok _ => NameError "name 'io' is not defined"
          | Raised e => e
          end).
Proof.
  intros H Hg Hs. revert n acc.
  induction H as [|pg' text' pages texts' [Hg' Hs'] _ IH]; intros n acc; simpl.
  - rewrite Hg. simpl.
    destruct (truthy (str_strip text)) eqn:Ht.
    + apply has_text_truthy in Ht as (c & Hin & Hc).
      apply Hs in Hin. congruence.
    + by destruct (get_pixmap_ppm T pg).
  - rewrite Hg'. simpl. apply has_text_truthy in Hs'. rewrite Hs'. apply IH.
Qed.

Lemma process_ocr_world (file_path : string) (w : world L) :
  process_ocr T file_path w = ((process_ocr T file_path w).1, w).
Proof.
  unfold process_ocr, try_except_M, mbind, fitz_open, lift, ret, raise.
  destruct (fs w !! file_path) as [[pages|md]|]; try done.
  by destruct (ocr_pages T pages 0 "").
Qed.

Lemma process_ocr_fs (file_path : string) (w w2 : world L) :
  fs w2 = fs w →
  (process_ocr T file_path w2).1 = (process_ocr T file_path w).1.
Proof.
  intros Hfs.
  unfold process_ocr, try_except_M, mbind, fitz_open, lift, ret, raise.
  rewrite Hfs.
  destruct (fs w !! file_path) as [[pages|md]|]; try done.
  by destruct (ocr_pages T pages 0 "").
Qed.

Lemma process_ocr_no_text (file_path : string) (w : world L)
    (before after : list (page L)) texts pg text :
  fs w !! file_path = Some (PdfFile (before ++ pg :: after)) →
  Forall2 (text_page T) before texts →
  get_text T pg = Ok text →
  (∀ c, c ∈ list_ascii_of_string text → isspace c = true) →
  process_ocr T file_path w =
  (Raised (Exception ("Failed to extract text from PDF: " +:+
             match get_pixmap_ppm T pg with
             | Ok _ => "name 'io' is not defined"
             | Raised e => str L e
             end)), w).
Proof.
  intros Hf Hb Hg Hs.
  unfold process_ocr, try_except_M, mbind, fitz_open, lift, ret, raise.
  rewrite Hf. rewrite (ocr_pages_no_text _ _ _ _ _ _ _ Hb Hg Hs).
  by destruct (get_pixmap_ppm T pg).
Qed.

End ocr.

(** X20. [process_ocr] returns exactly when the path holds a PDF every
    page of which has text of its own, that is, text with a character
    that is no white space.  What it returns is then the texts of the
    pages in order, each under its header with the page number counted
    from one, and it leaves files and registry as they are. *)
Theorem ocr_returns_text_of_text_pages (L : Lib) (T : TextLib L)
    (file_path text : string) (w w' : world L) :
  process_ocr T file_path w = (Ok text, w') ↔
  w' = w ∧
  ∃ pages texts,
    fs w !! file_path = Some (PdfFile pages) ∧
    Forall2 (λ pg t, get_text T pg = Ok t ∧
                     ∃ c, c ∈ list_ascii_of_string t ∧ isspace c = false)
            pages texts ∧
    text = text_of_pages 0 texts.
Proof.
  split.
  - rewrite process_ocr_world. intros [= Hr <-]. split; [done|].
    revert Hr.
    unfold process_ocr, try_except_M, mbind, fitz_open, lift, ret, raise.
    destruct (fs w !! file_path) as [[pages|md]|]; try done.
    destruct (ocr_pages T pages 0 "") as [t|e] eqn:Ho; [|done].
    simpl. intros [= <-].
    apply ocr_pages_Ok_inv in Ho as (texts & Hall & ->).
    by exists pages, texts.
  - intros (-> & pages & texts & Hf & Hall & ->).
    unfold process_ocr, try_except_M, mbind, fitz_open, lift, ret, raise.
    rewrite Hf. by rewrite (ocr_pages_text L T _ _ 0 "" Hall).
Qed.

(** X21. A page without text of its own makes [process_ocr] fail: the
    fallback renders the page and then names the module [io], which
    ocr.py never imports.  With text pages before it, and whatever comes
    after it, the call raises [Exception] with the message of that
    [NameError], or of the error of the rendering, and changes nothing. *)
Theorem page_without_text_fails (L : Lib) (T : TextLib L)
    (file_path : string) (w : world L)
    (before after : list (page L)) (texts : list string)
    (pg : page L) (text : string) :
  fs w !! file_path = Some (PdfFile (before ++ pg :: after)) →
  Forall2 (λ pg t, get_text T pg = Ok t ∧
                   ∃ c, c ∈ list_ascii_of_string t ∧ isspace c = false)
          before texts →
  get_text T pg = Ok text →
  (∀ c, c ∈ list_ascii_of_string text → isspace c = true) →
  process_ocr T file_path w =
  (Raised (Exception ("Failed to extract text from PDF: " +:+
             match get_pixmap_ppm T pg with
             | Ok _ => "name 'io' is not defined"
             | Raised e => str L e
             end)), w).
Proof. apply process_ocr_no_text. Qed.

Lemma page_without_text_fails_witness :
  process_ocr Samples3.text_lib "uploads/scan.pdf" Samples3.world_scan =
  (Raised (Exception
     "Failed to extract text from PDF: name 'io' is not defined"),
   Samples3.world_scan).
Proof.
  apply (page_without_text_fails Demo.lib Samples3.text_lib "uploads/scan.pdf"
           Samples3.world_scan ["Page one"] ["Page three"] ["Page one"] "  " "  ").
  - reflexivity.
  - constructor; [|constructor]. split; [reflexivity|].
    exists "P"%char. split; [|reflexivity]. apply elem_of_cons. by left.
  - reflexivity.
  - intros c Hc. simpl in Hc.
    apply elem_of_cons in Hc as [->|Hc]; [reflexivity|].
    apply elem_of_cons in Hc as [->|Hc]; [reflexivity|].
    by apply elem_of_nil in Hc.
Defined.


(** * Analysis, [analyze_document] *)

Section analysis.
Variable L : Lib.
Variable T : TextLib L.

Lemma set_status_twice (doc : doc_record) (s s' : string) :
  set_status (set_status doc s) s' = set_status doc s'.
Proof. reflexivity. Qed.

Lemma detect_pii_Ok_inv (text file_path : string) fields :
  detect_pii T text file_path = Ok fields ↔
  ∃ found, found_pii T text = Ok found ∧
           fields = _filter_and_deduplicate_pii found.
Proof.
  unfold detect_pii. destruct (found_pii T text) as [found|e]; simpl.
  - split.
    + intros [= <-]. by exists found.
    + intros (found' & [= <-] & ->). done.
  - split; [done|]. by intros (? & ? & _).
Qed.

(** What the handler does with a registered document, by the outcome of
    the extraction and of the detection. *)
Lemma analyze_document_run (document_id : string) (w : world L) doc :
  documents_store w !! document_id = Some doc →
  analyze_document T document_id w =
  match (process_ocr T (original_path doc) w).1 with
  | Ok text =>
      match detect_pii T text (original_path doc) with
      | Ok fields =>
          (Ok (set_status (set_detected_pii doc fields) "analyzed", fields),
           {| fs := fs w;
              documents_store :=
                <[document_id := set_status (set_detected_pii doc fields) "analyzed"]>
                  (documents_store w) |})
      | Raised e =>
          (Raised (HTTPException 500 ("Analysis failed: " +:+ str L e)),
           {| fs := fs w;
              documents_store :=
                <[document_id := set_status doc "error"]> (documents_store w) |})
      end
  | Raised e =>
      (Raised (HTTPException 500 ("Analysis failed: " +:+ str L e)),
       {| fs := fs w;
          documents_store :=
            <[document_id := set_status doc "error"]> (documents_store w) |})
  end.
Proof.
  intros Hdoc.
  unfold analyze_document, try_except_M, mbind, lookup_doc, store_doc.
  rewrite Hdoc. cbv beta iota zeta.
  rewrite process_ocr_world.
  rewrite (process_ocr_fs L T _ w) by done.
  change (original_path (set_status doc "processing")) with (original_path doc).
  destruct (process_ocr T (original_path doc) w).1 as [text|e]; cbn.
  - destruct (detect_pii T text (original_path doc)) as [fields|e]; cbn.
    + do 2 f_equal. apply insert_insert_eq.
    + rewrite lookup_insert_eq. cbn. do 2 f_equal. apply insert_insert_eq.
  - rewrite lookup_insert_eq. cbn. do 2 f_equal. apply insert_insert_eq.
Qed.

Lemma analyze_document_unknown (document_id : string) (w : world L) :
  documents_store w !! document_id = None →
  analyze_document T document_id w =
  (Raised (HTTPException 500
     ("Analysis failed: " +:+ HTTPException_str L 404 "Document not found")), w).
Proof.
  intros Hdoc.
  unfold analyze_document, try_except_M, mbind, lookup_doc, store_doc.
  rewrite Hdoc. cbn. by rewrite Hdoc.
Qed.

End analysis.

(** X22. The analysis of a registered document succeeds exactly when the
    text extraction and the detectors both do.  It then answers with the
    fields the detectors found, filtered and deduplicated, stores them in
    the record and sets its status to "analyzed"; nothing else of the
    record, no other record and no file changes. *)
Theorem analysis_success (L : Lib) (T : TextLib L) (document_id : string)
    (w w' : world L) (doc doc' : doc_record) (fields : list pii_field) :
  documents_store w !! document_id = Some doc →
  analyze_document T document_id w = (Ok (doc', fields), w') ↔
  ∃ text found,
    (process_ocr T (original_path doc) w).1 = Ok text ∧
    found_pii T text = Ok found ∧
    fields = _filter_and_deduplicate_pii found ∧
    doc' = set_status (set_detected_pii doc fields) "analyzed" ∧
    w' = {| fs := fs w;
            documents_store := <[document_id := doc']> (documents_store w) |}.
Proof.
  intros Hdoc. rewrite (analyze_document_run L T _ _ _ Hdoc). split.
  - destruct (process_ocr T (original_path doc) w).1 as [text|e]; [|done].
    destruct (detect_pii T text (original_path doc)) as [fields'|e] eqn:Hd;
      [|done].
    intros [= <- <- <-]. apply detect_pii_Ok_inv in Hd as (found & Hf & ->).
    by exists text, found.
  - intros (text & found & -> & Hf & -> & -> & ->).
    assert (Hd : detect_pii T text (original_path doc)
                 = Ok (_filter_and_deduplicate_pii found)).
    { apply detect_pii_Ok_inv. by exists found. }
    by rewrite Hd.
Qed.

Lemma analysis_success_witness :
  analyze_document Samples3.text_lib "1" Samples3.world_uploaded
  = (Ok (set_status (set_detected_pii Samples3.doc_uploaded
                       [Demo.ssn_field; Demo.email_field]) "analyzed",
         [Demo.ssn_field; Demo.email_field]),
     {| fs := fs Samples3.world_uploaded;
        documents_store :=
          <["1" := set_status (set_detected_pii Samples3.doc_uploaded
                                 [Demo.ssn_field; Demo.email_field]) "analyzed"]>
            (documents_store Samples3.world_uploaded) |}).
Proof.
  apply (analysis_success Demo.lib Samples3.text_lib "1" Samples3.world_uploaded
           _ Samples3.doc_uploaded); [reflexivity|].
  eexists _, _. split; [vm_compute; reflexivity|].
  split; [vm_compute; reflexivity|].
  split; [vm_compute; reflexivity|]. split; reflexivity.
Defined.

(** X23. A failed analysis of a registered document answers 500, leaves
    the record with the status "error" and touches nothing else: the
    fields of an earlier analysis, the path of an earlier redaction, the
    other records and the files stay as they were. *)
Theorem failed_analysis_keeps_earlier_findings (L : Lib) (T : TextLib L)
    (document_id : string) (w : world L) (doc : doc_record) (e : exn) :
  documents_store w !! document_id = Some doc →
  (analyze_document T document_id w).1 = Raised e →
  (∃ reason, e = HTTPException 500 ("Analysis failed: " +:+ reason)) ∧
  (analyze_document T document_id w).2 =
    {| fs := fs w;
       documents_store :=
         <[document_id := set_status doc "error"]> (documents_store w) |}.
Proof.
  intros Hdoc. rewrite (analyze_document_run L T _ _ _ Hdoc).
  destruct (process_ocr T (original_path doc) w).1 as [text|e'].
  - destruct (detect_pii T text (original_path doc)) as [fields|e']; [done|].
    simpl. intros [= <-]. split; [by eexists|done].
  - simpl. intros [= <-]. split; [by eexists|done].
Qed.

Lemma failed_analysis_keeps_earlier_findings_witness :
  (∃ reason,
     HTTPException 500
       "Analysis failed: Failed to extract text from PDF: name 'io' is not defined"
     = HTTPException 500 ("Analysis failed: " +:+ reason)) ∧
  (analyze_document Samples3.text_lib "1" Samples3.world_scan).2 =
    {| fs := fs Samples3.world_scan;
       documents_store :=
         <["1" := set_status Samples3.doc_scan "error"]>
           (documents_store Samples3.world_scan) |}.
Proof.
  apply (failed_analysis_keeps_earlier_findings Demo.lib Samples3.text_lib "1"
           Samples3.world_scan Samples3.doc_scan).
  - reflexivity.
  - vm_compute. reflexivity.
Defined.

(** X24. [/api/analyze] never answers 404: whatever goes wrong, the
    unknown identifier included, comes out of the handler's own [except]
    as a 500; and for an unknown identifier nothing is stored. *)
Theorem analysis_never_answers_404 (L : Lib) (T : TextLib L)
    (document_id : string) (w : world L) (e : exn) :
  (analyze_document T document_id w).1 = Raised e →
  (∃ reason, e = HTTPException 500 ("Analysis failed: " +:+ reason)) ∧
  (documents_store w !! document_id = None →
   analyze_document T document_id w =
   (Raised (HTTPException 500
      ("Analysis failed: " +:+ HTTPException_str L 404 "Document not found")),
    w)).
Proof.
  intros He. split; [|apply analyze_document_unknown].
  destruct (documents_store w !! document_id) as [doc|] eqn:Hdoc.
  - rewrite (analyze_document_run L T _ _ _ Hdoc) in He.
    destruct (process_ocr T (original_path doc) w).1 as [text|e'].
    + destruct (detect_pii T text (original_path doc)) as [fields|e']; [done|].
      simpl in He. injection He as <-. by eexists.
    + simpl in He. injection He as <-. by eexists.
  - rewrite (analyze_document_unknown L T _ _ Hdoc) in He.
    simpl in He. injection He as <-. by eexists.
Qed.

Lemma analysis_never_answers_404_witness :
  (∃ reason,
     HTTPException 500 "Analysis failed: 404: Document not found"
     = HTTPException 500 ("Analysis failed: " +:+ reason)) ∧
  (documents_store Samples3.world_scan !! "7" = None →
   analyze_document Samples3.text_lib "7" Samples3.world_scan =
   (Raised (HTTPException 500
      ("Analysis failed: " +:+ HTTPException_str Demo.lib 404 "Document not found")),
    Samples3.world_scan)).
Proof.
  apply (analysis_never_answers_404 Demo.lib Samples3.text_lib "7" Samples3.world_scan).
  vm_compute. reflexivity.
Defined.

(** X25. A scan cannot be processed at all: for a freshly uploaded
    document whose PDF has a page without text of its own, [/api/analyze]
    answers 500 with the message of the missing import and marks the
    record "error", and [/api/encrypt] on what it leaves behind stops at
    "Document must be analyzed first", whatever the passkey. *)
Theorem scan_cannot_be_redacted (L : Lib) (T : TextLib L) (ent : nat → nonce)
    (document_id passkey : string) (w : world L) (doc : doc_record)
    (before after : list (page L)) (texts : list string) (pg : page L)
    (text : string) (img : bytes) :
  documents_store w !! document_id = Some doc →
  detected_pii doc = None →
  fs w !! original_path doc = Some (PdfFile (before ++ pg :: after)) →
  Forall2 (λ pg t, get_text T pg = Ok t ∧
                   ∃ c, c ∈ list_ascii_of_string t ∧ isspace c = false)
          before texts →
  get_text T pg = Ok text →
  (∀ c, c ∈ list_ascii_of_string text → isspace c = true) →
  get_pixmap_ppm T pg = Ok img →
  ∃ w',
    analyze_document T document_id w =
      (Raised (HTTPException 500
         "Analysis failed: Failed to extract text from PDF: name 'io' is not defined"),
       w') ∧
    documents_store w' !! document_id = Some (set_status doc "error") ∧
    encrypt_document L ent document_id passkey w' =
      (Raised (HTTPException 500
         ("Encryption failed: " +:+
          HTTPException_str L 400 "Document must be analyzed first")), w').
Proof.
  intros Hdoc Hpii Hfs Hb Hg Hs Himg.
  eexists. split; [|split].
  - rewrite (analyze_document_run L T _ _ _ Hdoc).
    rewrite (process_ocr_no_text L T _ _ _ _ _ _ _ Hfs Hb Hg Hs), Himg.
    reflexivity.
  - apply lookup_insert_eq.
  - unfold encrypt_document, try_except_M, mbind, lookup_doc.
    cbn [documents_store]. rewrite lookup_insert_eq.
    cbn [set_status detected_pii]. by rewrite Hpii.
Qed.

Lemma scan_cannot_be_redacted_witness :
  ∃ w',
    analyze_document Samples3.text_lib "1" Samples3.world_scan =
      (Raised (HTTPException 500
         "Analysis failed: Failed to extract text from PDF: name 'io' is not defined"),
       w') ∧
    documents_store w' !! "1" = Some (set_status Samples3.doc_scan "error") ∧
    encrypt_document Demo.lib Demo.ent "1" Demo.horse w' =
      (Raised (HTTPException 500
         ("Encryption failed: " +:+
          HTTPException_str Demo.lib 400 "Document must be analyzed first")), w').
Proof.
  apply (scan_cannot_be_redacted Demo.lib Samples3.text_lib Demo.ent "1" Demo.horse
           Samples3.world_scan Samples3.doc_scan
           ["Page one"] ["Page three"] ["Page one"] "  " "  " []).
  - reflexivity.
  - reflexivity.
  - reflexivity.
  - constructor; [|constructor]. split; [reflexivity|].
    exists "P"%char. split; [|reflexivity]. apply elem_of_cons. by left.
  - reflexivity.
  - intros c Hc. simpl in Hc.
    apply elem_of_cons in Hc as [->|Hc]; [reflexivity|].
    apply elem_of_cons in Hc as [->|Hc]; [reflexivity|].
    by apply elem_of_nil in Hc.
  - reflexivity.
Defined.


(** * Uploads and the registry *)

Section registry.
Variable L : Lib.
Variable T : TextLib L.

Lemma str_of_nat_inj (n m : nat) : str_of_nat n = str_of_nat m → n = m.
Proof.
  intros H. apply (f_equal nat_of_str) in H.
  rewrite !nat_of_str_of_nat in H. congruence.
Qed.

Lemma keeps_ret {A} (a : A) : keeps_store (L := L) (ret a).
Proof. done. Qed.

Lemma keeps_raise {A} (e : exn) : keeps_store (L := L) (A := A) (raise e).
Proof. done. Qed.

Lemma keeps_lift {A} (r : result A) : keeps_store (L := L) (lift r).
Proof. done. Qed.

Lemma keeps_write_file (path : string) (f : file L) :
  keeps_store (write_file path f).
Proof. done. Qed.

Lemma keeps_path_exists (path : string) : keeps_store (L := L) (path_exists path).
Proof. done. Qed.

Lemma keeps_fitz_open (path : string) : keeps_store (L := L) (fitz_open path).
Proof.
  intros w. unfold fitz_open. by destruct (fs w !! path) as [[?|?]|].
Qed.

Lemma keeps_json_load (path : string) : keeps_store (L := L) (json_load path).
Proof.
  intros w. unfold json_load. by destruct (fs w !! path) as [[?|?]|].
Qed.

Lemma keeps_mbind {A B} (c : M L A) (k : A → M L B) :
  keeps_store c → (∀ a, keeps_store (k a)) → keeps_store (mbind c k).
Proof.
  intros Hc Hk w. unfold mbind. specialize (Hc w).
  destruct (c w) as [[a|e] w1]; simpl in *; [|done].
  by rewrite Hk.
Qed.

Lemma keeps_try_except {A} (body : M L A) (handler : exn → M L A) :
  keeps_store body → (∀ e, keeps_store (handler e)) →
  keeps_store (try_except_M body handler).
Proof.
  intros Hc Hk w. unfold try_except_M. specialize (Hc w).
  destruct (body w) as [[a|e] w1]; simpl in *; [done|].
  by rewrite Hk.
Qed.

Lemma keeps_generate_encrypted_pdf ent original_path pii_fields passkey :
  keeps_store (generate_encrypted_pdf L ent original_path pii_fields passkey).
Proof.
  unfold generate_encrypted_pdf.
  apply keeps_try_except; [|intros e; apply keeps_raise].
  apply keeps_mbind; [apply keeps_lift|intros md].
  apply keeps_mbind; [apply keeps_fitz_open|intros pages].
  apply keeps_mbind; [apply keeps_write_file|intros _].
  apply keeps_mbind; [apply keeps_lift|intros mp].
  apply keeps_mbind; [apply keeps_write_file|intros _].
  apply keeps_ret.
Qed.

Lemma keeps_generate_decrypted_pdf encrypted_path pii_fields passkey :
  keeps_store (generate_decrypted_pdf L encrypted_path pii_fields passkey).
Proof.
  unfold generate_decrypted_pdf, try_except2_M.
  apply keeps_try_except.
  - apply keeps_mbind; [apply keeps_lift|intros mp].
    apply keeps_mbind; [apply keeps_path_exists|intros present].
    apply keeps_mbind;
      [destruct present; [apply keeps_ret|apply keeps_raise]|intros _].
    apply keeps_mbind; [apply keeps_json_load|intros md].
    apply keeps_mbind; [apply keeps_lift|intros m].
    apply keeps_mbind; [apply keeps_fitz_open|intros pages].
    apply keeps_mbind; [apply keeps_lift|intros pages'].
    apply keeps_mbind; [apply keeps_write_file|intros _].
    apply keeps_ret.
  - intros e. destruct (is_ValueError e); [|apply keeps_raise].
    destruct (str_contains _ _); apply keeps_raise.
Qed.

Lemma keeps_process_ocr file_path : keeps_store (process_ocr T file_path).
Proof. intros w. by rewrite process_ocr_world. Qed.

Lemma encrypt_document_updates ent document_id passkey w :
  updates_record document_id w (encrypt_document L ent document_id passkey w).2.
Proof.
  unfold encrypt_document, try_except_M, mbind, lookup_doc.
  destruct (documents_store w !! document_id) as [doc|] eqn:Hdoc; [|by left].
  destruct (no_detected_pii (detected_pii doc)); [by left|].
  destruct (String.length passkey <? 8)%nat; [by left|].
  pose proof (keeps_generate_encrypted_pdf ent (original_path doc)
                (default [] (detected_pii doc)) passkey w) as Hk.
  destruct (generate_encrypted_pdf L ent (original_path doc)
              (default [] (detected_pii doc)) passkey w) as [[p|e] w1];
    simpl in *.
  - right. eexists. split; [done|]. by rewrite Hk.
  - by left.
Qed.

Lemma decrypt_document_updates document_id passkey w :
  updates_record document_id w (decrypt_document L document_id passkey w).2.
Proof.
  unfold decrypt_document, try_except2_M, try_except_M, mbind, lookup_doc.
  destruct (documents_store w !! document_id) as [doc|] eqn:Hdoc; [|by left].
  destruct (no_encrypted_path (encrypted_path doc)); [by left|].
  pose proof (keeps_generate_decrypted_pdf (default "" (encrypted_path doc))
                (detected_pii doc) passkey w) as Hk.
  destruct (generate_decrypted_pdf L (default "" (encrypted_path doc))
              (detected_pii doc) passkey w) as [[p|e] w1];
    simpl in *.
  - right. eexists. split; [done|]. by rewrite Hk.
  - left. destruct (is_ValueError e); [|done].
    by destruct (str_contains _ _).
Qed.

Lemma analyze_document_updates document_id w :
  updates_record document_id w (analyze_document T document_id w).2.
Proof.
  destruct (documents_store w !! document_id) as [doc|] eqn:Hdoc.
  - rewrite (analyze_document_run L T _ _ _ Hdoc). right.
    destruct (process_ocr T (original_path doc) w).1 as [text|e].
    + destruct (detect_pii T text (original_path doc)); by eexists.
    + by eexists.
  - rewrite (analyze_document_unknown L T _ _ Hdoc). by left.
Qed.

Lemma registry_ok_updates document_id (w w' : world L) :
  updates_record document_id w w' → registry_ok w → registry_ok w'.
Proof.
  intros [Hs|(d & Hin & Hs)] Hok k; rewrite Hs; [apply Hok|].
  rewrite map_size_insert_Some by done. etrans; [|apply Hok].
  destruct (decide (document_id = k)) as [<-|Hne].
  - rewrite lookup_insert_eq. split; [done|]. intros _. by eexists.
  - by rewrite lookup_insert_ne.
Qed.

Lemma registry_fresh (w : world L) :
  registry_ok w →
  documents_store w !! str_of_nat (size (documents_store w) + 1) = None.
Proof.
  intros Hok. apply eq_None_not_Some. intros Hin.
  apply Hok in Hin as (i & Hi & Heq). apply str_of_nat_inj in Heq. lia.
Qed.

Lemma registry_ok_new (w w' : world L) d :
  registry_ok w →
  documents_store w' =
    <[str_of_nat (size (documents_store w) + 1) := d]> (documents_store w) →
  registry_ok w'.
Proof.
  intros Hok Hs k. rewrite Hs.
  rewrite map_size_insert_None by by apply registry_fresh.
  destruct (decide (str_of_nat (size (documents_store w) + 1) = k)) as [<-|Hne].
  - rewrite lookup_insert_eq. split; [|by eexists].
    intros _. exists (size (documents_store w) + 1). split; [lia|done].
  - rewrite lookup_insert_ne by done. split.
    + intros (i & Hi & ->)%Hok. exists i. split; [lia|done].
    + intros (i & Hi & ->). apply Hok. exists i. split; [|done].
      destruct (decide (i = size (documents_store w) + 1)) as [->|]; [done|lia].
Qed.

Lemma upload_document_run (filename : string) (content : file L) (w : world L) :
  str_endswith (str_lower filename) ".pdf" = true →
  upload_document T filename content w =
  (Ok {| id := str_of_nat (size (documents_store w) + 1);
         filename := filename;
         original_path := upload_path T filename;
         status := "uploaded";
         detected_pii := None;
         encrypted_path := None |},
   {| fs := <[upload_path T filename := content]> (fs w);
      documents_store :=
        <[str_of_nat (size (documents_store w) + 1) :=
            {| id := str_of_nat (size (documents_store w) + 1);
               filename := filename;
               original_path := upload_path T filename;
               status := "uploaded";
               detected_pii := None;
               encrypted_path := None |}]> (documents_store w) |}).
Proof.
  intros He. unfold upload_document, try_except_M. by rewrite He.
Qed.

Lemma upload_document_refused (filename : string) (content : file L) (w : world L) :
  str_endswith (str_lower filename) ".pdf" = false →
  upload_document T filename content w =
  (Raised (HTTPException 500
     ("Upload failed: " +:+
      HTTPException_str L 400 "Only PDF files are supported")), w).
Proof.
  intros He. unfold upload_document, try_except_M. by rewrite He.
Qed.

Lemma registry_ok_empty (w : world L) :
  documents_store w = ∅ → registry_ok w.
Proof.
  intros Hs k. rewrite Hs, map_size_empty, lookup_empty. split.
  - by intros [? ?].
  - intros (i & Hi & _). lia.
Qed.

Lemma upload_document_keeps_registry filename content (w : world L) :
  registry_ok w → registry_ok (upload_document T filename content w).2.
Proof.
  intros Hok.
  destruct (str_endswith (str_lower filename) ".pdf") eqn:He.
  - rewrite upload_document_run by done. by eapply registry_ok_new.
  - by rewrite upload_document_refused.
Qed.

End registry.

(** X26. A file whose name, in lower case, does not end in ".pdf" is
    refused, but not with the 400 the handler raises: its own [except]
    turns that into a 500.  Nothing is written and nothing registered. *)
Theorem upload_refuses_other_names (L : Lib) (T : TextLib L)
    (filename : string) (content : file L) (w : world L) :
  str_endswith (str_lower filename) ".pdf" = false →
  upload_document T filename content w =
  (Raised (HTTPException 500
     ("Upload failed: " +:+
      HTTPException_str L 400 "Only PDF files are supported")), w).
Proof. apply upload_document_refused. Qed.

Lemma upload_refuses_other_names_witness :
  upload_document Samples3.text_lib "notes.pdf.txt" (@PdfFile Demo.lib ["x"])
    Samples3.world_uploaded =
  (Raised (HTTPException 500
     "Upload failed: 400: Only PDF files are supported"), Samples3.world_uploaded).
Proof.
  apply (upload_refuses_other_names Demo.lib Samples3.text_lib "notes.pdf.txt").
  vm_compute. reflexivity.
Defined.






(** X29. The four handlers that write keep the registry's identifiers the
    numerals from 1 to its size, as they are in the empty registry the
    server starts with: an upload adds the next numeral, the other three
    store at most a new version of the record they were called for.  So
    no run of requests makes an upload replace a record. *)
Theorem handlers_keep_registry (L : Lib) (T : TextLib L) (ent : nat → nonce)
    (w : world L) :
  registry_ok w →
  (∀ filename content, registry_ok (upload_document T filename content w).2) ∧
  (∀ document_id, registry_ok (analyze_document T document_id w).2) ∧
  (∀ document_id passkey,
     registry_ok (encrypt_document L ent document_id passkey w).2) ∧
  (∀ document_id passkey,
     registry_ok (decrypt_document L document_id passkey w).2).
Proof.
  intros Hok. split; [|split; [|split]].
  - intros filename content. by apply upload_document_keeps_registry.
  - intros document_id.
    eapply registry_ok_updates; [apply analyze_document_updates|done].
  - intros document_id passkey.
    eapply registry_ok_updates; [apply encrypt_document_updates|done].
  - intros document_id passkey.
    eapply registry_ok_updates; [apply decrypt_document_updates|done].
Qed.

Lemma handlers_keep_registry_witness :
  (∀ filename content,
     registry_ok (upload_document Samples3.text_lib filename content
                    Samples3.world_uploaded).2) ∧
  (∀ document_id,
     registry_ok (analyze_document Samples3.text_lib document_id
                    Samples3.world_uploaded).2) ∧
  (∀ document_id passkey,
     registry_ok (encrypt_document Demo.lib Demo.ent document_id passkey
                    Samples3.world_uploaded).2) ∧
  (∀ document_id passkey,
     registry_ok (decrypt_document Demo.lib document_id passkey
                    Samples3.world_uploaded).2).
Proof.
  apply (handlers_keep_registry Demo.lib Samples3.text_lib Demo.ent
           Samples3.world_uploaded).
  apply (registry_ok_new Demo.lib Samples3.world_empty Samples3.world_uploaded
           Samples3.doc_uploaded).
  - by apply registry_ok_empty.
  - reflexivity.
Defined.


(** * [create_redacted_pdf_simple] *)

Section simple.
Variable L : Lib.
Variable T : TextLib L.

Lemma simple_pages_replacements (pages : list (page L))
    (replacements replacements' : dict string) writer :
  simple_pages T pages replacements writer =
  simple_pages T pages replacements' writer.
Proof.
  revert writer. induction pages as [|pg pages IH]; intros writer; simpl; [done|].
  destruct (extract_text T pg); simpl; [apply IH|done].
Qed.

Lemma simple_pages_Ok_inv (pages : list (page L)) replacements writer out :
  simple_pages T pages replacements writer = Ok out → out = writer ++ pages.
Proof.
  revert writer. induction pages as [|pg pages IH]; intros writer; simpl.
  - intros [= <-]. by rewrite app_nil_r.
  - destruct (extract_text T pg); simpl; [|done].
    intros ->%IH. by rewrite <- app_assoc.
Qed.

Lemma simple_pages_Ok (pages : list (page L)) replacements writer :
  Forall (λ pg, is_ok (extract_text T pg) = true) pages →
  simple_pages T pages replacements writer = Ok (writer ++ pages).
Proof.
  intros H. revert writer.
  induction H as [|pg pages Hpg _ IH]; intros writer; simpl.
  - by rewrite app_nil_r.
  - destruct (extract_text T pg); simpl; [|done].
    rewrite IH. by rewrite <- app_assoc.
Qed.

End simple.

(** X30. [create_redacted_pdf_simple] redacts nothing.  The text it
    computes with the replacements is dropped, so files, result and error
    are the same for any two dictionaries of replacements; when it
    returns, the file it has written has the pages of the original,
    unchanged and in order, and it does return when the path holds a PDF
    of whose pages the text can be read. *)
Theorem simple_redaction_redacts_nothing (L : Lib) (T : TextLib L)
    (original_path : string) (replacements replacements' : dict string)
    (w : world L) :
  create_redacted_pdf_simple T original_path replacements w =
  create_redacted_pdf_simple T original_path replacements' w ∧
  (∀ redacted_path w',
     create_redacted_pdf_simple T original_path replacements w
       = (Ok redacted_path, w') →
     ∃ pages,
       fs w !! original_path = Some (PdfFile pages) ∧
       redacted_path =
         path_sibling L original_path ("redacted_" +:+ path_name T original_path) ∧
       w' = {| fs := <[redacted_path := PdfFile pages]> (fs w);
               documents_store := documents_store w |}) ∧
  (∀ pages,
     fs w !! original_path = Some (PdfFile pages) →
     Forall (λ pg, is_ok (extract_text T pg) = true) pages →
     (create_redacted_pdf_simple T original_path replacements w).1 =
     Ok (path_sibling L original_path ("redacted_" +:+ path_name T original_path))).
Proof.
  unfold create_redacted_pdf_simple, try_except_M, mbind, pdf_reader, lift,
    write_file, ret, raise.
  split; [|split].
  - destruct (fs w !! original_path) as [[pages|md]|]; try done.
    by rewrite (simple_pages_replacements L T pages replacements replacements').
  - intros redacted_path w'.
    destruct (fs w !! original_path) as [[pages|md]|]; try done.
    destruct (simple_pages T pages replacements []) as [out|e] eqn:Ho; [|done].
    apply simple_pages_Ok_inv in Ho as ->.
    intros [= <- <-]. by exists pages.
  - intros pages -> Hall.
    by rewrite (simple_pages_Ok L T pages replacements [] Hall).
Qed.

